(** * Lenient extraction of array literals from JavaScript-like text

    A shallow embedding of the scanning core of
    [src/data/unificador de catalogos.py]: the bracket matcher
    [find_matching_bracket], the comment stripper [remove_js_comments],
    the trailing-comma and quoting rewrites of [parse_js_array] and the
    key-anchored locator [extract_array_by_key].

    Python text is modelled as [list ascii]: a character is one code point
    of the Latin-1 range, which is enough for every character the program
    tests for.  Offsets are natural numbers: every call site passes the
    result of a successful search, never a negative offset. *)

From Stdlib Require Import Ascii String Bool Arith Lia ZArith DecimalString.
From Stdlib Require Import List Sorted.
Import ListNotations.

Local Open Scope char_scope.
Local Open Scope list_scope.

(** ** Text and characters *)

Definition text := list ascii.

Definition txt (s : string) : text := list_ascii_of_string s.

(** The double quote, written by its code so that no literal needs one. *)
Definition DQ : ascii := "034".
Definition SQ : ascii := "'".
Definition BACKSLASH : ascii := "\".
Definition LF : ascii := "010".
Definition CR : ascii := "013".

Definition is_quote (ch : ascii) : bool := (ch =? DQ) || (ch =? SQ).
Definition is_opener (ch : ascii) : bool := (ch =? "[") || (ch =? "{").
Definition is_closer (ch : ascii) : bool := (ch =? "]") || (ch =? "}").

(** Python's [s[a:b]] for non-negative offsets. *)
Definition slice (s : text) (a b : nat) : text := firstn (b - a) (skipn a s).

(** [s.find(ch, from)] for a one-character needle: [None] stands for -1. *)
Fixpoint find_from (rest : text) (ch : ascii) (i : nat) : option nat :=
  match rest with
  | [] => None
  | c :: rest' => if c =? ch then Some i else find_from rest' ch (S i)
  end.

Definition find_char (s : text) (ch : ascii) (from : nat) : option nat :=
  find_from (skipn from s) ch from.

(** ** Exceptions

    The exceptions the program raises, one constructor per [raise] site
    (the comment gives the message of the source), and the outcome of a
    call: a returned value or a raised exception. *)

(** What a [json.JSONDecodeError] complains about. *)
Inductive json_error : Type :=
| ExpectingValue
| ExpectingPropertyName
| ExpectingColon
| ExpectingComma
| ExtraData
| UnterminatedString
| InvalidControl
| InvalidEscape
| NotLatin1        (* no error of the decoder: an escape for a code point above
                     255, which a text of this model cannot hold *)
| TooDeep.         (* no error of the decoder: the model is out of fuel *)

Inductive exn : Type :=
| StartNotBracket      (* ValueError: start_index must point to '[' or '{' *)
| UnbalancedBrackets   (* ValueError: Unbalanced brackets *)
| MismatchedBrackets   (* ValueError: Mismatched brackets *)
| NoMatchingBracket    (* ValueError: No matching bracket found *)
| IndexError           (* s[start_index] past the end of s *)
| JSONDecodeError (msg : json_error)
| RuntimeError (cause : exn).  (* Failed to parse JSON array: cause *)

Inductive outcome (A : Type) : Type :=
| Return (a : A)
| Raise (e : exn).
Arguments Return {A} a.
Arguments Raise {A} e.

(** ** Bracket matcher *)

Module Match.

(** The local variables of the scan loop.  [stack] has its top at the
    head: [stack.append] is a cons and [stack.pop] removes the head. *)
Record state : Type := mk {
  in_string : bool;
  string_char : option ascii;
  escape : bool;
  stack : list ascii
}.

Inductive next : Type :=
| Continue (st : state)
| Done (r : outcome nat).

Definition same_char (ch : ascii) (q : option ascii) : bool :=
  match q with
  | Some c => ch =? c
  | None => false
  end.

(** One pass through the body of the [while] loop, at offset [i] holding
    [ch]; the [i += 1] that ends the body is done by [loop]. *)
Definition body (i : nat) (ch : ascii) (st : state) : next :=
  if escape st then
    Continue (mk (in_string st) (string_char st) false (stack st))
  else if ch =? BACKSLASH then
    Continue (mk (in_string st) (string_char st) true (stack st))
  else if in_string st then
    if same_char ch (string_char st)
    then Continue (mk false None (escape st) (stack st))
    else Continue st
  else if is_quote ch then
    Continue (mk true (Some ch) (escape st) (stack st))
  else if is_opener ch then
    Continue (mk (in_string st) (string_char st) (escape st) (ch :: stack st))
  else if is_closer ch then
    match stack st with
    | [] => Done (Raise UnbalancedBrackets)
    | top :: stack' =>
        if ((top =? "[") && negb (ch =? "]")) || ((top =? "{") && negb (ch =? "}"))
        then Done (Raise MismatchedBrackets)
        else match stack' with
             | [] => Done (Return i)
             | _ :: _ =>
                 Continue (mk (in_string st) (string_char st) (escape st) stack')
             end
    end
  else Continue st.

(** [while i < len(s)]: [rest] is [s[i:]]. *)
Fixpoint loop (rest : text) (i : nat) (st : state) : outcome nat :=
  match rest with
  | [] => Raise NoMatchingBracket
  | ch :: rest' =>
      match body i ch st with
      | Continue st' => loop rest' (S i) st'
      | Done r => r
      end
  end.

Definition init (opening : ascii) : state := mk false None false [opening].

(** The state in which the scan arrives at offset [i], when it has
    neither returned nor raised before: [rest] is [s[j:]] and [k] counts
    the characters still to consume before [i]. *)
Fixpoint reach (rest : text) (j : nat) (st : state) (k : nat) {struct k}
  : option state :=
  match k with
  | 0 => Some st
  | S k' =>
      match rest with
      | [] => None
      | ch :: rest' =>
          match body j ch st with
          | Continue st' => reach rest' (S j) st' k'
          | Done _ => None
          end
      end
  end.

End Match.

Definition find_matching_bracket (s : text) (start_index : nat) : outcome nat :=
  match nth_error s start_index with
  | None => Raise IndexError
  | Some opening =>
      if negb (is_opener opening) then Raise StartNotBracket
      else Match.loop (skipn (S start_index) s) (S start_index) (Match.init opening)
  end.

(** The scan state on arrival at offset [i] (with [start_index < i]), if
    the scan gets that far. *)
Definition scan_state_at (s : text) (start_index i : nat) : option Match.state :=
  match nth_error s start_index with
  | None => None
  | Some opening =>
      if negb (is_opener opening) then None
      else Match.reach (skipn (S start_index) s) (S start_index)
             (Match.init opening) (i - S start_index)
  end.

(** The closing bracket of an opening one. *)
Definition closer_of (opener : ascii) : ascii :=
  if opener =? "[" then "]" else "}".

(** The stack is never empty while the scan goes on, and holds opening
    brackets only. *)
Definition stack_ok (st : Match.state) : Prop :=
  Match.stack st <> [] /\ Forall (fun c => is_opener c = true) (Match.stack st).

(** ** Comment stripper *)

Module Strip.

(** The local variables of [remove_js_comments]: the offset [i] and the
    string-tracking flags, with the characters kept so far. *)
Record state : Type := mk {
  pos : nat;
  in_string : bool;
  string_char : option ascii;
  escape : bool;
  result_chars : text
}.

Definition is_eol (ch : ascii) : bool := (ch =? CR) || (ch =? LF).

(** [while i < n and source[i] not in CR LF: i += 1], with [rest] the
    text from offset [i] on. *)
Fixpoint skip_line (rest : text) (i : nat) : nat :=
  match rest with
  | [] => i
  | ch :: rest' => if is_eol ch then i else skip_line rest' (S i)
  end.

(** [while i+1 < n and not (source[i] == '*' and source[i+1] == '/'):
    i += 1], with [rest] the text from offset [i] on. *)
Fixpoint skip_block (rest : text) (i : nat) : nat :=
  match rest with
  | ch :: ((ch' :: _) as rest') =>
      if (ch =? "*") && (ch' =? "/") then i else skip_block rest' (S i)
  | _ => i
  end.

(** [result_chars.append(ch); i += 1] with the flags as given. *)
Definition keep (st : state) (ch : ascii)
           (in_string' : bool) (string_char' : option ascii) (escape' : bool)
  : state :=
  mk (S (pos st)) in_string' string_char' escape' (result_chars st ++ [ch]).

Definition jump (st : state) (i : nat) : state :=
  mk i (in_string st) (string_char st) (escape st) (result_chars st).

(** The character after offset [i] is [ch']: [i+1 < n and
    source[i+1] == ch']. *)
Definition next_is (source : text) (i : nat) (ch' : ascii) : bool :=
  match nth_error source (S i) with
  | Some c => c =? ch'
  | None => false
  end.

(** One pass through the body of the outer [while i < n] loop; a state
    whose offset is past the end is left as it is. *)
Definition step (source : text) (st : state) : state :=
  let n := length source in
  let i := pos st in
  match nth_error source i with
  | None => st
  | Some ch =>
      if escape st then
        keep st ch (in_string st) (string_char st) false
      else if in_string st then
        if ch =? BACKSLASH then
          keep st ch (in_string st) (string_char st) true
        else if Match.same_char ch (string_char st) then
          keep st ch false None (escape st)
        else
          keep st ch (in_string st) (string_char st) (escape st)
      else
        if is_quote ch then
          keep st ch true (Some ch) (escape st)
        else if (ch =? "/") && next_is source i "/" then
          jump st (skip_line (skipn (i + 2) source) (i + 2))
        else if (ch =? "/") && next_is source i "*" then
          let j := skip_block (skipn (i + 2) source) (i + 2) in
          jump st (if (S j <? n)%nat then j + 2 else j)
        else
          keep st ch (in_string st) (string_char st) (escape st)
  end.

Definition init : state := mk 0 false None false [].

(** The state after [k] passes through the loop body. *)
Definition run (source : text) (k : nat) : state :=
  Nat.iter k (step source) init.

End Strip.

(** Every pass advances the offset, so [len(source)] passes exhaust the
    loop (lemma [strip_loop_exits] below). *)
Definition remove_js_comments (source : text) : text :=
  Strip.result_chars (Strip.run source (length source)).

(** [out] is made of the characters of [s] at the offsets [idx], one
    after the other. *)
Definition taken_at (s : text) (idx : list nat) (out : text) : Prop :=
  Forall2 (fun i ch => nth_error s i = Some ch) idx out.

(** ** The string-aware cursor

    The string tracking of the stripper taken alone: the flags after one
    more character, when no comment is involved. *)

Record cursor : Type := mk_cursor {
  c_in_string : bool;
  c_string_char : option ascii;
  c_escape : bool
}.

Definition cursor_init : cursor := mk_cursor false None false.

Definition cursor_step (cu : cursor) (ch : ascii) : cursor :=
  if c_escape cu then mk_cursor (c_in_string cu) (c_string_char cu) false
  else if c_in_string cu then
    if ch =? BACKSLASH then mk_cursor (c_in_string cu) (c_string_char cu) true
    else if Match.same_char ch (c_string_char cu) then mk_cursor false None false
    else cu
  else if is_quote ch then mk_cursor true (Some ch) false
  else cu.

(** The flags on arrival at offset [i]. *)
Definition cursor_at (s : text) (i : nat) : cursor :=
  fold_left cursor_step (firstn i s) cursor_init.

(** Bare code: outside any string. *)
Definition in_code (cu : cursor) : bool :=
  negb (c_in_string cu) && negb (c_escape cu).

(** Some offset of [s] in bare code holds a slash followed by a slash or
    a star, the scan starting with the flags [cu]. *)
Fixpoint opener_in_code (cu : cursor) (s : text) : bool :=
  match s with
  | [] => false
  | ch :: rest =>
      (in_code cu && (ch =? "/")
       && match rest with
          | ch' :: _ => (ch' =? "/") || (ch' =? "*")
          | [] => false
          end)
      || opener_in_code (cursor_step cu ch) rest
  end.

(** Offset [i] lies strictly inside a double-quoted string: the cursor is
    in such a string on arrival at [i] and still is after it. *)
Definition in_double_quoted (cu : cursor) : bool :=
  c_in_string cu && Match.same_char DQ (c_string_char cu).

Definition strictly_inside_dq (s : text) (i : nat) : bool :=
  in_double_quoted (cursor_at s i) && in_double_quoted (cursor_at s (S i)).

(** ** Regular expressions of the program

    Each pattern the program hands to [re.sub] or [re.search] is written
    out as a matcher: given the character before the current offset and
    the text from that offset on, it answers whether the pattern matches
    there, with the replacement and the length of the match.  Every
    pattern is a fixed character, greedy runs and one required character
    that no run can hold, so the first attempt of the backtracking
    matcher is the only one that can succeed. *)

(** [\s] of a Python [str] pattern, on the Latin-1 range. *)
Definition is_space (ch : ascii) : bool :=
  let c := nat_of_ascii ch in
  ((9 <=? c) && (c <=? 13) || (28 <=? c) && (c <=? 32)
   || (c =? 133) || (c =? 160))%nat.

(** [\w] of a Python [str] pattern, on the Latin-1 range: the
    alphanumeric characters and the underscore. *)
Definition is_word (ch : ascii) : bool :=
  let c := nat_of_ascii ch in
  ((48 <=? c) && (c <=? 57) || (65 <=? c) && (c <=? 90) || (c =? 95)
   || (97 <=? c) && (c <=? 122) || (c =? 170) || (178 <=? c) && (c <=? 179)
   || (c =? 181) || (185 <=? c) && (c <=? 186) || (188 <=? c) && (c <=? 190)
   || (192 <=? c) && (c <=? 214) || (216 <=? c) && (c <=? 246)
   || (248 <=? c))%nat.

(** [[a-zA-Z_]] and [[a-zA-Z0-9_]]. *)
Definition is_ident_start (ch : ascii) : bool :=
  let c := nat_of_ascii ch in
  ((65 <=? c) && (c <=? 90) || (97 <=? c) && (c <=? 122) || (c =? 95))%nat.

Definition is_ident_char (ch : ascii) : bool :=
  is_ident_start ch
  || (let c := nat_of_ascii ch in (48 <=? c) && (c <=? 57))%nat.

(** The length of the longest prefix whose characters satisfy [p]: what a
    greedy run [p*] consumes. *)
Fixpoint run_length (p : ascii -> bool) (s : text) : nat :=
  match s with
  | ch :: rest => if p ch then S (run_length p rest) else 0
  | [] => 0
  end.

(** A matcher: from the character before the offset ([None] at offset 0)
    and the text from the offset on, the replacement and the length of
    the match. *)
Definition matcher := option ascii -> text -> option (text * nat).

(** [re.sub] for a pattern that matches no empty text: the matches are
    taken left to right without overlap; [skip] counts the characters of
    the current match still to pass over. *)
Fixpoint re_sub (m : matcher) (prev : option ascii) (skip : nat) (s : text)
  : text :=
  match s with
  | [] => []
  | ch :: rest =>
      match skip with
      | S k => re_sub m (Some ch) k rest
      | 0 =>
          match m prev s with
          | Some (repl, len) => repl ++ re_sub m (Some ch) (len - 1) rest
          | None => ch :: re_sub m (Some ch) 0 rest
          end
      end
  end.

(** A comma, a run of [\s], then a closing bracket (the group): the match
    is replaced by the group. *)
Definition trailing_comma : matcher := fun _ s =>
  match s with
  | ch :: rest =>
      if ch =? "," then
        let k := run_length is_space rest in
        match nth_error rest k with
        | Some c => if is_closer c then Some ([c], k + 2) else None
        | None => None
        end
      else None
  | [] => None
  end.

(** Looked-behind colon or [\s], a single quote, a run of characters
    other than the single quote (the group), a single quote, and a
    looked-ahead comma or closing bracket: the group is put between
    double quotes. *)
Definition single_quoted : matcher := fun prev s =>
  match prev, s with
  | Some p, ch :: rest =>
      if ((p =? ":") || is_space p) && (ch =? SQ) then
        let k := run_length (fun c => negb (c =? SQ)) rest in
        match nth_error rest k, nth_error rest (S k) with
        | Some _, Some a =>
            if (a =? ",") || is_closer a
            then Some (DQ :: firstn k rest ++ [DQ], k + 2)
            else None
        | _, _ => None
        end
      else None
  | _, _ => None
  end.

(** At a word boundary, an identifier (the group), a run of [\s] and a
    colon: the group is put between double quotes, followed by the
    colon. *)
Definition bare_key : matcher := fun prev s =>
  match s with
  | ch :: rest =>
      let boundary := match prev with Some p => negb (is_word p) | None => true end in
      if boundary && is_ident_start ch then
        let k := run_length is_ident_char rest in
        let w := run_length is_space (skipn k rest) in
        match nth_error rest (k + w) with
        | Some c =>
            if c =? ":"
            then Some (DQ :: ch :: firstn k rest ++ [DQ; ":"], k + w + 2)
            else None
        | None => None
        end
      else None
  | [] => None
  end.

Definition strip_trailing_commas (s : text) : text := re_sub trailing_comma None 0 s.
Definition requote_values (s : text) : text := re_sub single_quoted None 0 s.
Definition quote_keys (s : text) : text := re_sub bare_key None 0 s.

(** ** Strict parsing: [json.loads]

    The standard library's decoder, for text of the Latin-1 range.  A
    number with a fraction or an exponent is kept as its lexeme.

    The model stops short of the decoder in three places; the properties
    below evaluate texts that meet none of them, or hold whatever the
    decoder answers there.  An escape for a code point above 255
    is answered by [NotLatin1], where the decoder returns the character.
    The limits of the interpreter are left out: the decoder raises a
    [RecursionError] on a text nested deeper than the recursion limit and
    a [ValueError] on an integer of more digits than the interpreter
    converts, where the model goes on.  And [TooDeep] only says that the
    fuel is used up, which the fuel given by [loads] rules out. *)

Set Warnings "-register-all".

Inductive json : Type :=
| JNull
| JBool (b : bool)
| JInt (z : Z)
| JFloat (lexeme : text)
| JStr (s : text)
| JList (items : list json)
| JDict (pairs : list (text * json)).

Module Json.

Definition bind {A B : Type} (x : outcome A) (f : A -> outcome B) : outcome B :=
  match x with
  | Return a => f a
  | Raise e => Raise e
  end.

Definition fail {A : Type} (msg : json_error) : outcome A :=
  Raise (JSONDecodeError msg).

(** The decoder's own whitespace: space, tab, line feed, carriage
    return. *)
Definition is_ws (ch : ascii) : bool :=
  (ch =? " ") || (ch =? "009") || (ch =? LF) || (ch =? CR).

Fixpoint skip_ws (s : text) : text :=
  match s with
  | ch :: rest => if is_ws ch then skip_ws rest else s
  | [] => []
  end.

Definition text_eqb (a b : text) : bool :=
  if list_eq_dec ascii_dec a b then true else false.

(** [dict(pairs)]: a repeated key keeps its first place and takes the
    last value. *)
Fixpoint dict_set (d : list (text * json)) (k : text) (v : json)
  : list (text * json) :=
  match d with
  | [] => [(k, v)]
  | (k', v') :: d' =>
      if text_eqb k k' then (k', v) :: d' else (k', v') :: dict_set d' k v
  end.

Definition is_digit (ch : ascii) : bool :=
  let c := nat_of_ascii ch in ((48 <=? c) && (c <=? 57))%nat.

Definition hex_value (ch : ascii) : option nat :=
  let c := nat_of_ascii ch in
  if ((48 <=? c) && (c <=? 57))%nat then Some (c - 48)
  else if ((65 <=? c) && (c <=? 70))%nat then Some (c - 55)
  else if ((97 <=? c) && (c <=? 102))%nat then Some (c - 87)
  else None.

Definition unescape (ch : ascii) : option ascii :=
  if ch =? DQ then Some DQ
  else if ch =? BACKSLASH then Some BACKSLASH
  else if ch =? "/" then Some "/"
  else if ch =? "b" then Some "008"
  else if ch =? "f" then Some "012"
  else if ch =? "n" then Some LF
  else if ch =? "r" then Some CR
  else if ch =? "t" then Some "009"
  else None.

(** The content of a string literal, from just after its opening quote,
    and the text after its closing quote. *)
Fixpoint scanstring (s : text) (acc : text) : outcome (text * text) :=
  match s with
  | [] => fail UnterminatedString
  | ch :: rest =>
      if ch =? DQ then Return (acc, rest)
      else if ch =? BACKSLASH then
        match rest with
        | [] => fail UnterminatedString
        | e :: rest' =>
            if e =? "u" then
              match rest' with
              | h1 :: h2 :: h3 :: h4 :: rest'' =>
                  match hex_value h1, hex_value h2, hex_value h3, hex_value h4 with
                  | Some a, Some b, Some c, Some d =>
                      if ((a =? 0) && (b =? 0))%nat
                      then scanstring rest'' (acc ++ [ascii_of_nat (16 * c + d)])
                      else fail NotLatin1
                  | _, _, _, _ => fail InvalidEscape
                  end
              | _ => fail InvalidEscape
              end
            else
              match unescape e with
              | Some c => scanstring rest' (acc ++ [c])
              | None => fail InvalidEscape
              end
        end
      else if (nat_of_ascii ch <? 32)%nat then fail InvalidControl
      else scanstring rest (acc ++ [ch])
  end.

Fixpoint starts_with (p s : text) : option text :=
  match p, s with
  | [], _ => Some s
  | a :: p', b :: s' => if a =? b then starts_with p' s' else None
  | _ :: _, [] => None
  end.

Definition digits_value (ds : text) : Z :=
  fold_left (fun z d => (10 * z + Z.of_nat (nat_of_ascii d - 48))%Z) ds 0%Z.

(** The number pattern: an optional minus, a zero or a run of digits
    that starts with no zero, an optional fraction and an optional
    exponent. *)
Definition scan_number (s : text) : option (json * text) :=
  let (neg, s1) := match s with
                   | ch :: r => if ch =? "-" then (true, r) else (false, s)
                   | [] => (false, s)
                   end in
  let k := match s1 with
           | ch :: r => if ch =? "0" then 1
                        else if is_digit ch then S (run_length is_digit r)
                        else 0
           | [] => 0
           end in
  match k with
  | 0 => None
  | _ =>
      let int_part := firstn k s1 in
      let s2 := skipn k s1 in
      let f := match s2 with
               | ch :: r => if (ch =? ".") && (0 <? run_length is_digit r)%nat
                            then S (run_length is_digit r) else 0
               | [] => 0
               end in
      let s3 := skipn f s2 in
      let e := match s3 with
               | ch :: r =>
                   if (ch =? "e") || (ch =? "E") then
                     match r with
                     | sg :: r' =>
                         if (sg =? "-") || (sg =? "+") then
                           if (0 <? run_length is_digit r')%nat
                           then S (S (run_length is_digit r')) else 0
                         else if (0 <? run_length is_digit r)%nat
                              then S (run_length is_digit r) else 0
                     | [] => 0
                     end
                   else 0
               | [] => 0
               end in
      let len := (if neg then 1 else 0) + k + f + e in
      match f + e with
      | 0 => Some (JInt (if neg then - digits_value int_part else digits_value int_part)%Z,
                   skipn len s)
      | _ => Some (JFloat (firstn len s), skipn len s)
      end
  end.

Definition scan_literal (s : text) : outcome (json * text) :=
  match starts_with (txt "null") s with
  | Some r => Return (JNull, r)
  | None =>
  match starts_with (txt "true") s with
  | Some r => Return (JBool true, r)
  | None =>
  match starts_with (txt "false") s with
  | Some r => Return (JBool false, r)
  | None =>
  match scan_number s with
  | Some vr => Return vr
  | None =>
  match starts_with (txt "NaN") s with
  | Some r => Return (JFloat (txt "NaN"), r)
  | None =>
  match starts_with (txt "Infinity") s with
  | Some r => Return (JFloat (txt "Infinity"), r)
  | None =>
  match starts_with (txt "-Infinity") s with
  | Some r => Return (JFloat (txt "-Infinity"), r)
  | None => fail ExpectingValue
  end end end end end end end.

(** [scan_once] reads one value; [items] the elements of an array from
    the start of an element; [members] the pairs of an object from just
    after the opening quote of a key. *)
Fixpoint scan_once (fuel : nat) (s : text) : outcome (json * text) :=
  match fuel with
  | 0 => fail TooDeep
  | S fuel' =>
      match s with
      | [] => fail ExpectingValue
      | ch :: rest =>
          if ch =? DQ then
            bind (scanstring rest []) (fun sr => Return (JStr (fst sr), snd sr))
          else if ch =? "{" then
            match skip_ws rest with
            | c :: r =>
                if c =? "}" then Return (JDict [], r)
                else if c =? DQ then members fuel' r []
                else fail ExpectingPropertyName
            | [] => fail ExpectingPropertyName
            end
          else if ch =? "[" then
            match skip_ws rest with
            | c :: r =>
                if c =? "]" then Return (JList [], r)
                else items fuel' (c :: r) []
            | [] => fail ExpectingValue
            end
          else scan_literal s
      end
  end
with items (fuel : nat) (s : text) (acc : list json) : outcome (json * text) :=
  match fuel with
  | 0 => fail TooDeep
  | S fuel' =>
      bind (scan_once fuel' s) (fun vr =>
        match skip_ws (snd vr) with
        | c :: r =>
            if c =? "]" then Return (JList (acc ++ [fst vr]), r)
            else if c =? "," then items fuel' (skip_ws r) (acc ++ [fst vr])
            else fail ExpectingComma
        | [] => fail ExpectingComma
        end)
  end
with members (fuel : nat) (s : text) (acc : list (text * json))
  : outcome (json * text) :=
  match fuel with
  | 0 => fail TooDeep
  | S fuel' =>
      bind (scanstring s []) (fun kr =>
        match skip_ws (snd kr) with
        | c :: r =>
            if c =? ":" then
              bind (scan_once fuel' (skip_ws r)) (fun vr =>
                let acc' := dict_set acc (fst kr) (fst vr) in
                match skip_ws (snd vr) with
                | c2 :: r2 =>
                    if c2 =? "}" then Return (JDict acc', r2)
                    else if c2 =? "," then
                      match skip_ws r2 with
                      | c3 :: r3 =>
                          if c3 =? DQ then members fuel' r3 acc'
                          else fail ExpectingPropertyName
                      | [] => fail ExpectingPropertyName
                      end
                    else fail ExpectingComma
                | [] => fail ExpectingComma
                end)
            else fail ExpectingColon
        | [] => fail ExpectingColon
        end)
  end.

(** One value between optional whitespace, and nothing after it. *)
Definition loads (s : text) : outcome json :=
  bind (scan_once (2 * length s + 2) (skip_ws s)) (fun vr =>
    match skip_ws (snd vr) with
    | [] => Return (fst vr)
    | _ :: _ => fail ExtraData
    end).

End Json.

Definition clean_js_array_to_json_array (array_str : text) : text :=
  let no_comments := remove_js_comments array_str in
  let no_trailing := strip_trailing_commas no_comments in
  no_trailing.

(** [try: return json.loads(text) except Exception: fallback]. *)
Definition try_loads (s : text) (fallback : exn -> outcome json) : outcome json :=
  match Json.loads s with
  | Return v => Return v
  | Raise e => fallback e
  end.

Definition parse_js_array (array_str : text) : outcome json :=
  let cleaned := clean_js_array_to_json_array array_str in
  try_loads cleaned (fun _ =>
    let alt := requote_values cleaned in
    try_loads alt (fun _ =>
      let alt2 := quote_keys alt in
      try_loads alt2 (fun e2 => Raise (RuntimeError e2)))).

(** ** Key-anchored locator *)

(** A run of [\s], a colon, a run of [\s] and an opening square bracket:
    the length of the match at the head of [s]. *)
Definition colon_bracket (s : text) : option nat :=
  let a := run_length is_space s in
  match skipn a s with
  | c :: r =>
      if c =? ":" then
        let b := run_length is_space r in
        match nth_error r b with
        | Some c' => if c' =? "[" then Some (a + b + 2) else None
        | None => None
        end
      else None
  | [] => None
  end.

(** The first pattern: the key as it is ([re.escape] makes every one of
    its characters literal), then [colon_bracket]. *)
Definition bare_key_array (key : text) (s : text) : option nat :=
  match Json.starts_with key s with
  | Some r => option_map (fun n => length key + n) (colon_bracket r)
  | None => None
  end.

(** The second pattern: a quote of either kind, the key, a quote of
    either kind, then [colon_bracket]. *)
Definition quoted_key_array (key : text) (s : text) : option nat :=
  match s with
  | q :: s' =>
      if is_quote q then
        match Json.starts_with key s' with
        | Some (q' :: r) =>
            if is_quote q'
            then option_map (fun n => length key + n + 2) (colon_bracket r)
            else None
        | _ => None
        end
      else None
  | [] => None
  end.

(** [re.search]: the leftmost offset at which the pattern matches, with
    the offset where the match ends; [s] is the text from offset [i]. *)
Fixpoint re_search (pat : text -> option nat) (s : text) (i : nat)
  : option (nat * nat) :=
  match pat s with
  | Some len => Some (i, i + len)
  | None =>
      match s with
      | [] => None
      | _ :: rest => re_search pat rest (S i)
      end
  end.

(** The [for pat in patterns] loop. *)
Fixpoint for_patterns (patterns : list (text -> option nat)) (js_text : text)
  : outcome (option text) :=
  match patterns with
  | [] => Return None
  | pat :: patterns' =>
      match re_search pat js_text 0 with
      | Some (_, m_end) =>
          match find_char js_text "[" (m_end - 1) with
          | None => for_patterns patterns' js_text
          | Some start_bracket =>
              match find_matching_bracket js_text start_bracket with
              | Return end_bracket =>
                  Return (Some (slice js_text start_bracket (end_bracket + 1)))
              | Raise _ => for_patterns patterns' js_text
              end
          end
      | None => for_patterns patterns' js_text
      end
  end.

Definition extract_array_by_key (js_text key : text) : outcome (option text) :=
  for_patterns [bare_key_array key; quoted_key_array key] js_text.

(** The bracket offset a pattern leads to: the first match, then the
    [find] of the opening bracket from the last character of the match. *)
Definition located (pat : text -> option nat) (js_text : text) : option nat :=
  match re_search pat js_text 0 with
  | Some (_, m_end) => find_char js_text "[" (m_end - 1)
  | None => None
  end.

(** ** Notions the properties are stated with *)


(** A run of whitespace. *)
Definition spaces (ws : text) : Prop := Forall (fun x => is_space x = true) ws.

(** [mid] is a key as the locator looks for it: the key itself, or the
    key between two quote characters of either kind, then whitespace, a
    colon and whitespace. *)
Definition key_occurrence (key mid : text) : Prop :=
  exists ws1 ws2,
    spaces ws1 /\ spaces ws2 /\
    (mid = key ++ ws1 ++ ":" :: ws2
     \/ exists q1 q2, is_quote q1 = true /\ is_quote q2 = true /\
                      mid = q1 :: key ++ q2 :: ws1 ++ ":" :: ws2).

(** ** Well-nested text

    The texts on which the bracket matcher is to find the closing bracket:
    plain characters, string literals that hold no backslash, and
    bracketed well-nested texts. *)

Definition is_plain (ch : ascii) : bool :=
  negb (is_quote ch || is_opener ch || is_closer ch || (ch =? BACKSLASH)).

Inductive nested : text -> Prop :=
| nested_nil : nested []
| nested_plain (ch : ascii) (t : text) :
    is_plain ch = true -> nested t -> nested (ch :: t)
| nested_string (q : ascii) (body t : text) :
    is_quote q = true ->
    Forall (fun c => (c =? q) || (c =? BACKSLASH) = false) body ->
    nested t -> nested (q :: body ++ q :: t)
| nested_bracket (o : ascii) (b t : text) :
    is_opener o = true -> nested b -> nested t ->
    nested (o :: b ++ closer_of o :: t).

(** ** Notions for the comment stripper *)

(** The text holds a star followed by a slash. *)
Fixpoint has_block_end (s : text) : bool :=
  match s with
  | ch :: ((ch' :: _) as rest) =>
      ((ch =? "*") && (ch' =? "/")) || has_block_end rest
  | _ => false
  end.

(** The last character of [out] is a slash in bare code, the scan
    starting with the flags [cu]. *)
Fixpoint slash_pending (cu : cursor) (out : text) : bool :=
  match out with
  | [] => false
  | ch :: rest =>
      match rest with
      | [] => in_code cu && (ch =? "/")
      | _ :: _ => slash_pending (cursor_step cu ch) rest
      end
  end.

(** A state of the stripper on [b], seen as a state on [a ++ b] that has
    already kept [acc0]. *)
Definition shift (a acc0 : text) (st : Strip.state) : Strip.state :=
  Strip.mk (length a + Strip.pos st) (Strip.in_string st) (Strip.string_char st)
    (Strip.escape st) (acc0 ++ Strip.result_chars st).

(** The flags of the stripper are those of the cursor [cu]. *)
Definition flags_of (cu : cursor) (st : Strip.state) : Prop :=
  Strip.in_string st = c_in_string cu /\
  Strip.string_char st = c_string_char cu /\
  Strip.escape st = c_escape cu.

(** What the stripper keeps true of the characters kept so far: its flags
    are those of the cursor run over them, no comment opener stands in
    bare code among them, and when they end with a slash in bare code the
    character at the current offset is neither a slash nor a star. *)
Definition kept_clean (s : text) (st : Strip.state) : Prop :=
  let out := Strip.result_chars st in
  flags_of (fold_left cursor_step out cursor_init) st /\
  opener_in_code cursor_init out = false /\
  (slash_pending cursor_init out = true ->
   forall x, nth_error s (Strip.pos st) = Some x ->
             (x =? "/") || (x =? "*") = false).

(** The bottom of the bracket stack is the bracket the scan started on. *)
Definition bottom_is (o : ascii) (st : Match.state) : Prop :=
  exists above, Match.stack st = above ++ [o].

(** ** Notions for the rewrites *)





(** No word character stands right before the offset: [prev] is the
    character before the text [a], and the offset is the end of [a]. *)
Definition boundary_after (prev : option ascii) (a : text) : Prop :=
  match last (map Some a) prev with
  | Some p => is_word p = false
  | None => True
  end.

(** ** Loaders

    [load_dailymotion_items] and [load_youtube_items], from the text of
    the file on: reading the file is left to the caller. *)

(** What a loader gives: the parsed items, an exception of the bracket
    matcher or of the parser, or the runtime error of the loader itself
    (the array could not be located). *)
Inductive loaded : Type :=
| Items (items : json)
| Failed (e : exn)
| NotLocated.

(** A run of [\s], the character [sep], a run of [\s] and an opening
    brace: the length of the match at the head of [s]. *)
Definition sep_brace (sep : ascii) (s : text) : option nat :=
  let a := run_length is_space s in
  match skipn a s with
  | c :: r =>
      if c =? sep then
        let b := run_length is_space r in
        match nth_error r b with
        | Some c' => if c' =? "{" then Some (a + b + 2) else None
        | None => None
        end
      else None
  | [] => None
  end.

(** The word categories, then [sep_brace] with a colon. *)
Definition categories_block (s : text) : option nat :=
  match Json.starts_with (txt "categories") s with
  | Some r => option_map (fun n => length (txt "categories") + n) (sep_brace ":" r)
  | None => None
  end.

(** The word const, at least one [\s], the word youtubeMaydayVideos, then
    [sep_brace] with an equals sign. *)
Definition youtube_block (s : text) : option nat :=
  match Json.starts_with (txt "const") s with
  | Some r =>
      let a := run_length is_space r in
      if (0 <? a)%nat then
        match Json.starts_with (txt "youtubeMaydayVideos") (skipn a r) with
        | Some r' =>
            option_map
              (fun n => length (txt "const") + a + length (txt "youtubeMaydayVideos") + n)
              (sep_brace "=" r')
        | None => None
        end
      else None
  | None => None
  end.

(** An opening square bracket, a run of [\s], an opening brace, a run of
    [\s] and a double quote. *)
Definition array_of_objects (s : text) : option nat :=
  match s with
  | c :: r =>
      if c =? "[" then
        let a := run_length is_space r in
        match skipn a r with
        | c1 :: r1 =>
            if c1 =? "{" then
              let b := run_length is_space r1 in
              match nth_error r1 b with
              | Some c2 => if c2 =? DQ then Some (a + b + 3) else None
              | None => None
              end
            else None
        | [] => None
        end
      else None
  | [] => None
  end.

(** [not arr]: [arr] is [None] or the empty text. *)
Definition not_arr (arr : option text) : bool :=
  match arr with
  | Some (_ :: _) => false
  | _ => true
  end.

(** The second strategy of both loaders: find the block that [pat]
    announces, match its braces and look for the key inside the block;
    any exception on the way leaves [None].  When [pat] matches nowhere,
    [arr] stays as it was.  ([find] cannot fail, as the match ends with
    the brace it looks for.) *)
Definition key_in_block (pat : text -> option nat) (file_text key : text)
           (arr : option text) : option text :=
  match re_search pat file_text 0 with
  | Some (_, m_end) =>
      match find_char file_text "{" (m_end - 1) with
      | Some start =>
          match find_matching_bracket file_text start with
          | Return e =>
              match extract_array_by_key (slice file_text start (e + 1)) key with
              | Return arr' => arr'
              | Raise _ => None
              end
          | Raise _ => None
          end
      | None => None
      end
  | None => arr
  end.

(** [items = parse_js_array(arr); return items], once [arr] is settled. *)
Definition parse_located (arr : option text) : loaded :=
  if not_arr arr then NotLocated
  else match arr with
       | Some a =>
           match parse_js_array a with
           | Return items => Items items
           | Raise e => Failed e
           end
       | None => NotLocated
       end.

Definition load_youtube_items (file_text : text) : loaded :=
  match extract_array_by_key file_text (txt "videos") with
  | Raise e => Failed e
  | Return arr =>
      let arr :=
        if not_arr arr then key_in_block youtube_block file_text (txt "videos") arr
        else arr in
      parse_located arr
  end.

Definition load_dailymotion_items (file_text : text) : loaded :=
  match extract_array_by_key file_text (txt "maydayEpisodes") with
  | Raise e => Failed e
  | Return arr =>
      let arr :=
        if not_arr arr
        then key_in_block categories_block file_text (txt "maydayEpisodes") arr
        else arr in
      if not_arr arr then
        match re_search array_of_objects file_text 0 with
        | Some (start, _) =>
            match find_matching_bracket file_text start with
            | Return e => parse_located (Some (slice file_text start (e + 1)))
            | Raise x => Failed x
            end
        | None => parse_located arr
        end
      else parse_located arr
  end.

(** ** Items of the catalogue

    [normalize_dailymotion_item] and [convert_youtube_to_dailymotion_format]
    on an item that is a mapping (on any other value [.get] raises), and
    the list that [generate_catalog] makes of them.  A mapping is the list
    of its pairs, [None] is [JNull], [False] is [JBool false]. *)

(** [d.get(k, default)]. *)
Fixpoint get (d : list (text * json)) (k : text) (default : json) : json :=
  match d with
  | [] => default
  | (k', v) :: d' => if Json.text_eqb k' k then v else get d' k default
  end.

Section Items.

(** The truth value of a float, from its lexeme, and [str] of a float,
    a list or a mapping are not modelled: they are parameters. *)
Variable float_truthy : text -> bool.
Variable str_other : json -> text.

(** The truth value of a value. *)
Definition truthy (v : json) : bool :=
  match v with
  | JNull => false
  | JBool b => b
  | JInt z => negb (z =? 0)%Z
  | JFloat lexeme => float_truthy lexeme
  | JStr s => match s with [] => false | _ :: _ => true end
  | JList items => match items with [] => false | _ :: _ => true end
  | JDict pairs => match pairs with [] => false | _ :: _ => true end
  end.

(** [a or b]. *)
Definition py_or (a b : json) : json := if truthy a then a else b.

(** [str(v)], as an f-string formats a value. *)
Definition py_str (v : json) : text :=
  match v with
  | JStr s => s
  | JInt z => txt (NilZero.string_of_int (Z.to_int z))
  | JBool true => txt "True"
  | JBool false => txt "False"
  | JNull => txt "None"
  | _ => str_other v
  end.

Definition convert_youtube_to_dailymotion_format (yt_item : list (text * json))
  : list (text * json) :=
  let url :=
    py_or (get yt_item (txt "url") JNull)
      (if truthy (get yt_item (txt "id") JNull)
       then JStr (txt "https://www.youtube.com/watch?v="
                  ++ py_str (get yt_item (txt "id") JNull))
       else JNull) in
  [ (txt "url", url);
    (txt "text",
     py_or (py_or (get yt_item (txt "title") JNull) (get yt_item (txt "text") JNull))
       (JStr []));
    (txt "title",
     py_or (py_or (get yt_item (txt "title") JNull) (get yt_item (txt "text") JNull))
       (JStr []));
    (txt "videoId", py_or (get yt_item (txt "id") JNull) (JStr []));
    (txt "imageUrl",
     py_or (py_or (get yt_item (txt "thumbnail") JNull)
              (get yt_item (txt "imageUrl") JNull))
       (JStr []));
    (txt "duration", py_or (get yt_item (txt "duration") JNull) (JStr (txt "N/A")));
    (txt "views", py_or (get yt_item (txt "views") JNull) (JStr (txt "N/A")));
    (txt "is_external", JBool false);
    (txt "season", get yt_item (txt "season") JNull);
    (txt "episode", get yt_item (txt "episode") JNull);
    (txt "hasLocalImage", JBool false) ].

Definition normalize_dailymotion_item (dm_item : list (text * json))
  : list (text * json) :=
  [ (txt "url", get dm_item (txt "url") JNull);
    (txt "text",
     py_or (py_or (get dm_item (txt "text") JNull) (get dm_item (txt "title") JNull))
       (JStr []));
    (txt "title",
     py_or (py_or (get dm_item (txt "title") JNull) (get dm_item (txt "text") JNull))
       (JStr []));
    (txt "videoId",
     py_or (py_or (get dm_item (txt "videoId") JNull)
              (get dm_item (txt "video_id") JNull))
       (JStr []));
    (txt "imageUrl",
     py_or (py_or (py_or (get dm_item (txt "imageUrl") JNull)
                     (get dm_item (txt "image") JNull))
              (get dm_item (txt "thumbnail") JNull))
       (JStr []));
    (txt "duration", py_or (get dm_item (txt "duration") JNull) (JStr (txt "N/A")));
    (txt "views", py_or (get dm_item (txt "views") JNull) (JStr (txt "N/A")));
    (txt "is_external", get dm_item (txt "is_external") (JBool false));
    (txt "season", get dm_item (txt "season") JNull);
    (txt "episode", get dm_item (txt "episode") JNull);
    (txt "hasLocalImage", get dm_item (txt "hasLocalImage") (JBool false)) ].

(** The list [combined] of [generate_catalog]: the Dailymotion items,
    normalized, then the YouTube items, converted; [total] is its
    length. *)
Definition combined (dm_items yt_items : list (list (text * json)))
  : list (list (text * json)) :=
  map normalize_dailymotion_item dm_items
  ++ map convert_youtube_to_dailymotion_format yt_items.

(** A value that is true or the empty string: what [x or ''] gives. *)
Definition settled (v : json) : Prop := truthy v = true \/ v = JStr [].

End Items.

(** The keys of an item of the catalogue, in their order. *)
Definition catalogue_keys : list text :=
  [ txt "url"; txt "text"; txt "title"; txt "videoId"; txt "imageUrl";
    txt "duration"; txt "views"; txt "is_external"; txt "season";
    txt "episode"; txt "hasLocalImage" ].

(** An item as the catalogue holds them: it has the keys of the
    catalogue, normalizing it changes nothing, its text, title, video
    identifier and image are true values or the empty string (never
    [None]), and its duration and views are true values. *)
Definition catalogue_item (float_truthy : text -> bool)
           (item : list (text * json)) : Prop :=
  map fst item = catalogue_keys
  /\ normalize_dailymotion_item float_truthy item = item
  /\ (forall k, In k [txt "text"; txt "title"; txt "videoId"; txt "imageUrl"] ->
                settled float_truthy (get item k JNull))
  /\ (forall k, In k [txt "duration"; txt "views"] ->
                truthy float_truthy (get item k JNull) = true).

(** ** The bracket structure of a text

    What the claims on the bracket matcher speak of, written as a
    grammar and not as a scan: the inside of a string literal, a text
    whose brackets are all closed, a text that leaves brackets open, and
    the end of a text inside a string.  [plain] says which characters
    count as ordinary outside strings. *)

(** Outside strings the specification gives the backslash no meaning:
    every character that is neither a quote nor a bracket is ordinary. *)
Definition spec_plain (ch : ascii) : bool :=
  negb (is_quote ch || is_opener ch || is_closer ch).

(** The inside of a string literal opened by the quote [q]: characters
    other than [q], where a backslash takes the next character along. *)
Inductive string_body (q : ascii) : text -> Prop :=
| string_body_nil : string_body q []
| string_body_char (c : ascii) (t : text) :
    (c =? q) = false -> (c =? BACKSLASH) = false ->
    string_body q t -> string_body q (c :: t)
| string_body_escape (c : ascii) (t : text) :
    string_body q t -> string_body q (BACKSLASH :: c :: t).

(** A text whose brackets are all closed, each by a bracket of its own
    kind: ordinary characters, whole string literals, and balanced texts
    between an opening bracket and its closing bracket. *)
Inductive balanced (plain : ascii -> bool) : text -> Prop :=
| balanced_nil : balanced plain []
| balanced_plain (ch : ascii) (t : text) :
    plain ch = true -> balanced plain t -> balanced plain (ch :: t)
| balanced_string (q : ascii) (body t : text) :
    is_quote q = true -> string_body q body -> balanced plain t ->
    balanced plain (q :: body ++ q :: t)
| balanced_bracket (o : ascii) (b t : text) :
    is_opener o = true -> balanced plain b -> balanced plain t ->
    balanced plain (o :: b ++ closer_of o :: t).

(** A text that leaves the brackets [opens] open, the innermost first:
    a balanced text, then each of them followed by a balanced text. *)
Inductive leaves_open (plain : ascii -> bool) : list ascii -> text -> Prop :=
| leaves_open_none (w : text) : balanced plain w -> leaves_open plain [] w
| leaves_open_more (opens : list ascii) (w : text) (o : ascii) (b : text) :
    leaves_open plain opens w -> is_opener o = true -> balanced plain b ->
    leaves_open plain (o :: opens) (w ++ o :: b).

(** The end of a text outside any string, or inside a string that is
    not closed (its last character may be a backslash with nothing to
    take along). *)
Inductive unterminated : text -> Prop :=
| unterminated_none : unterminated []
| unterminated_string (q : ascii) (body : text) :
    is_quote q = true -> string_body q body -> unterminated (q :: body)
| unterminated_escape (q : ascii) (body : text) :
    is_quote q = true -> string_body q body ->
    unterminated (q :: body ++ [BACKSLASH]).

(** The three ways the text [rest] after an opening bracket [o] can go.
    [closes]: the bracket that closes [o] stands at offset [k] of [rest].
    [mismatches]: a closing bracket stands where the innermost open
    bracket ([o] itself when [opens] is empty) is of the other kind.
    [stays_open]: the text ends with [o] still open. *)
Definition closes (plain : ascii -> bool) (o : ascii) (rest : text) (k : nat) : Prop :=
  exists w tl,
    balanced plain w /\ rest = w ++ closer_of o :: tl /\ k = length w.

Definition mismatches (plain : ascii -> bool) (o : ascii) (rest : text) : Prop :=
  exists opens w c tl,
    leaves_open plain opens w /\ rest = w ++ c :: tl /\
    is_closer c = true /\ c <> closer_of (hd o opens).

Definition stays_open (plain : ascii -> bool) (rest : text) : Prop :=
  exists opens w u,
    leaves_open plain opens w /\ unterminated u /\ rest = w ++ u.

(** A backslash stands outside any string, with brackets still open. *)
Definition bare_backslash (plain : ascii -> bool) (rest : text) : Prop :=
  exists opens w tl,
    leaves_open plain opens w /\ rest = w ++ BACKSLASH :: tl.

(** What the scan of the matcher has seen when it is in the state [st]
    after the text [w] that follows the opening bracket [o]. *)
Definition seen (o : ascii) (w : text) (st : Match.state) : Prop :=
  (exists opens,
      leaves_open is_plain opens w /\
      st = Match.mk false None false (opens ++ [o]))
  \/ (exists opens w0 q body,
         is_quote q = true /\ leaves_open is_plain opens w0 /\
         string_body q body /\ w = w0 ++ q :: body /\
         st = Match.mk true (Some q) false (opens ++ [o]))
  \/ (exists opens w0 q body,
         is_quote q = true /\ leaves_open is_plain opens w0 /\
         string_body q body /\ w = w0 ++ q :: body ++ [BACKSLASH] /\
         st = Match.mk true (Some q) true (opens ++ [o])).

(** What an outcome of the matcher says of the text after the bracket,
    the scan having started at offset [j]. *)
Definition verdict (o : ascii) (rest : text) (j : nat) (r : outcome nat) : Prop :=
  match r with
  | Return e => exists k, e = j + k /\ closes is_plain o rest k
  | Raise MismatchedBrackets => mismatches is_plain o rest
  | Raise NoMatchingBracket => stays_open is_plain rest
  | Raise _ => False
  end.

(** Some offset of [s] outside any string holds a backslash, the scan of
    the cursor starting with the flags [cu]. *)
Fixpoint backslash_in_code (cu : cursor) (s : text) : bool :=
  match s with
  | [] => false
  | ch :: rest =>
      (in_code cu && (ch =? BACKSLASH))
      || backslash_in_code (cursor_step cu ch) rest
  end.

(** ** Texts of the scenarios *)

(** The end-to-end scenario. *)
Definition episodes_text : text :=
  txt "const data = { maydayEpisodes: [ {url:'x', title:" ++ DQ :: txt "A" ++ DQ
  :: txt "}, /* note */ {url:'y', title:'B'}, ] };".

Definition episodes_span : text :=
  txt "[ {url:'x', title:" ++ DQ :: txt "A" ++ DQ
  :: txt "}, /* note */ {url:'y', title:'B'}, ]".


(** An array whose only element is a string that holds a comma before a
    closing bracket. *)
Definition comma_in_string : text :=
  txt "[" ++ DQ :: txt "a ,]" ++ DQ :: txt "]".


(** An array whose first element is a string that holds an escaped quote
    and a closing bracket, closed by a brace. *)
Definition escaped_quote_text : text :=
  txt "[ " ++ DQ :: BACKSLASH :: DQ :: "]" :: DQ :: txt ", 2}".

(** * Properties *)

(** ** Examples *)

Example fmb_simple : find_matching_bracket (txt "x[1,{2}]y") 1 = Return 7.
Proof. reflexivity. Qed.

Example fmb_quoted :
  find_matching_bracket (txt "['a]', 2]") 0 = Return 8.
Proof. reflexivity. Qed.

Example rjc_line : remove_js_comments (txt "a // b") = txt "a ".
Proof. reflexivity. Qed.

Example rjc_block : remove_js_comments (txt "a /* b */ c") = txt "a  c".
Proof. reflexivity. Qed.

Example rjc_open_block : remove_js_comments (txt "a/*bc") = txt "ac".
Proof. reflexivity. Qed.

Example sub_commas : strip_trailing_commas (txt ",,] [1, ]") = txt ",] [1]".
Proof. reflexivity. Qed.

Example sub_quotes :
  requote_values (txt "{a: 'x', b:'y'}") = txt "{a: " ++ DQ :: txt "x" ++ DQ :: txt ", b:" ++ DQ :: txt "y" ++ DQ :: txt "}".
Proof. reflexivity. Qed.

Example sub_keys :
  quote_keys (txt "{a : 1, b_2:2}") = txt "{" ++ DQ :: txt "a" ++ DQ :: txt ": 1, " ++ DQ :: txt "b_2" ++ DQ :: txt ":2}".
Proof. reflexivity. Qed.

Example loads_simple :
  Json.loads (txt " [1, -20, {}, [true, null], 1.5e3] ")
  = Return (JList [JInt 1; JInt (-20); JDict []; JList [JBool true; JNull]; JFloat (txt "1.5e3")]).
Proof. vm_compute. reflexivity. Qed.

Example loads_trailing : Json.loads (txt "[1,]") = Raise (JSONDecodeError ExpectingValue).
Proof. vm_compute. reflexivity. Qed.

Example e2e_span :
  extract_array_by_key episodes_text (txt "maydayEpisodes")
  = Return (Some episodes_span).
Proof. vm_compute. reflexivity. Qed.


(** ** Characters *)

Ltac len_solve :=
  repeat first [rewrite length_app | progress cbn [length]]; lia.

Lemma is_opener_cases ch : is_opener ch = true <-> ch = "[" \/ ch = "{".
Proof.
  unfold is_opener. rewrite orb_true_iff, !Ascii.eqb_eq. tauto.
Qed.

Lemma is_closer_cases ch : is_closer ch = true <-> ch = "]" \/ ch = "}".
Proof.
  unfold is_closer. rewrite orb_true_iff, !Ascii.eqb_eq. tauto.
Qed.

Lemma nth_error_skipn {A : Type} (l : list A) (a k : nat) :
  nth_error (skipn a l) k = nth_error l (a + k).
Proof.
  revert l. induction a as [|a IH]; intros [|x l]; simpl; auto.
  now destruct k.
Qed.

(** ** Bracket matcher *)

Lemma init_stack_ok opening : is_opener opening = true -> stack_ok (Match.init opening).
Proof.
  intros H. split; simpl; [discriminate | auto].
Qed.

(** What the loop body does on a closing bracket that the scan sees. *)
Lemma body_on_closer i ch st top below :
  Match.escape st = false -> Match.in_string st = false ->
  is_closer ch = true -> Match.stack st = top :: below -> is_opener top = true ->
  Match.body i ch st =
    if ch =? closer_of top then
      match below with
      | [] => Match.Done (Return i)
      | _ :: _ => Match.Continue (Match.mk false (Match.string_char st) false below)
      end
    else Match.Done (Raise MismatchedBrackets).
Proof.
  intros He Hs Hc Hst Ht. unfold Match.body. rewrite He, Hs, Hst.
  apply is_closer_cases in Hc. apply is_opener_cases in Ht.
  destruct Hc as [-> | ->], Ht as [-> | ->]; destruct below; reflexivity.
Qed.

(** The loop body ends the scan only on such a bracket. *)
Lemma body_done i ch st r :
  stack_ok st -> Match.body i ch st = Match.Done r ->
  Match.escape st = false /\ Match.in_string st = false /\ is_closer ch = true /\
  exists top below, Match.stack st = top :: below /\ is_opener top = true.
Proof.
  intros [Hne Hall]. unfold Match.body.
  destruct (Match.escape st); [discriminate|].
  destruct (ch =? BACKSLASH); [discriminate|].
  destruct (Match.in_string st).
  { destruct (Match.same_char _ _); discriminate. }
  destruct (is_quote ch); [discriminate|].
  destruct (is_opener ch); [discriminate|].
  destruct (is_closer ch); [|discriminate].
  destruct (Match.stack st) as [|top below]; [congruence|].
  intros _. inversion Hall; subst. repeat split; eauto.
Qed.

Lemma body_continue i ch st st' :
  stack_ok st -> Match.body i ch st = Match.Continue st' -> stack_ok st'.
Proof.
  intros [Hne Hall]. unfold Match.body, stack_ok.
  destruct (Match.escape st); [intros [= <-]; auto|].
  destruct (ch =? BACKSLASH); [intros [= <-]; auto|].
  destruct (Match.in_string st).
  { destruct (Match.same_char _ _); intros [= <-]; auto. }
  destruct (is_quote ch); [intros [= <-]; auto|].
  destruct (is_opener ch) eqn:Ho.
  { intros [= <-]; simpl. split; [discriminate | auto]. }
  destruct (is_closer ch); [|intros [= <-]; auto].
  destruct (Match.stack st) as [|top below]; [discriminate|].
  destruct (_ || _); [discriminate|].
  destruct below as [|b below]; [discriminate|].
  intros [= <-]; simpl. inversion Hall; subst. split; [discriminate | auto].
Qed.

Lemma body_done_result i ch st r :
  stack_ok st -> Match.body i ch st = Match.Done r ->
  r = Return i \/ r = Raise MismatchedBrackets.
Proof.
  intros Hok Hb.
  destruct (body_done _ _ _ _ Hok Hb) as (He & Hs & Hc & top & below & Hst & Ht).
  rewrite (body_on_closer i ch st top below He Hs Hc Hst Ht) in Hb.
  destruct (ch =? closer_of top).
  - destruct below; [|discriminate]. left. congruence.
  - right. congruence.
Qed.

Lemma loop_result rest : forall j st,
  stack_ok st ->
  (exists i, Match.loop rest j st = Return i)
  \/ Match.loop rest j st = Raise MismatchedBrackets
  \/ Match.loop rest j st = Raise NoMatchingBracket.
Proof.
  induction rest as [|c rest IH]; intros j st Hok; simpl; [auto|].
  destruct (Match.body j c st) as [st1|r] eqn:Hb.
  - apply IH. eapply body_continue; eauto.
  - destruct (body_done_result _ _ _ _ Hok Hb) as [-> | ->]; eauto.
Qed.

(** ** Comment stripper: the loop *)

Lemma skip_line_ge rest : forall i, i <= Strip.skip_line rest i.
Proof.
  induction rest as [|c rest IH]; intros i; simpl; [lia|].
  destruct (Strip.is_eol c); [lia|]. specialize (IH (S i)). lia.
Qed.

Lemma skip_block_ge rest : forall i, i <= Strip.skip_block rest i.
Proof.
  induction rest as [|c rest IH]; intros i; simpl; [lia|].
  destruct rest as [|c' rest]; [lia|].
  destruct ((c =? "*") && (c' =? "/")); [lia|]. specialize (IH (S i)). lia.
Qed.

Lemma run_S s k : Strip.run s (S k) = Strip.step s (Strip.run s k).
Proof. reflexivity. Qed.

Lemma step_exited s st :
  nth_error s (Strip.pos st) = None -> Strip.step s st = st.
Proof. intros H. unfold Strip.step. now rewrite H. Qed.

(** A pass through the loop body either keeps the current character and
    moves on by one, or, in bare code, jumps over a comment and keeps
    nothing. *)
Lemma step_cases s st ch :
  nth_error s (Strip.pos st) = Some ch ->
  (Strip.pos (Strip.step s st) = S (Strip.pos st) /\
   Strip.result_chars (Strip.step s st) = Strip.result_chars st ++ [ch])
  \/ (Strip.pos st + 2 <= Strip.pos (Strip.step s st) /\
      Strip.result_chars (Strip.step s st) = Strip.result_chars st /\
      Strip.in_string st = false /\ Strip.escape st = false).
Proof.
  intros H. unfold Strip.step. rewrite H.
  destruct (Strip.escape st); [left; split; reflexivity|].
  destruct (Strip.in_string st).
  { destruct (ch =? BACKSLASH); [left; split; reflexivity|].
    destruct (Match.same_char _ _); left; split; reflexivity. }
  destruct (is_quote ch); [left; split; reflexivity|].
  destruct ((ch =? "/") && Strip.next_is s (Strip.pos st) "/").
  { right. simpl. pose proof (skip_line_ge (skipn (Strip.pos st + 2) s) (Strip.pos st + 2)).
    repeat split; auto. }
  destruct ((ch =? "/") && Strip.next_is s (Strip.pos st) "*").
  { right. simpl.
    pose proof (skip_block_ge (skipn (Strip.pos st + 2) s) (Strip.pos st + 2)).
    repeat split; auto. destruct (_ <? _)%nat; lia. }
  left; split; reflexivity.
Qed.


Lemma step_pos_lt s st ch :
  nth_error s (Strip.pos st) = Some ch -> Strip.pos st < Strip.pos (Strip.step s st).
Proof.
  intros H. destruct (step_cases s st ch H) as [[Hp _]|[Hp _]]; lia.
Qed.

(** After [k] passes the offset is at least [k], unless the loop has
    ended before. *)
Lemma run_pos s k :
  length s <= Strip.pos (Strip.run s k) \/ k <= Strip.pos (Strip.run s k).
Proof.
  induction k as [|k IH]; [right; simpl; lia|].
  rewrite run_S.
  destruct (nth_error s (Strip.pos (Strip.run s k))) as [ch|] eqn:Hn.
  - pose proof (step_pos_lt _ _ _ Hn). destruct IH; [left|right]; lia.
  - rewrite (step_exited _ _ Hn). left. now apply nth_error_None.
Qed.

(** [len(source)] passes end the loop: the offset is past the end, and
    further passes change nothing. *)
Lemma strip_loop_exits s :
  length s <= Strip.pos (Strip.run s (length s)) /\
  forall j, Strip.run s (length s + j) = Strip.run s (length s).
Proof.
  assert (H : length s <= Strip.pos (Strip.run s (length s))).
  { destruct (run_pos s (length s)); assumption. }
  split; [exact H|].
  induction j as [|j IH]; [now rewrite Nat.add_0_r|].
  rewrite Nat.add_succ_r, run_S, IH. apply step_exited.
  now apply nth_error_None.
Qed.

(** What has been kept stays: the result only grows at its end. *)
Lemma run_result_grows s k : forall j,
  exists tail,
    Strip.result_chars (Strip.run s (k + j)) = Strip.result_chars (Strip.run s k) ++ tail.
Proof.
  induction j as [|j [tail IH]].
  - exists []. now rewrite Nat.add_0_r, app_nil_r.
  - rewrite Nat.add_succ_r, run_S.
    destruct (nth_error s (Strip.pos (Strip.run s (k + j)))) as [ch|] eqn:Hn.
    + destruct (step_cases _ _ _ Hn) as [[_ Hr]|(_ & Hr & _)]; rewrite Hr, IH.
      * exists (tail ++ [ch]). now rewrite app_assoc.
      * now exists tail.
    + rewrite (step_exited _ _ Hn). now exists tail.
Qed.

(** ** Comment stripper: the result is a subsequence *)

Lemma sorted_snoc (idx : list nat) (p : nat) :
  StronglySorted lt idx -> Forall (fun i => i < p) idx ->
  StronglySorted lt (idx ++ [p]).
Proof.
  induction 1 as [|i idx Hs IH Hi]; intros Hp; simpl.
  - repeat constructor.
  - inversion Hp; subst. constructor; [auto|].
    apply Forall_app. split; [assumption|]. repeat constructor. assumption.
Qed.

Lemma sorted_length (idx : list nat) : forall a n,
  StronglySorted lt idx -> Forall (fun i => a <= i < n) idx ->
  length idx <= n - a.
Proof.
  induction idx as [|i idx IH]; intros a n Hs Hb; simpl; [lia|].
  inversion Hs as [|? ? Hs' Hlt]; subst. inversion Hb as [|? ? Hi Hb']; subst.
  assert (H : length idx <= n - S i).
  { apply IH; [assumption|].
    rewrite Forall_forall in *. intros x Hx.
    specialize (Hlt x Hx). specialize (Hb' x Hx). lia. }
  lia.
Qed.

(** After any number of passes, what has been kept is made of the
    characters at increasing offsets, all before the current one. *)
Lemma run_taken s k :
  exists idx,
    StronglySorted lt idx /\
    Forall (fun i => i < Strip.pos (Strip.run s k)) idx /\
    taken_at s idx (Strip.result_chars (Strip.run s k)).
Proof.
  induction k as [|k (idx & Hs & Hb & Ht)].
  - exists []. repeat constructor.
  - rewrite run_S.
    destruct (nth_error s (Strip.pos (Strip.run s k))) as [ch|] eqn:Hn.
    + destruct (step_cases _ _ _ Hn) as [[Hp Hr]|(Hp & Hr & _)]; rewrite Hr.
      * exists (idx ++ [Strip.pos (Strip.run s k)]). split; [|split].
        -- now apply sorted_snoc.
        -- rewrite Hp. apply Forall_app. split.
           ++ eapply Forall_impl; [|exact Hb]. simpl. lia.
           ++ repeat constructor.
        -- apply Forall2_app; [exact Ht|]. repeat constructor. exact Hn.
      * exists idx. split; [assumption|]. split; [|assumption].
        eapply Forall_impl; [|exact Hb]. simpl. lia.
    + rewrite (step_exited _ _ Hn). now exists idx.
Qed.

(** C10: the result of the stripper is a subsequence of its input: it is
    made of the characters of the input at strictly increasing offsets,
    so nothing is reordered, repeated or brought in, and the result is no
    longer than the input. *)
Theorem remove_js_comments_subsequence :
  forall source : text,
    (exists idx : list nat,
        StronglySorted lt idx /\ taken_at source idx (remove_js_comments source))
    /\ length (remove_js_comments source) <= length source.
Proof.
  intros source. unfold remove_js_comments.
  destruct (run_taken source (length source)) as (idx & Hs & _ & Ht).
  split; [exists idx; split; assumption|].
  rewrite <- (Forall2_length Ht), <- (Nat.sub_0_r (length source)).
  apply sorted_length; [assumption|].
  unfold taken_at in Ht. clear Hs.
  induction Ht as [|i ch idx out Hi _ IH]; constructor; [|assumption].
  split; [lia|]. apply nth_error_Some. congruence.
Qed.

(** ** Comment stripper: strings are kept *)

Lemma firstn_snoc {A : Type} (l : list A) : forall k x,
  nth_error l k = Some x -> firstn (S k) l = firstn k l ++ [x].
Proof.
  induction l as [|a l IH]; intros [|k] x H; simpl in *; try discriminate.
  - now inversion H.
  - f_equal. now apply IH.
Qed.

Lemma cursor_at_S s k ch :
  nth_error s k = Some ch -> cursor_at s (S k) = cursor_step (cursor_at s k) ch.
Proof.
  intros H. unfold cursor_at. now rewrite (firstn_snoc _ _ _ H), fold_left_app.
Qed.

Lemma next_is_cons c rest k x :
  Strip.next_is (c :: rest) (S k) x = Strip.next_is rest k x.
Proof. reflexivity. Qed.

(** Without a comment opener in bare code, no offset in bare code passes
    either comment test of the loop body. *)
Lemma no_opener_at s : forall cu k ch,
  opener_in_code cu s = false ->
  nth_error s k = Some ch ->
  in_code (fold_left cursor_step (firstn k s) cu) = true ->
  (ch =? "/") && Strip.next_is s k "/" = false /\
  (ch =? "/") && Strip.next_is s k "*" = false.
Proof.
  induction s as [|c rest IH]; intros cu [|k] ch Ho Hn Hc; simpl in Hn; try discriminate.
  - inversion Hn; subst. simpl in Ho, Hc. rewrite Hc in Ho.
    apply orb_false_iff in Ho. destruct Ho as [Ho _].
    unfold Strip.next_is. simpl.
    destruct (ch =? "/"); [|split; reflexivity]. simpl in *.
    destruct rest as [|c' rest]; [split; reflexivity|]. simpl.
    apply orb_false_iff in Ho. tauto.
  - simpl in Ho. apply orb_false_iff in Ho. destruct Ho as [_ Ho].
    rewrite !next_is_cons. apply (IH (cursor_step cu c)); assumption.
Qed.

(** Without a comment opener in bare code the loop copies: after [k]
    passes it is at offset [k], with the flags of the cursor, and has kept
    the first [k] characters. *)
Lemma run_copies s :
  opener_in_code cursor_init s = false ->
  forall k, k <= length s ->
    Strip.run s k =
    Strip.mk k (c_in_string (cursor_at s k)) (c_string_char (cursor_at s k))
      (c_escape (cursor_at s k)) (firstn k s).
Proof.
  intros Ho. induction k as [|k IH]; intros Hk; [reflexivity|].
  rewrite run_S, IH by lia.
  destruct (nth_error s k) as [ch|] eqn:Hn.
  2:{ apply nth_error_None in Hn. lia. }
  rewrite (cursor_at_S _ _ _ Hn), (firstn_snoc _ _ _ Hn).
  pose proof (no_opener_at s cursor_init k ch Ho Hn) as Hno.
  fold (cursor_at s k) in Hno.
  destruct (cursor_at s k) as [ins sc esc].
  unfold Strip.step, Strip.keep, cursor_step, in_code in *. simpl in *. rewrite Hn.
  destruct esc; [reflexivity|].
  destruct ins.
  { destruct (ch =? BACKSLASH); [reflexivity|].
    destruct (Match.same_char ch sc); reflexivity. }
  destruct (is_quote ch); [reflexivity|].
  destruct (Hno eq_refl) as [H1 H2]. rewrite H1, H2. reflexivity.
Qed.



(** ** Unterminated block comment *)

(** Once the offset is past the end, further passes change nothing. *)
Lemma run_stable s k :
  length s <= Strip.pos (Strip.run s k) ->
  forall j, Strip.run s (k + j) = Strip.run s k.
Proof.
  intros H. induction j as [|j IH]; [now rewrite Nat.add_0_r|].
  rewrite Nat.add_succ_r, run_S, IH. apply step_exited. now apply nth_error_None.
Qed.

(** C3 (the code departs from the claim): a block comment that is never
    closed does not swallow the text to its very end.  The inner loop
    stops one character early and the closing jump is then left out, so
    the last character of the text is scanned as bare code: whatever it
    is, it is kept.  On a/*bc the result is ac. *)
Theorem unterminated_block_comment_keeps_last :
  remove_js_comments (txt "a/*bc") = txt "ac"
  /\ forall ch : ascii, remove_js_comments (txt "a/*b" ++ [ch]) = txt "a" ++ [ch].
Proof.
  split; [vm_compute; reflexivity|].
  intros ch. unfold remove_js_comments.
  change (length (txt "a/*b" ++ [ch])) with (3 + 2).
  rewrite run_stable.
  - unfold Strip.run. simpl Nat.iter.
    unfold Strip.step at 3. simpl.
    unfold Strip.step at 2. simpl.
    unfold Strip.step, Strip.next_is. simpl.
    destruct (is_quote ch); [reflexivity|].
    rewrite !andb_false_r. reflexivity.
  - unfold Strip.run. simpl Nat.iter.
    unfold Strip.step at 3. simpl.
    unfold Strip.step at 2. simpl.
    unfold Strip.step, Strip.next_is. simpl.
    destruct (is_quote ch); [simpl; lia|].
    rewrite !andb_false_r. simpl. lia.
Qed.

(** ** Backslash outside a string *)

(** In the bracket matcher a backslash sets the escape flag wherever it
    stands, also in bare code. *)
Lemma matcher_backslash_escapes i st :
  Match.escape st = false ->
  Match.body i BACKSLASH st
  = Match.Continue (Match.mk (Match.in_string st) (Match.string_char st) true
                      (Match.stack st)).
Proof. intros H. unfold Match.body. now rewrite H. Qed.

(** In the stripper a backslash in bare code leaves the flags alone. *)
Lemma stripper_backslash_in_code s st :
  nth_error s (Strip.pos st) = Some BACKSLASH ->
  Strip.in_string st = false -> Strip.escape st = false ->
  Strip.step s st = Strip.keep st BACKSLASH false (Strip.string_char st) false.
Proof.
  intros Hn Hs He. unfold Strip.step. rewrite Hn, Hs, He. reflexivity.
Qed.

(** C8 (the code departs from the claim): in the bracket matcher a
    backslash outside any string sets the escape flag, and the character
    after it is passed over.  On [\]] from offset 0 the scan arrives at
    offset 2 outside any string with the escape pending, passes over the
    closing bracket there and returns offset 3; the stripper, on the same
    text, has no escape pending at offset 2. *)
Theorem backslash_outside_string_escapes :
  find_matching_bracket (txt "[\]]") 0 = Return 3
  /\ option_map Match.escape (scan_state_at (txt "[\]]") 0 2) = Some true
  /\ option_map Match.in_string (scan_state_at (txt "[\]]") 0 2) = Some false
  /\ Strip.escape (Strip.run (txt "[\]]") 2) = false
  /\ Strip.pos (Strip.run (txt "[\]]") 2) = 2.
Proof. vm_compute. repeat split. Qed.

(** ** Greedy runs and substitution *)

Lemma run_length_le p (s : text) : run_length p s <= length s.
Proof.
  induction s as [|c s IH]; simpl; [lia|]. destruct (p c); simpl; lia.
Qed.


Lemma run_length_all p (s : text) :
  Forall (fun x => p x = true) s -> run_length p s = length s.
Proof.
  induction 1 as [|c s Hc _ IH]; simpl; [reflexivity|]. now rewrite Hc, IH.
Qed.

(** What follows a character that fails the test has no say in the
    run. *)
Lemma run_length_app p (a : text) x r :
  p x = false -> run_length p (a ++ x :: r) = run_length p a.
Proof.
  intros Hx. induction a as [|c a IH]; simpl; [now rewrite Hx|].
  destruct (p c); [now rewrite IH | reflexivity].
Qed.

Lemma closer_not_space c : is_closer c = true -> is_space c = false.
Proof.
  intros H. apply is_closer_cases in H. destruct H as [-> | ->]; reflexivity.
Qed.

(** Passing over the characters of a match. *)
Lemma re_sub_skip (m : matcher) (x : text) : forall prev j y,
  exists prev', re_sub m prev (length x + j) (x ++ y) = re_sub m prev' j y.
Proof.
  induction x as [|c x IH]; intros prev j y; simpl.
  - now exists prev.
  - apply IH.
Qed.

Lemma re_sub_trailing_prev (s : text) : forall p p' k,
  re_sub trailing_comma p k s = re_sub trailing_comma p' k s.
Proof.
  induction s as [|c s IH]; intros p p' k; simpl; [reflexivity|].
  destruct k; [|apply IH].
  reflexivity.
Qed.

(** ** Trailing commas *)

Lemma trailing_comma_here ws c b prev :
  Forall (fun x => is_space x = true) ws -> is_closer c = true ->
  trailing_comma prev ("," :: ws ++ c :: b) = Some ([c], length ws + 2).
Proof.
  intros Hws Hc. unfold trailing_comma. simpl.
  rewrite (run_length_app is_space ws c b (closer_not_space c Hc)).
  rewrite (run_length_all _ _ Hws).
  rewrite nth_error_app2, Nat.sub_diag by lia. simpl. now rewrite Hc.
Qed.

(** A match that starts before a comma ends before it. *)
Lemma trailing_comma_before a r prev ch :
  trailing_comma prev (ch :: a ++ "," :: r) = trailing_comma prev (ch :: a)
  /\ forall repl len, trailing_comma prev (ch :: a) = Some (repl, len) ->
                      len - 1 <= length a.
Proof.
  unfold trailing_comma. destruct (ch =? ","); [|split; [reflexivity|discriminate]].
  rewrite (run_length_app is_space a "," r eq_refl).
  pose proof (run_length_le is_space a) as Hle.
  destruct (Nat.eq_dec (run_length is_space a) (length a)) as [He | Hne].
  - rewrite He, nth_error_app2, Nat.sub_diag by lia. simpl.
    replace (nth_error a (length a)) with (@None ascii)
      by (symmetry; apply nth_error_None; lia).
    split; [reflexivity|discriminate].
  - rewrite nth_error_app1 by lia. split; [reflexivity|].
    intros repl len.
    destruct (nth_error a (run_length is_space a)) as [c|] eqn:Hn; [|discriminate].
    destruct (is_closer c); [|discriminate].
    intros H. inversion H; subst. lia.
Qed.

Lemma re_sub_trailing_split ws c b :
  Forall (fun x => is_space x = true) ws -> is_closer c = true ->
  forall a skip prev,
    skip <= length a ->
    re_sub trailing_comma prev skip (a ++ "," :: ws ++ c :: b)
    = re_sub trailing_comma prev skip a ++ c :: re_sub trailing_comma None 0 b.
Proof.
  intros Hws Hc. induction a as [|ch a IH]; intros skip prev Hskip.
  - assert (skip = 0) as -> by (simpl in Hskip; lia).
    change ([] ++ "," :: ws ++ c :: b) with ("," :: ws ++ c :: b).
    cbn [re_sub app]. rewrite (trailing_comma_here ws c b prev Hws Hc).
    replace (length ws + 2 - 1) with (length (ws ++ [c]) + 0)
      by (rewrite length_app; simpl; lia).
    replace (ws ++ c :: b) with ((ws ++ [c]) ++ b) by (now rewrite <- app_assoc).
    destruct (re_sub_skip trailing_comma (ws ++ [c]) (Some ",") 0 b) as [p' ->].
    simpl. f_equal. apply re_sub_trailing_prev.
  - rewrite <- app_comm_cons. cbn [re_sub]. destruct skip as [|k].
    + destruct (trailing_comma_before a (ws ++ c :: b) prev ch) as [-> Hlen].
      destruct (trailing_comma prev (ch :: a)) as [[repl len]|].
      * rewrite IH by (eapply Hlen; reflexivity). now rewrite app_assoc.
      * rewrite IH by lia. reflexivity.
    + apply IH. simpl in Hskip. lia.
Qed.

(** C9: the trailing-comma rewrite looks at no string: wherever a comma
    is followed by whitespace only and a closing bracket, the comma and
    the whitespace are removed, whatever stands before and after.  So the
    strictly valid array whose one element is the string a ,] (its comma,
    at offset 4, lies inside the string) parses, but to the string a ]
    and not to the string that was written. *)
Theorem trailing_comma_removal_ignores_strings :
  (forall (a ws b : text) (c : ascii),
      Forall (fun x => is_space x = true) ws -> is_closer c = true ->
      strip_trailing_commas (a ++ "," :: ws ++ c :: b)
      = strip_trailing_commas a ++ c :: strip_trailing_commas b)
  /\ strictly_inside_dq comma_in_string 4 = true
  /\ nth_error comma_in_string 4 = Some ","
  /\ Json.loads comma_in_string = Return (JList [JStr (txt "a ,]")])
  /\ parse_js_array comma_in_string = Return (JList [JStr (txt "a ]")]).
Proof.
  split.
  - intros a ws b c Hws Hc. unfold strip_trailing_commas.
    apply re_sub_trailing_split; [assumption|assumption|lia].
  - vm_compute. repeat split.
Qed.

Lemma trailing_comma_removal_ignores_strings_witness :
  strip_trailing_commas ((txt "[" ++ DQ :: txt "a ") ++ "," :: [] ++ "]" :: DQ :: txt "]")
  = strip_trailing_commas (txt "[" ++ DQ :: txt "a ")
    ++ "]" :: strip_trailing_commas (DQ :: txt "]").
Proof.
  apply (proj1 trailing_comma_removal_ignores_strings).
  - constructor.
  - reflexivity.
Defined.

(** ** Requoting of single-quoted values *)


Lemma nth_error_split_at {A : Type} (l : list A) : forall k x,
  nth_error l k = Some x -> l = firstn k l ++ x :: skipn (S k) l.
Proof.
  induction l as [|a l IH]; intros [|k] x H; simpl in *; try discriminate.
  - now inversion H.
  - f_equal. now apply IH.
Qed.




(** ** Locator: the two patterns *)

Lemma starts_with_sound p : forall s r, Json.starts_with p s = Some r -> s = p ++ r.
Proof.
  induction p as [|a p IH]; intros s r; simpl.
  - now intros [= ->].
  - destruct s as [|b s]; [discriminate|].
    destruct (a =? b) eqn:He; [|discriminate].
    apply Ascii.eqb_eq in He. subst b. intros H. now rewrite (IH _ _ H).
Qed.

Lemma starts_with_complete p r : Json.starts_with p (p ++ r) = Some r.
Proof.
  induction p as [|a p IH]; simpl; [reflexivity|]. now rewrite Ascii.eqb_refl.
Qed.

Lemma run_length_prefix p (s : text) :
  Forall (fun x => p x = true) (firstn (run_length p s) s).
Proof.
  induction s as [|c s IH]; simpl; [constructor|].
  destruct (p c) eqn:Hc; simpl; constructor; assumption.
Qed.

Lemma colon_bracket_sound s n :
  colon_bracket s = Some n ->
  exists ws1 ws2 post,
    spaces ws1 /\ spaces ws2 /\ s = ws1 ++ ":" :: ws2 ++ "[" :: post /\
    n = length ws1 + length ws2 + 2.
Proof.
  unfold colon_bracket.
  set (a := run_length is_space s).
  destruct (skipn a s) as [|c r] eqn:Hs; [discriminate|].
  destruct (c =? ":") eqn:Hc; [|discriminate]. apply Ascii.eqb_eq in Hc. subst c.
  set (b := run_length is_space r).
  destruct (nth_error r b) as [c'|] eqn:Hb; [|discriminate].
  destruct (c' =? "[") eqn:Hc'; [|discriminate]. apply Ascii.eqb_eq in Hc'. subst c'.
  intros [= <-].
  exists (firstn a s), (firstn b r), (skipn (S b) r).
  assert (Ha : a <= length s) by apply run_length_le.
  assert (Hb' : b <= length r) by apply run_length_le.
  rewrite !length_firstn, !Nat.min_l by lia.
  split; [apply run_length_prefix|]. split; [apply run_length_prefix|].
  split; [|reflexivity].
  rewrite <- (nth_error_split_at r b _ Hb), <- Hs. symmetry. apply firstn_skipn.
Qed.

Lemma colon_bracket_complete ws1 ws2 post :
  spaces ws1 -> spaces ws2 ->
  colon_bracket (ws1 ++ ":" :: ws2 ++ "[" :: post)
  = Some (length ws1 + length ws2 + 2).
Proof.
  intros H1 H2. unfold colon_bracket.
  rewrite (run_length_app is_space ws1 ":" _ eq_refl), (run_length_all _ _ H1).
  rewrite skipn_app, Nat.sub_diag, skipn_all. simpl.
  rewrite (run_length_app is_space ws2 "[" _ eq_refl), (run_length_all _ _ H2).
  rewrite nth_error_app2, Nat.sub_diag by lia. reflexivity.
Qed.

Lemma bare_key_array_sound key s len :
  bare_key_array key s = Some len ->
  exists mid post,
    s = mid ++ "[" :: post /\ key_occurrence key mid /\ len = length mid + 1.
Proof.
  unfold bare_key_array.
  destruct (Json.starts_with key s) as [r|] eqn:Hk; [|discriminate].
  apply starts_with_sound in Hk. subst s.
  destruct (colon_bracket r) as [n|] eqn:Hc; [|discriminate].
  destruct (colon_bracket_sound _ _ Hc) as (ws1 & ws2 & post & H1 & H2 & -> & ->).
  intros [= <-].
  exists (key ++ ws1 ++ ":" :: ws2), post. split; [|split].
  - now rewrite <- ?app_assoc; simpl; rewrite <- ?app_assoc.
  - exists ws1, ws2. auto.
  - len_solve.
Qed.

Lemma quoted_key_array_sound key s len :
  quoted_key_array key s = Some len ->
  exists mid post,
    s = mid ++ "[" :: post /\ key_occurrence key mid /\ len = length mid + 1.
Proof.
  unfold quoted_key_array.
  destruct s as [|q s]; [discriminate|].
  destruct (is_quote q) eqn:Hq; [|discriminate].
  destruct (Json.starts_with key s) as [[|q' r]|] eqn:Hk; try discriminate.
  apply starts_with_sound in Hk. subst s.
  destruct (is_quote q') eqn:Hq'; [|discriminate].
  destruct (colon_bracket r) as [n|] eqn:Hc; [|discriminate].
  destruct (colon_bracket_sound _ _ Hc) as (ws1 & ws2 & post & H1 & H2 & -> & ->).
  intros [= <-].
  exists (q :: key ++ q' :: ws1 ++ ":" :: ws2), post. split; [|split].
  - now simpl; rewrite <- ?app_assoc; simpl; rewrite <- ?app_assoc.
  - exists ws1, ws2. split; [assumption|]. split; [assumption|].
    right. exists q, q'. auto.
  - len_solve.
Qed.

(** Where a key occurs, one of the two patterns matches. *)
Lemma key_patterns_complete key mid post :
  key_occurrence key mid ->
  bare_key_array key (mid ++ "[" :: post) <> None
  \/ quoted_key_array key (mid ++ "[" :: post) <> None.
Proof.
  intros (ws1 & ws2 & H1 & H2 & [-> | (q1 & q2 & Hq1 & Hq2 & ->)]).
  - left. unfold bare_key_array.
    rewrite <- !app_assoc, starts_with_complete. cbn [app].
    now rewrite (colon_bracket_complete ws1 ws2 post H1 H2).
  - right. unfold quoted_key_array. cbn [app]. rewrite Hq1.
    rewrite <- !app_assoc, starts_with_complete. cbn [app]. rewrite Hq2.
    rewrite <- ?app_assoc. cbn [app].
    now rewrite (colon_bracket_complete ws1 ws2 post H1 H2).
Qed.

(** ** Locator: search and extraction *)

Lemma re_search_sound pat (s : text) : forall i a b,
  re_search pat s i = Some (a, b) ->
  exists pre rest len,
    s = pre ++ rest /\ pat rest = Some len /\ a = i + length pre /\ b = a + len.
Proof.
  induction s as [|c s IH]; intros i a b; simpl.
  - destruct (pat []) as [len|] eqn:Hp; [|discriminate].
    intros [= <- <-]. exists [], [], len. simpl. repeat split; auto; lia.
  - destruct (pat (c :: s)) as [len|] eqn:Hp.
    + intros [= <- <-]. exists [], (c :: s), len. simpl. repeat split; auto; lia.
    + intros H. destruct (IH _ _ _ H) as (pre & rest & len & -> & Hr & -> & ->).
      exists (c :: pre), rest, len. simpl. repeat split; auto; lia.
Qed.

Lemma re_search_none pat (s : text) : forall i,
  (forall pre rest, s = pre ++ rest -> pat rest = None) ->
  re_search pat s i = None.
Proof.
  induction s as [|c s IH]; intros i H; simpl.
  - now rewrite (H [] [] eq_refl).
  - rewrite (H [] (c :: s) eq_refl). apply IH.
    intros pre rest ->. now apply (H (c :: pre) rest).
Qed.

Lemma find_char_here (pre post : text) ch :
  find_char (pre ++ ch :: post) ch (length pre) = Some (length pre).
Proof.
  unfold find_char. rewrite skipn_app, Nat.sub_diag, skipn_all. simpl.
  now rewrite Ascii.eqb_refl.
Qed.

(** The loop over the patterns, one pattern at a time. *)
Lemma for_patterns_cons pat pats js :
  for_patterns (pat :: pats) js =
  match located pat js with
  | Some b =>
      match find_matching_bracket js b with
      | Return e => Return (Some (slice js b (e + 1)))
      | Raise _ => for_patterns pats js
      end
  | None => for_patterns pats js
  end.
Proof.
  unfold located. simpl. destruct (re_search pat js 0) as [[a m]|]; reflexivity.
Qed.

(** A pattern that matches key occurrences only leads to the bracket
    after one. *)
Lemma located_sound key pat js b :
  (forall s len, pat s = Some len ->
     exists mid post,
       s = mid ++ "[" :: post /\ key_occurrence key mid /\ len = length mid + 1) ->
  located pat js = Some b ->
  exists pre mid post,
    js = pre ++ mid ++ "[" :: post /\ key_occurrence key mid /\
    b = length pre + length mid.
Proof.
  intros Hpat. unfold located.
  destruct (re_search pat js 0) as [[a m]|] eqn:Hs; [|discriminate].
  destruct (re_search_sound _ _ _ _ _ Hs) as (pre & rest & len & -> & Hr & -> & ->).
  destruct (Hpat _ _ Hr) as (mid & post & -> & Hk & ->).
  replace (0 + length pre + (length mid + 1) - 1) with (length (pre ++ mid))
    by (rewrite length_app; lia).
  replace (pre ++ mid ++ "[" :: post) with ((pre ++ mid) ++ "[" :: post)
    by (now rewrite <- app_assoc).
  rewrite find_char_here. intros [= <-].
  exists pre, mid, post. rewrite length_app, <- app_assoc. auto.
Qed.

Lemma re_search_some pat (s : text) : forall i pre rest,
  s = pre ++ rest -> pat rest <> None -> re_search pat s i <> None.
Proof.
  induction s as [|c s IH]; intros i pre rest Hs Hp; simpl.
  - destruct pre; [|discriminate]. simpl in Hs. subst rest.
    destruct (pat []); [discriminate | contradiction].
  - destruct (pat (c :: s)) as [len|] eqn:Hc; [discriminate|].
    destruct pre as [|c' pre]; simpl in Hs.
    + subst rest. contradiction.
    + inversion Hs; subst. eapply IH; eauto.
Qed.

(** A pattern that matches somewhere leads to a bracket. *)
Lemma located_some key pat js pre rest :
  (forall s len, pat s = Some len ->
     exists mid post,
       s = mid ++ "[" :: post /\ key_occurrence key mid /\ len = length mid + 1) ->
  js = pre ++ rest -> pat rest <> None ->
  exists b, located pat js = Some b.
Proof.
  intros Hpat Hjs Hp. unfold located.
  pose proof (re_search_some pat js 0 pre rest Hjs Hp) as Hs.
  destruct (re_search pat js 0) as [[a m]|] eqn:Hr; [|contradiction].
  destruct (re_search_sound _ _ _ _ _ Hr) as (pre' & rest' & len & -> & Hr' & -> & ->).
  destruct (Hpat _ _ Hr') as (mid & post & -> & _ & ->).
  replace (0 + length pre' + (length mid + 1) - 1) with (length (pre' ++ mid))
    by (rewrite length_app; lia).
  replace (pre' ++ mid ++ "[" :: post) with ((pre' ++ mid) ++ "[" :: post)
    by (now rewrite <- app_assoc).
  rewrite find_char_here. eauto.
Qed.


(** C4 as the code has it: the locator returns a span only when the text
    holds, from some offset on, the key (as it is, or between two quote
    characters of either kind), whitespace, a colon, whitespace and an
    opening square bracket; the span runs from that bracket to the one
    that matches it.  Nothing is asked of what stands before the key.
    When the text holds no such occurrence, the locator returns None;
    when it holds one, one of the two patterns leads to a bracket. *)
Theorem extract_array_by_key_occurrence :
  forall js key : text,
    (forall span,
        extract_array_by_key js key = Return (Some span) ->
        exists pre mid post e,
          js = pre ++ mid ++ "[" :: post /\ key_occurrence key mid /\
          find_matching_bracket js (length pre + length mid) = Return e /\
          span = slice js (length pre + length mid) (e + 1))
    /\ ((forall pre mid post,
            js = pre ++ mid ++ "[" :: post -> ~ key_occurrence key mid) ->
        extract_array_by_key js key = Return None)
    /\ (forall pre mid post,
           js = pre ++ mid ++ "[" :: post -> key_occurrence key mid ->
           exists b, located (bare_key_array key) js = Some b
                     \/ located (quoted_key_array key) js = Some b).
Proof.
  intros js key. unfold extract_array_by_key. split; [|split].
  - intros span. rewrite !for_patterns_cons. simpl for_patterns.
    assert (Hgo : forall pat b e,
               (forall s len, pat s = Some len ->
                  exists mid post,
                    s = mid ++ "[" :: post /\ key_occurrence key mid /\
                    len = length mid + 1) ->
               located pat js = Some b -> find_matching_bracket js b = Return e ->
               span = slice js b (e + 1) ->
               exists pre mid post e,
                 js = pre ++ mid ++ "[" :: post /\ key_occurrence key mid /\
                 find_matching_bracket js (length pre + length mid) = Return e /\
                 span = slice js (length pre + length mid) (e + 1)).
    { intros pat b e Hpat Hl He Hs.
      destruct (located_sound key pat js b Hpat Hl) as (pre & mid & post & Hjs & Hk & ->).
      exists pre, mid, post, e. auto. }
    destruct (located (bare_key_array key) js) as [b|] eqn:Hb.
    + destruct (find_matching_bracket js b) as [e|x] eqn:He.
      * intros [= <-]. eapply Hgo; eauto. apply bare_key_array_sound.
      * destruct (located (quoted_key_array key) js) as [b'|] eqn:Hb'; [|discriminate].
        destruct (find_matching_bracket js b') as [e'|x'] eqn:He'; [|discriminate].
        intros [= <-]. eapply Hgo; eauto. apply quoted_key_array_sound.
    + destruct (located (quoted_key_array key) js) as [b'|] eqn:Hb'; [|discriminate].
      destruct (find_matching_bracket js b') as [e'|x'] eqn:He'; [|discriminate].
      intros [= <-]. eapply Hgo; eauto. apply quoted_key_array_sound.
  - intros Hno.
    assert (Hnone : forall pat,
               (forall s len, pat s = Some len ->
                  exists mid post,
                    s = mid ++ "[" :: post /\ key_occurrence key mid /\
                    len = length mid + 1) ->
               located pat js = None).
    { intros pat Hpat. unfold located. rewrite re_search_none; [reflexivity|].
      intros pre rest ->. destruct (pat rest) as [len|] eqn:Hp; [|reflexivity].
      destruct (Hpat _ _ Hp) as (mid & post & -> & Hk & _).
      exfalso. exact (Hno pre mid post eq_refl Hk). }
    rewrite !for_patterns_cons.
    rewrite (Hnone _ (bare_key_array_sound key)).
    rewrite (Hnone _ (quoted_key_array_sound key)). reflexivity.
  - intros pre mid post Hjs Hk.
    destruct (key_patterns_complete key mid post Hk) as [Hp | Hp].
    + destruct (located_some key _ js pre _ (bare_key_array_sound key) Hjs Hp) as [b Hb].
      exists b. now left.
    + destruct (located_some key _ js pre _ (quoted_key_array_sound key) Hjs Hp) as [b Hb].
      exists b. now right.
Qed.

(** The claim fails: the key videos, asked of a text whose only binding
    is that of myvideos, is answered with the array bound to myvideos. *)
Lemma extract_array_by_key_suffix :
  extract_array_by_key (txt "myvideos: [1]") (txt "videos") = Return (Some (txt "[1]")).
Proof. vm_compute. reflexivity. Qed.

Lemma extract_array_by_key_occurrence_witness :
  (exists pre mid post e,
      txt "myvideos: [1]" = pre ++ mid ++ "[" :: post /\
      key_occurrence (txt "videos") mid /\
      find_matching_bracket (txt "myvideos: [1]") (length pre + length mid) = Return e /\
      txt "[1]" = slice (txt "myvideos: [1]") (length pre + length mid) (e + 1))
  /\ extract_array_by_key (txt "x = [1]") (txt "videos") = Return None.
Proof.
  split.
  - apply (proj1 (extract_array_by_key_occurrence (txt "myvideos: [1]") (txt "videos"))).
    vm_compute. reflexivity.
  - apply (proj1 (proj2 (extract_array_by_key_occurrence (txt "x = [1]") (txt "videos")))).
    intros pre mid post Hjs (ws1 & ws2 & _ & _ & Hmid).
    assert (Hin : In ":" (txt "x = [1]")).
    { rewrite Hjs. apply in_or_app. right. apply in_or_app. left.
      destruct Hmid as [-> | (q1 & q2 & _ & _ & ->)].
      - apply in_or_app. right. apply in_or_app. right. now left.
      - right. apply in_or_app. right. right. apply in_or_app. right. now left. }
    vm_compute in Hin. intuition discriminate.
Defined.

(** ** Locator: bracket errors *)





(** ** End to end *)

(** C1: in the scenario text the locator finds, for the key
    maydayEpisodes, the span from the opening square bracket to its
    match, and the parser turns that span (comment stripped, trailing
    comma removed, values requoted, keys quoted) into the list of the two
    mappings url x, title A and url y, title B, in that order. *)
Theorem end_to_end_episodes :
  extract_array_by_key episodes_text (txt "maydayEpisodes") = Return (Some episodes_span)
  /\ parse_js_array episodes_span
     = Return (JList [JDict [(txt "url", JStr (txt "x")); (txt "title", JStr (txt "A"))];
                      JDict [(txt "url", JStr (txt "y")); (txt "title", JStr (txt "B"))]]).
Proof. vm_compute. split; reflexivity. Qed.

(** The stages of the scenario, one by one. *)
Example episodes_stages :
  clean_js_array_to_json_array episodes_span
  = txt "[ {url:'x', title:" ++ DQ :: txt "A" ++ DQ :: txt "},  {url:'y', title:'B'}]"
  /\ requote_values (clean_js_array_to_json_array episodes_span)
     = txt "[ {url:" ++ DQ :: txt "x" ++ DQ :: txt ", title:" ++ DQ :: txt "A" ++ DQ
       :: txt "},  {url:" ++ DQ :: txt "y" ++ DQ :: txt ", title:" ++ DQ :: txt "B"
       ++ DQ :: txt "}]"
  /\ Json.loads (clean_js_array_to_json_array episodes_span)
     = Raise (JSONDecodeError ExpectingPropertyName)
  /\ Json.loads (requote_values (clean_js_array_to_json_array episodes_span))
     = Raise (JSONDecodeError ExpectingPropertyName).
Proof. vm_compute. repeat split. Qed.

(** The scenario of the ordered fallbacks: a bare key, a single-quoted
    value and a trailing comma. *)
Example joe_stages :
  parse_js_array (txt "{name: 'Joe', age: 5,}")
  = Return (JDict [(txt "name", JStr (txt "Joe")); (txt "age", JInt 5)]).
Proof. vm_compute. reflexivity. Qed.

(** * Further properties *)

(** ** Bracket matcher: the offset returned *)

Lemma body_continue_bottom o i ch st st' :
  stack_ok st -> bottom_is o st -> Match.body i ch st = Match.Continue st' ->
  bottom_is o st'.
Proof.
  intros [Hne Hall] [above Hb]. unfold Match.body, bottom_is.
  destruct (Match.escape st); [intros [= <-]; simpl; eauto|].
  destruct (ch =? BACKSLASH); [intros [= <-]; simpl; eauto|].
  destruct (Match.in_string st).
  { destruct (Match.same_char _ _); intros [= <-]; simpl; eauto. }
  destruct (is_quote ch); [intros [= <-]; simpl; eauto|].
  destruct (is_opener ch).
  { intros [= <-]; simpl. exists (ch :: above). now rewrite Hb. }
  destruct (is_closer ch); [|intros [= <-]; eauto].
  destruct (Match.stack st) as [|top below]; [discriminate|].
  destruct (_ || _); [discriminate|].
  destruct below as [|b below]; [discriminate|].
  intros [= <-]; simpl.
  destruct above as [|a above]; simpl in Hb; inversion Hb; subst; eauto.
Qed.

Lemma body_return o i ch st e :
  stack_ok st -> bottom_is o st -> Match.body i ch st = Match.Done (Return e) ->
  e = i /\ ch = closer_of o.
Proof.
  intros Hok [above Hb] H.
  destruct (body_done _ _ _ _ Hok H) as (He & Hs & Hc & top & below & Hst & Ht).
  rewrite (body_on_closer i ch st top below He Hs Hc Hst Ht) in H.
  destruct (ch =? closer_of top) eqn:Hch; [|discriminate].
  destruct below; [|discriminate].
  inversion H; subst. apply Ascii.eqb_eq in Hch.
  rewrite Hst in Hb. destruct above as [|a above]; simpl in Hb; inversion Hb; subst.
  - auto.
  - destruct above; discriminate.
Qed.

Lemma loop_return o rest : forall j st e,
  stack_ok st -> bottom_is o st -> Match.loop rest j st = Return e ->
  j <= e < j + length rest /\ nth_error rest (e - j) = Some (closer_of o).
Proof.
  induction rest as [|c rest IH]; intros j st e Hok Hb; simpl; [discriminate|].
  destruct (Match.body j c st) as [st1|r] eqn:Hbody.
  - intros H.
    destruct (IH (S j) st1 e (body_continue _ _ _ _ Hok Hbody)
                (body_continue_bottom _ _ _ _ _ Hok Hb Hbody) H) as [Hr Hn].
    split; [lia|]. replace (e - j) with (S (e - S j)) by lia. exact Hn.
  - intros ->. destruct (body_return _ _ _ _ _ Hok Hb Hbody) as [-> ->].
    split; [lia|]. now rewrite Nat.sub_diag.
Qed.

Lemma fmb_return s start e :
  find_matching_bracket s start = Return e ->
  exists opening,
    nth_error s start = Some opening /\ is_opener opening = true /\
    start < e < length s /\
    nth_error s e = Some (closer_of opening).
Proof.
  unfold find_matching_bracket.
  destruct (nth_error s start) as [opening|] eqn:Hn; [|discriminate].
  destruct (is_opener opening) eqn:Ho; cbn [negb]; [|discriminate].
  intros H. exists opening. split; [reflexivity|]. split; [exact Ho|].
  assert (Hb : bottom_is opening (Match.init opening)) by (now exists []).
  destruct (loop_return opening _ _ _ _ (init_stack_ok _ Ho) Hb H) as [Hr Hc].
  rewrite length_skipn in Hr. rewrite nth_error_skipn in Hc.
  assert (Hs : start < length s) by (apply nth_error_Some; congruence).
  replace (S start + (e - S start)) with e in Hc by lia.
  split; [lia | exact Hc].
Qed.

(** The offset the bracket matcher returns lies after the start, inside
    the text, and holds the closing bracket of the kind of the bracket at
    the start. *)
Theorem find_matching_bracket_returns_closer :
  forall (s : text) (start_index e : nat),
    find_matching_bracket s start_index = Return e ->
    exists opening,
      nth_error s start_index = Some opening /\ is_opener opening = true /\
      start_index < e < length s /\
      nth_error s e = Some (closer_of opening).
Proof.
  intros s start_index e H.
  destruct (fmb_return s start_index e H) as (opening & Hn & Ho & Hr & Hc).
  exists opening. repeat split; try assumption; lia.
Qed.

Lemma find_matching_bracket_returns_closer_witness :
  exists opening,
    nth_error (txt "x[1,{2}]y") 1 = Some opening /\ is_opener opening = true /\
    1 < 7 < length (txt "x[1,{2}]y") /\
    nth_error (txt "x[1,{2}]y") 7 = Some (closer_of opening).
Proof.
  apply (find_matching_bracket_returns_closer (txt "x[1,{2}]y") 1 7).
  vm_compute. reflexivity.
Defined.

(** ** Bracket matcher: only the text up to the match counts *)

Lemma body_return_index i ch st e :
  Match.body i ch st = Match.Done (Return e) -> e = i.
Proof.
  unfold Match.body.
  repeat match goal with
         | |- (if ?b then _ else _) = _ -> _ => destruct b
         | |- match ?l with [] => _ | _ :: _ => _ end = _ -> _ => destruct l
         end; intros H; try discriminate; now inversion H.
Qed.

Lemma loop_return_ge rest : forall j st e,
  Match.loop rest j st = Return e -> j <= e.
Proof.
  induction rest as [|c rest IH]; intros j st e; simpl; [discriminate|].
  destruct (Match.body j c st) as [st1|r] eqn:Hbody.
  - intros H. apply IH in H. lia.
  - intros ->. apply body_return_index in Hbody. lia.
Qed.

Lemma loop_extends rest : forall j st e t,
  Match.loop rest j st = Return e ->
  Match.loop (firstn (S (e - j)) rest ++ t) j st = Return e.
Proof.
  induction rest as [|c rest IH]; intros j st e t; simpl; [discriminate|].
  destruct (Match.body j c st) as [st1|r] eqn:Hbody.
  - intros H. pose proof (loop_return_ge _ _ _ _ H) as He.
    replace (e - j) with (S (e - S j)) by lia.
    apply (IH (S j) st1 e t H).
  - intros ->. reflexivity.
Qed.

Lemma skipn_firstn_app {A : Type} (s t : list A) (a b : nat) :
  a <= b -> b <= length s ->
  skipn a (firstn b s ++ t) = firstn (b - a) (skipn a s) ++ t.
Proof.
  intros Hab Hb. rewrite skipn_app, length_firstn, Nat.min_l by lia.
  replace (a - b) with 0 by lia. simpl. f_equal.
  apply skipn_firstn_comm.
Qed.

Lemma fmb_extends (s t : text) (start e : nat) :
  find_matching_bracket s start = Return e ->
  find_matching_bracket (firstn (S e) s ++ t) start = Return e.
Proof.
  intros H.
  destruct (fmb_return s start e H) as (o & _ & _ & Hlt & _).
  revert H. unfold find_matching_bracket.
  destruct (nth_error s start) as [opening|] eqn:Hn; [|discriminate].
  rewrite nth_error_app1 by (rewrite length_firstn; lia).
  rewrite nth_error_firstn.
  replace (start <? S e)%nat with true by (symmetry; apply Nat.ltb_lt; lia).
  rewrite Hn.
  destruct (is_opener opening); cbn [negb]; [|discriminate].
  intros H. rewrite skipn_firstn_app by lia.
  replace (S e - S start) with (S (e - S start)) by lia.
  apply loop_extends. exact H.
Qed.

(** What stands after the matching bracket has no say: the matcher
    returns the same offset when the text after that bracket is replaced
    by any other. *)
Theorem find_matching_bracket_extends :
  forall (s t : text) (start_index e : nat),
    find_matching_bracket s start_index = Return e ->
    find_matching_bracket (firstn (S e) s ++ t) start_index = Return e.
Proof.
  intros s t start_index e H.
  destruct (fmb_return s start_index e H) as (o & Hn & Ho & Hr & Hc).
  apply fmb_extends. exact H.
Qed.

Lemma find_matching_bracket_extends_witness :
  find_matching_bracket (firstn 8 (txt "x[1,{2}]y") ++ txt "]]") 1 = Return 7.
Proof.
  apply (find_matching_bracket_extends (txt "x[1,{2}]y") (txt "]]") 1 7).
  vm_compute. reflexivity.
Defined.

(** ** Bracket matcher: well-nested text *)

Lemma is_plain_cases ch :
  is_plain ch = true ->
  is_quote ch = false /\ is_opener ch = false /\ is_closer ch = false /\
  (ch =? BACKSLASH) = false.
Proof.
  unfold is_plain. rewrite negb_true_iff, !orb_false_iff. tauto.
Qed.

(** Inside a string, characters other than its quote and the backslash
    leave the scan as it is. *)
Lemma loop_string_body q stk body : forall rest j,
  Forall (fun c => (c =? q) || (c =? BACKSLASH) = false) body ->
  Match.loop (body ++ rest) j (Match.mk true (Some q) false stk)
  = Match.loop rest (j + length body) (Match.mk true (Some q) false stk).
Proof.
  induction body as [|c body IH]; intros rest j Hb; simpl.
  - now rewrite Nat.add_0_r.
  - inversion Hb as [|? ? Hc Hb']; subst. apply orb_false_iff in Hc.
    destruct Hc as [Hq Hbs]. unfold Match.body. simpl. rewrite Hbs, Hq.
    rewrite IH by assumption. f_equal. lia.
Qed.

(** The scan passes over a well-nested text and is then in the state it
    was in before. *)
Lemma loop_nested b :
  nested b ->
  forall rest j stk,
    stk <> [] ->
    Match.loop (b ++ rest) j (Match.mk false None false stk)
    = Match.loop rest (j + length b) (Match.mk false None false stk).
Proof.
  induction 1 as [|ch t Hp _ IH|q body t Hq Hbody _ IH|o b t Ho _ IHb _ IHt];
    intros rest j stk Hstk.
  - simpl. now rewrite Nat.add_0_r.
  - destruct (is_plain_cases ch Hp) as (H1 & H2 & H3 & H4).
    simpl. unfold Match.body. simpl. rewrite H1, H2, H3, H4.
    rewrite IH by assumption. f_equal. lia.
  - assert (Hqb : (q =? BACKSLASH) = false).
    { unfold is_quote in Hq. apply orb_true_iff in Hq.
      destruct Hq as [Hq | Hq]; apply Ascii.eqb_eq in Hq; subst; reflexivity. }
    cbn [app Match.loop]. unfold Match.body at 1. simpl. rewrite Hqb, Hq.
    rewrite <- app_assoc. rewrite loop_string_body by assumption.
    cbn [app Match.loop]. unfold Match.body at 1. simpl.
    rewrite Hqb, Ascii.eqb_refl.
    rewrite IH by assumption. f_equal. simpl. rewrite length_app. simpl. lia.
  - assert (Hob : (o =? BACKSLASH) = false /\ is_quote o = false).
    { apply is_opener_cases in Ho. destruct Ho as [-> | ->]; split; reflexivity. }
    destruct Hob as [Hob Hoq].
    cbn [app Match.loop]. unfold Match.body at 1. simpl. rewrite Hob, Hoq, Ho.
    rewrite <- app_assoc. rewrite IHb by discriminate.
    cbn [app Match.loop].
    rewrite (body_on_closer _ (closer_of o) _ o stk); try reflexivity; try assumption.
    + rewrite Ascii.eqb_refl. destruct stk as [|x stk]; [contradiction|].
      simpl. rewrite IHt by assumption. f_equal. rewrite length_app. simpl. lia.
    + apply is_closer_cases. apply is_opener_cases in Ho.
      destruct Ho as [-> | ->]; [left | right]; reflexivity.
Qed.

Lemma fmb_nested (pre b post : text) (o : ascii) :
  is_opener o = true -> nested b ->
  find_matching_bracket (pre ++ o :: b ++ closer_of o :: post) (length pre)
  = Return (length pre + S (length b)).
Proof.
  intros Ho Hb. unfold find_matching_bracket.
  assert (Hn : nth_error (pre ++ o :: b ++ closer_of o :: post) (length pre) = Some o).
  { rewrite nth_error_app2 by lia. now rewrite Nat.sub_diag. }
  rewrite Hn, Ho. cbn [negb].
  replace (skipn (S (length pre)) (pre ++ o :: b ++ closer_of o :: post))
    with (b ++ closer_of o :: post).
  2:{ change (S (length pre)) with (1 + length pre).
      rewrite <- skipn_skipn, skipn_app, Nat.sub_diag, skipn_all. reflexivity. }
  unfold Match.init. rewrite (loop_nested b Hb) by discriminate.
  cbn [Match.loop].
  rewrite (body_on_closer _ (closer_of o) _ o []); try reflexivity; try assumption.
  - rewrite Ascii.eqb_refl. f_equal. lia.
  - apply is_closer_cases. apply is_opener_cases in Ho.
    destruct Ho as [-> | ->]; [left | right]; reflexivity.
Qed.

(** On a bracket that encloses a well-nested text (plain characters,
    strings without backslash, well-nested brackets) the matcher returns
    the offset of the bracket that closes it, whatever stands before and
    after. *)
Theorem find_matching_bracket_nested :
  forall (pre b post : text) (o : ascii),
    is_opener o = true -> nested b ->
    find_matching_bracket (pre ++ o :: b ++ closer_of o :: post) (length pre)
    = Return (length pre + S (length b)).
Proof.
  intros pre b post o Ho Hb.
  assert (Hc : is_closer (closer_of o) = true).
  { apply is_closer_cases. apply is_opener_cases in Ho.
    destruct Ho as [-> | ->]; [left | right]; reflexivity. }
  now apply fmb_nested.
Qed.

Lemma find_matching_bracket_nested_witness :
  find_matching_bracket (txt "k: " ++ "[" :: txt "{'a]'}" ++ closer_of "[" :: txt ";")
    (length (txt "k: "))
  = Return (length (txt "k: ") + S (length (txt "{'a]'}"))).
Proof.
  apply (find_matching_bracket_nested (txt "k: ") (txt "{'a]'}") (txt ";") "[").
  - reflexivity.
  - apply (nested_bracket "{" (txt "'a]'") []); [reflexivity| |constructor].
    apply (nested_string "'" (txt "a]") []); [reflexivity| |constructor].
    repeat constructor.
Defined.

(** ** Comment stripper: stripping twice *)

Lemma opener_in_code_snoc out : forall cu ch,
  opener_in_code cu (out ++ [ch])
  = opener_in_code cu out
    || (slash_pending cu out && ((ch =? "/") || (ch =? "*"))).
Proof.
  induction out as [|c rest IH]; intros cu ch.
  - simpl. now rewrite andb_false_r.
  - destruct rest as [|c' r].
    + simpl. rewrite !andb_false_r, !orb_false_r. reflexivity.
    + change ((c :: c' :: r) ++ [ch]) with (c :: (c' :: r) ++ [ch]).
      cbn [opener_in_code slash_pending]. rewrite (IH (cursor_step cu c) ch).
      cbn [app]. now rewrite orb_assoc.
Qed.

Lemma slash_pending_snoc out : forall cu ch,
  slash_pending cu (out ++ [ch])
  = in_code (fold_left cursor_step out cu) && (ch =? "/").
Proof.
  induction out as [|c rest IH]; intros cu ch; [reflexivity|].
  change ((c :: rest) ++ [ch]) with (c :: rest ++ [ch]).
  cbn [slash_pending fold_left]. rewrite <- IH.
  destruct rest; reflexivity.
Qed.

(** A slash in bare code is pending only in bare code. *)
Lemma slash_pending_in_code out : forall cu,
  slash_pending cu out = true -> in_code (fold_left cursor_step out cu) = true.
Proof.
  induction out as [|c rest IH]; intros cu; [discriminate|].
  destruct rest as [|c' r].
  - simpl. intros H. apply andb_true_iff in H. destruct H as [Hc Hs].
    apply Ascii.eqb_eq in Hs. subst c.
    unfold in_code in Hc. apply andb_true_iff in Hc. destruct Hc as [H1 H2].
    apply negb_true_iff in H1, H2. unfold cursor_step. rewrite H1, H2. simpl.
    unfold in_code. now rewrite H1, H2.
  - cbn [slash_pending fold_left]. apply IH.
Qed.

(** Keeping the character at the current offset, with the flags the
    cursor takes on it. *)
Lemma kept_clean_keep s st ch f1 f2 f3 :
  kept_clean s st ->
  nth_error s (Strip.pos st) = Some ch ->
  (let cu := cursor_step (fold_left cursor_step (Strip.result_chars st) cursor_init) ch in
   f1 = c_in_string cu /\ f2 = c_string_char cu /\ f3 = c_escape cu) ->
  (Strip.in_string st = false -> Strip.escape st = false -> ch = "/" ->
   forall x, nth_error s (S (Strip.pos st)) = Some x ->
             (x =? "/") || (x =? "*") = false) ->
  kept_clean s (Strip.keep st ch f1 f2 f3).
Proof.
  intros (Hf & Ho & Hp) Hn Hcu Hnext. unfold kept_clean, Strip.keep. simpl.
  rewrite fold_left_app. simpl. split; [exact Hcu|]. split.
  - rewrite opener_in_code_snoc, Ho. simpl.
    destruct (slash_pending cursor_init (Strip.result_chars st)) eqn:Hs; [|reflexivity].
    simpl. exact (Hp eq_refl ch Hn).
  - rewrite slash_pending_snoc. intros H. apply andb_true_iff in H.
    destruct H as [Hc Hs]. apply Ascii.eqb_eq in Hs.
    destruct Hf as (H1 & _ & H3).
    unfold in_code in Hc. apply andb_true_iff in Hc. destruct Hc as [Hc1 Hc2].
    apply negb_true_iff in Hc1, Hc2.
    apply Hnext; congruence.
Qed.

Lemma kept_clean_step s st : kept_clean s st -> kept_clean s (Strip.step s st).
Proof.
  intros Hk. unfold Strip.step.
  destruct (nth_error s (Strip.pos st)) as [ch|] eqn:Hn; [|exact Hk].
  pose proof Hk as (Hf & Ho & Hp). destruct Hf as (H1 & H2 & H3).
  set (cu := fold_left cursor_step (Strip.result_chars st) cursor_init) in *.
  destruct (Strip.escape st) eqn:He.
  { apply kept_clean_keep; try assumption.
    - fold cu. unfold cursor_step. rewrite <- H3. simpl. auto.
    - intros; congruence. }
  destruct (Strip.in_string st) eqn:Hs.
  { destruct (ch =? BACKSLASH) eqn:Hb.
    { apply kept_clean_keep; try assumption.
      - fold cu. unfold cursor_step. rewrite <- H3, <- H1, Hb. simpl. auto.
      - intros; congruence. }
    destruct (Match.same_char ch (Strip.string_char st)) eqn:Hq.
    { apply kept_clean_keep; try assumption.
      - fold cu. unfold cursor_step. rewrite <- H3, <- H1, Hb, <- H2, Hq. simpl. auto.
      - intros; congruence. }
    apply kept_clean_keep; try assumption.
    - fold cu. unfold cursor_step. rewrite <- H3, <- H1, Hb, <- H2, Hq. auto.
    - intros; congruence. }
  destruct (is_quote ch) eqn:Hq.
  { apply kept_clean_keep; try assumption.
    - fold cu. unfold cursor_step. rewrite <- H3, <- H1, Hq. simpl. auto.
    - intros _ _ ->; discriminate. }
  assert (Hjump : forall i, ch = "/" -> kept_clean s (Strip.jump st i)).
  { intros i ->. unfold kept_clean, Strip.jump. simpl. fold cu.
    split; [unfold flags_of; simpl; rewrite Hs, He; auto|]. split; [exact Ho|].
    intros Hsp. specialize (Hp Hsp "/" Hn). discriminate. }
  destruct (ch =? "/") eqn:Hsl.
  - apply Ascii.eqb_eq in Hsl. simpl.
    destruct (Strip.next_is s (Strip.pos st) "/") eqn:Hn1; [now apply Hjump|].
    destruct (Strip.next_is s (Strip.pos st) "*") eqn:Hn2; [now apply Hjump|].
    apply kept_clean_keep; try assumption.
    + fold cu. unfold cursor_step. rewrite <- H3, <- H1, Hq. auto.
    + intros _ _ _ x Hx. unfold Strip.next_is in Hn1, Hn2. rewrite Hx in Hn1, Hn2.
      now rewrite Hn1, Hn2.
  - simpl. apply kept_clean_keep; try assumption.
    + fold cu. unfold cursor_step. rewrite <- H3, <- H1, Hq. auto.
    + intros _ _ ->. discriminate.
Qed.

Lemma kept_clean_run s k : kept_clean s (Strip.run s k).
Proof.
  induction k as [|k IH].
  - unfold kept_clean, flags_of. simpl. repeat split; discriminate.
  - rewrite run_S. now apply kept_clean_step.
Qed.

(** Stripping an already stripped text changes nothing. *)
Theorem remove_js_comments_idempotent :
  forall source : text,
    remove_js_comments (remove_js_comments source) = remove_js_comments source.
Proof.
  intros source.
  assert (Ho : opener_in_code cursor_init (remove_js_comments source) = false).
  { unfold remove_js_comments.
    exact (proj1 (proj2 (kept_clean_run source (length source)))). }
  unfold remove_js_comments at 1.
  rewrite (run_copies _ Ho _ (le_n _)). simpl. apply firstn_all.
Qed.

(** ** Comment stripper: a comment in bare code is removed *)

Lemma skip_line_shift rest : forall k i,
  Strip.skip_line rest (k + i) = k + Strip.skip_line rest i.
Proof.
  induction rest as [|c rest IH]; intros k i; simpl; [reflexivity|].
  destruct (Strip.is_eol c); [reflexivity|].
  rewrite <- IH. f_equal. lia.
Qed.

Lemma skip_block_shift rest : forall k i,
  Strip.skip_block rest (k + i) = k + Strip.skip_block rest i.
Proof.
  induction rest as [|c rest IH]; intros k i; simpl; [reflexivity|].
  destruct rest as [|c' rest]; [reflexivity|].
  destruct ((c =? "*") && (c' =? "/")); [reflexivity|].
  rewrite <- IH. f_equal. lia.
Qed.

Lemma skipn_shift (a b : text) (i : nat) :
  skipn (length a + i) (a ++ b) = skipn i b.
Proof.
  rewrite Nat.add_comm, <- skipn_skipn, skipn_app, Nat.sub_diag, skipn_all.
  reflexivity.
Qed.

Lemma nth_error_shift (a b : text) (i : nat) :
  nth_error (a ++ b) (length a + i) = nth_error b i.
Proof.
  rewrite nth_error_app2 by lia. f_equal. lia.
Qed.

Lemma keep_shift a acc0 st ch f1 f2 f3 :
  Strip.keep (shift a acc0 st) ch f1 f2 f3
  = shift a acc0 (Strip.keep st ch f1 f2 f3).
Proof.
  unfold Strip.keep, shift. simpl. rewrite app_assoc. f_equal. lia.
Qed.

Lemma next_is_shift a b i x :
  Strip.next_is (a ++ b) (length a + i) x = Strip.next_is b i x.
Proof.
  unfold Strip.next_is.
  replace (S (length a + i)) with (length a + S i) by lia.
  now rewrite nth_error_shift.
Qed.

(** The stripper on [a ++ b], once past [a], does what it does on [b]. *)
Lemma step_shift a b acc0 st :
  Strip.step (a ++ b) (shift a acc0 st) = shift a acc0 (Strip.step b st).
Proof.
  unfold Strip.step.
  change (Strip.pos (shift a acc0 st)) with (length a + Strip.pos st).
  change (Strip.escape (shift a acc0 st)) with (Strip.escape st).
  change (Strip.in_string (shift a acc0 st)) with (Strip.in_string st).
  change (Strip.string_char (shift a acc0 st)) with (Strip.string_char st).
  rewrite nth_error_shift.
  destruct (nth_error b (Strip.pos st)) as [ch|]; [|reflexivity].
  rewrite !next_is_shift.
  replace (length a + Strip.pos st + 2) with (length a + (Strip.pos st + 2)) by lia.
  rewrite skipn_shift, skip_line_shift, skip_block_shift.
  destruct (Strip.escape st); [apply keep_shift|].
  destruct (Strip.in_string st).
  { destruct (ch =? BACKSLASH); [apply keep_shift|].
    destruct (Match.same_char ch (Strip.string_char st)); apply keep_shift. }
  destruct (is_quote ch); [apply keep_shift|].
  destruct ((ch =? "/") && Strip.next_is b (Strip.pos st) "/"); [reflexivity|].
  destruct ((ch =? "/") && Strip.next_is b (Strip.pos st) "*"); [|apply keep_shift].
  unfold Strip.jump, shift. simpl. f_equal. rewrite length_app.
  set (j := Strip.skip_block (skipn (Strip.pos st + 2) b) (Strip.pos st + 2)).
  destruct (S j <? length b)%nat eqn:Hj.
  - apply Nat.ltb_lt in Hj.
    replace (S (length a + j) <? length a + length b)%nat with true
      by (symmetry; apply Nat.ltb_lt; lia). lia.
  - apply Nat.ltb_ge in Hj.
    replace (S (length a + j) <? length a + length b)%nat with false
      by (symmetry; apply Nat.ltb_ge; lia). reflexivity.
Qed.

Lemma iter_shift a b acc0 k : forall st,
  Nat.iter k (Strip.step (a ++ b)) (shift a acc0 st)
  = shift a acc0 (Nat.iter k (Strip.step b) st).
Proof.
  induction k as [|k IH]; intros st; simpl; [reflexivity|].
  now rewrite IH, step_shift.
Qed.

Lemma run_add s k m :
  Strip.run s (k + m) = Nat.iter m (Strip.step s) (Strip.run s k).
Proof.
  induction m as [|m IH]; [now rewrite Nat.add_0_r|].
  rewrite Nat.add_succ_r, run_S, IH. reflexivity.
Qed.

(** When the scan of [a ++ b] stands at the end of [a] in bare code,
    having kept [pre], the result is [pre] and what is kept of [b]. *)
Lemma run_resumes a b pre k :
  k <= length a ->
  Strip.run (a ++ b) k = shift a pre Strip.init ->
  remove_js_comments (a ++ b) = pre ++ remove_js_comments b.
Proof.
  intros Hk Hr. unfold remove_js_comments.
  replace (length (a ++ b)) with (k + (length b + (length a - k)))
    by (rewrite length_app; lia).
  rewrite run_add, Hr, iter_shift. fold (Strip.run b (length b + (length a - k))).
  rewrite (proj2 (strip_loop_exits b)). reflexivity.
Qed.

(** Outside a string the cursor remembers no quote. *)
Lemma cursor_no_quote out : forall cu,
  (c_in_string cu = false -> c_string_char cu = None) ->
  c_in_string (fold_left cursor_step out cu) = false ->
  c_string_char (fold_left cursor_step out cu) = None.
Proof.
  induction out as [|c out IH]; intros cu Hcu; simpl; [exact Hcu|].
  apply IH. unfold cursor_step. destruct cu as [ins sc esc]. simpl in *.
  destruct esc; [exact Hcu|].
  destruct ins.
  - destruct (c =? BACKSLASH); [simpl; discriminate|].
    destruct (Match.same_char c sc); [reflexivity | simpl; discriminate].
  - destruct (is_quote c); [simpl; discriminate | exact Hcu].
Qed.

(** The scan copies a prefix that holds no comment opener in bare code. *)
Lemma run_copies_upto s m :
  (forall k ch, k < m -> nth_error s k = Some ch ->
                in_code (cursor_at s k) = true ->
                (ch =? "/") && Strip.next_is s k "/" = false /\
                (ch =? "/") && Strip.next_is s k "*" = false) ->
  forall k, k <= m -> k <= length s ->
    Strip.run s k =
    Strip.mk k (c_in_string (cursor_at s k)) (c_string_char (cursor_at s k))
      (c_escape (cursor_at s k)) (firstn k s).
Proof.
  intros Ho. induction k as [|k IH]; intros Hm Hk; [reflexivity|].
  rewrite run_S, IH by lia.
  destruct (nth_error s k) as [ch|] eqn:Hn.
  2:{ apply nth_error_None in Hn. lia. }
  rewrite (cursor_at_S _ _ _ Hn), (firstn_snoc _ _ _ Hn).
  pose proof (Ho k ch Hm Hn) as Hno.
  destruct (cursor_at s k) as [ins sc esc].
  unfold Strip.step, Strip.keep, cursor_step, in_code in *. simpl in *. rewrite Hn.
  destruct esc; [reflexivity|].
  destruct ins.
  { destruct (ch =? BACKSLASH); [reflexivity|].
    destruct (Match.same_char ch sc); reflexivity. }
  destruct (is_quote ch); [reflexivity|].
  destruct (Hno eq_refl) as [H1 H2]. rewrite H1, H2. reflexivity.
Qed.

(** The state at the end of a prefix in bare code that holds no comment
    opener and is followed by a slash. *)
Lemma run_prefix pre rest :
  opener_in_code cursor_init (pre ++ ["/"]) = false ->
  in_code (cursor_at pre (length pre)) = true ->
  Strip.run (pre ++ "/" :: rest) (length pre)
  = Strip.mk (length pre) false None false pre.
Proof.
  intros Ho Hc. set (s := pre ++ "/" :: rest).
  assert (Hs : s = (pre ++ ["/"]) ++ rest) by (unfold s; now rewrite <- app_assoc).
  assert (Hfirst : forall k, k <= length pre -> firstn k s = firstn k pre).
  { intros k Hk. unfold s. rewrite firstn_app.
    replace (k - length pre) with 0 by lia. simpl. now rewrite app_nil_r. }
  assert (Hfirst' : forall k, k <= length pre -> firstn k (pre ++ ["/"]) = firstn k pre).
  { intros k Hk. rewrite firstn_app.
    replace (k - length pre) with 0 by lia. simpl. now rewrite app_nil_r. }
  rewrite (run_copies_upto s (length pre)).
  - unfold cursor_at. rewrite Hfirst by lia.
    unfold cursor_at in Hc. rewrite firstn_all in Hc. rewrite firstn_all.
    unfold in_code in Hc. apply andb_true_iff in Hc. destruct Hc as [H1 H2].
    apply negb_true_iff in H1, H2. rewrite H1, H2.
    rewrite (cursor_no_quote pre cursor_init (fun _ => eq_refl) H1). reflexivity.
  - intros k ch Hk Hn Hcode.
    assert (Hlen : length (pre ++ ["/"]) = S (length pre))
      by (rewrite length_app; simpl; lia).
    assert (Hn' : nth_error (pre ++ ["/"]) k = Some ch).
    { rewrite Hs in Hn. rewrite nth_error_app1 in Hn by lia. exact Hn. }
    assert (Hcode' : in_code (fold_left cursor_step (firstn k (pre ++ ["/"])) cursor_init)
                     = true).
    { unfold cursor_at in Hcode. rewrite Hfirst in Hcode by lia.
      now rewrite Hfirst' by lia. }
    destruct (no_opener_at _ cursor_init k ch Ho Hn' Hcode') as [H1 H2].
    assert (Hnext : forall x, Strip.next_is s k x = Strip.next_is (pre ++ ["/"]) k x).
    { intros x. unfold Strip.next_is. rewrite Hs. now rewrite nth_error_app1 by lia. }
    now rewrite !Hnext.
  - lia.
  - unfold s. rewrite length_app. lia.
Qed.

Lemma skip_block_cons c c' r i :
  Strip.skip_block (c :: c' :: r) i
  = if (c =? "*") && (c' =? "/") then i else Strip.skip_block (c' :: r) (S i).
Proof. reflexivity. Qed.

Lemma skip_block_body body rest : forall i,
  has_block_end body = false ->
  Strip.skip_block (body ++ "*" :: "/" :: rest) i = i + length body.
Proof.
  induction body as [|c body IH]; intros i Hb.
  - simpl. lia.
  - destruct body as [|c' body'].
    + change (([c]) ++ "*" :: "/" :: rest) with (c :: "*" :: "/" :: rest).
      rewrite skip_block_cons, andb_false_r. simpl. lia.
    + cbn [has_block_end] in Hb. apply orb_false_iff in Hb. destruct Hb as [H1 H2].
      change ((c :: c' :: body') ++ "*" :: "/" :: rest)
        with (c :: c' :: body' ++ "*" :: "/" :: rest).
      rewrite skip_block_cons, H1.
      change (c' :: body' ++ "*" :: "/" :: rest)
        with ((c' :: body') ++ "*" :: "/" :: rest).
      rewrite IH by exact H2. simpl. lia.
Qed.

Lemma skip_line_body body rest : forall i,
  Forall (fun c => Strip.is_eol c = false) body ->
  match rest with [] => True | c :: _ => Strip.is_eol c = true end ->
  Strip.skip_line (body ++ rest) i = i + length body.
Proof.
  induction body as [|c body IH]; intros i Hb Hr.
  - simpl. destruct rest as [|c rest]; simpl; [lia|]. rewrite Hr. lia.
  - inversion Hb as [|? ? Hc Hb']; subst. simpl. rewrite Hc.
    rewrite IH by assumption. lia.
Qed.

(** A block comment that stands in bare code and is closed is removed,
    with its opener and its closer: what stands before it (with no
    comment opener of its own, and no slash right before the comment) is
    kept as it is, and the scan goes on after the closer as on a text of
    its own. *)
Theorem remove_js_comments_block_comment :
  forall pre body rest : text,
    opener_in_code cursor_init (pre ++ ["/"]) = false ->
    in_code (cursor_at pre (length pre)) = true ->
    has_block_end body = false ->
    remove_js_comments (pre ++ txt "/*" ++ body ++ txt "*/" ++ rest)
    = pre ++ remove_js_comments rest.
Proof.
  intros pre body rest Ho Hc Hb.
  change (txt "/*") with ["/"; "*"]. change (txt "*/") with ["*"; "/"].
  cbn [app].
  set (a := pre ++ "/" :: "*" :: body ++ ["*"; "/"]).
  assert (Ha : pre ++ "/" :: "*" :: body ++ "*" :: "/" :: rest = a ++ rest).
  { unfold a. rewrite <- app_assoc. cbn [app]. do 3 f_equal.
    rewrite <- app_assoc. reflexivity. }
  assert (Hlen : length a = length pre + length body + 4).
  { unfold a. len_solve. }
  assert (Hrun : Strip.run (a ++ rest) (S (length pre)) = shift a pre Strip.init).
  { rewrite run_S, <- Ha, (run_prefix pre _ Ho Hc).
    unfold Strip.step. cbn [Strip.pos Strip.escape Strip.in_string].
    rewrite nth_error_app2, Nat.sub_diag by lia. cbn [nth_error].
    unfold Strip.next_is.
    replace (S (length pre)) with (length pre + 1) by lia.
    rewrite nth_error_app2 by lia.
    replace (length pre + 1 - length pre) with 1 by lia. cbn [nth_error].
    change (is_quote "/") with false. change ("/" =? "/") with true.
    change ("*" =? "/") with false. change ("*" =? "*") with true. cbn [andb].
    replace (skipn (length pre + 2) (pre ++ "/" :: "*" :: body ++ "*" :: "/" :: rest))
      with (body ++ "*" :: "/" :: rest)
      by (now rewrite (skipn_shift pre _ 2)).
    rewrite (skip_block_body body rest _ Hb).
    rewrite length_app. cbn [length]. rewrite length_app. cbn [length].
    replace (S (length pre + 2 + length body)
             <? length pre + S (S (length body + S (S (length rest)))))%nat
      with true by (symmetry; apply Nat.ltb_lt; lia).
    unfold Strip.jump, shift, Strip.init. simpl. rewrite app_nil_r. f_equal. lia. }
  rewrite Ha. apply (run_resumes a rest pre (S (length pre))); [lia | exact Hrun].
Qed.

Lemma remove_js_comments_block_comment_witness :
  remove_js_comments (txt "a = 1; " ++ txt "/*" ++ txt " n*te " ++ txt "*/" ++ txt " b")
  = txt "a = 1; " ++ remove_js_comments (txt " b").
Proof.
  apply (remove_js_comments_block_comment (txt "a = 1; ") (txt " n*te ") (txt " b"));
    vm_compute; reflexivity.
Defined.

(** A line comment that stands in bare code is removed up to the end of
    its line: what stands before it is kept as it is, and the scan goes on
    at the line terminator, which is kept, or ends with the text. *)
Theorem remove_js_comments_line_comment :
  forall pre body rest : text,
    opener_in_code cursor_init (pre ++ ["/"]) = false ->
    in_code (cursor_at pre (length pre)) = true ->
    Forall (fun c => Strip.is_eol c = false) body ->
    match rest with [] => True | c :: _ => Strip.is_eol c = true end ->
    remove_js_comments (pre ++ txt "//" ++ body ++ rest)
    = pre ++ remove_js_comments rest.
Proof.
  intros pre body rest Ho Hc Hb Hr.
  change (txt "//") with ["/"; "/"]. cbn [app].
  set (a := pre ++ "/" :: "/" :: body).
  assert (Ha : pre ++ "/" :: "/" :: body ++ rest = a ++ rest).
  { unfold a. rewrite <- app_assoc. reflexivity. }
  assert (Hlen : length a = length pre + length body + 2).
  { unfold a. len_solve. }
  assert (Hrun : Strip.run (a ++ rest) (S (length pre)) = shift a pre Strip.init).
  { rewrite run_S, <- Ha, (run_prefix pre _ Ho Hc).
    unfold Strip.step. cbn [Strip.pos Strip.escape Strip.in_string].
    rewrite nth_error_app2, Nat.sub_diag by lia. cbn [nth_error].
    unfold Strip.next_is.
    replace (S (length pre)) with (length pre + 1) by lia.
    rewrite nth_error_app2 by lia.
    replace (length pre + 1 - length pre) with 1 by lia. cbn [nth_error].
    change (is_quote "/") with false. change ("/" =? "/") with true. cbn [andb].
    replace (skipn (length pre + 2) (pre ++ "/" :: "/" :: body ++ rest))
      with (body ++ rest)
      by (now rewrite (skipn_shift pre _ 2)).
    rewrite (skip_line_body body rest _ Hb Hr).
    unfold Strip.jump, shift, Strip.init. simpl. rewrite app_nil_r. f_equal. lia. }
  rewrite Ha. apply (run_resumes a rest pre (S (length pre))); [lia | exact Hrun].
Qed.

Lemma remove_js_comments_line_comment_witness :
  remove_js_comments (txt "x = '//'; " ++ txt "//" ++ txt " c" ++ LF :: txt "y")
  = txt "x = '//'; " ++ remove_js_comments (LF :: txt "y").
Proof.
  apply (remove_js_comments_line_comment (txt "x = '//'; ") (txt " c") (LF :: txt "y")).
  - vm_compute. reflexivity.
  - vm_compute. reflexivity.
  - repeat constructor.
  - reflexivity.
Defined.

(** ** Trailing commas: what is deleted *)





(** ** Key quoting: what is changed *)





(** ** Key quoting: every identifier before a colon *)

Lemma ident_start_props c :
  is_ident_start c = true ->
  is_space c = false /\ (c =? ":") = false /\ is_ident_char c = true.
Proof.
  destruct c as [[] [] [] [] [] [] [] []]; vm_compute; intros H;
    try discriminate; repeat split.
Qed.

Lemma ident_char_word c : is_ident_char c = true -> is_word c = true.
Proof.
  destruct c as [[] [] [] [] [] [] [] []]; vm_compute; intros H;
    try discriminate; reflexivity.
Qed.

Lemma space_not_ident c : is_space c = true -> is_ident_char c = false.
Proof.
  destruct c as [[] [] [] [] [] [] [] []]; vm_compute; intros H;
    try discriminate; reflexivity.
Qed.

Lemma run_length_exact p (x r : text) :
  Forall (fun c => p c = true) x ->
  match r with [] => True | y :: _ => p y = false end ->
  run_length p (x ++ r) = length x.
Proof.
  intros Hx Hr. induction Hx as [|c x Hc _ IH]; simpl.
  - destruct r as [|y r]; simpl; [reflexivity | now rewrite Hr].
  - now rewrite Hc, IH.
Qed.

Lemma run_length_app_lt p (a r : text) :
  run_length p a < length a -> run_length p (a ++ r) = run_length p a.
Proof.
  induction a as [|c a IH]; simpl; [lia|].
  destruct (p c); [|reflexivity]. intros H. rewrite IH by lia. reflexivity.
Qed.

Lemma run_length_full p (a : text) :
  run_length p a = length a -> Forall (fun c => p c = true) a.
Proof.
  induction a as [|c a IH]; simpl; [constructor|].
  destruct (p c) eqn:Hc; [|discriminate]. intros H. constructor; [assumption|].
  apply IH. lia.
Qed.

Lemma last_some_forall (P : ascii -> Prop) (a : text) : forall ch prev,
  Forall P (ch :: a) ->
  exists x, last (map Some (ch :: a)) prev = Some x /\ P x.
Proof.
  induction a as [|c a IH]; intros ch prev H.
  - exists ch. inversion H; subst. split; [reflexivity | assumption].
  - inversion H as [|? ? _ H']; subst.
    destruct (IH c prev H') as (x & Hx & Px). exists x. split; [|assumption].
    exact Hx.
Qed.

Lemma last_cons {A : Type} (l : list A) : forall x d, last (x :: l) d = last l x.
Proof.
  induction l as [|c l IH]; intros x d; [reflexivity|].
  change (last (x :: c :: l) d) with (last (c :: l) d).
  now rewrite !IH.
Qed.

Lemma boundary_after_cons prev ch a :
  boundary_after prev (ch :: a) -> boundary_after (Some ch) a.
Proof.
  unfold boundary_after. cbn [map]. now rewrite last_cons.
Qed.

Lemma re_sub_skip_snoc (m : matcher) (x : text) : forall prev z j y,
  re_sub m prev (S (length x) + j) (x ++ z :: y) = re_sub m (Some z) j y.
Proof.
  induction x as [|c x IH]; intros prev z j y; [reflexivity|].
  apply (IH (Some c)).
Qed.

Lemma re_sub_prev (m : matcher) p p' (s : text) :
  (forall t, m p t = m p' t) -> re_sub m p 0 s = re_sub m p' 0 s.
Proof.
  intros H. destruct s as [|ch rest]; [reflexivity|].
  cbn [re_sub]. now rewrite H.
Qed.

Lemma bare_key_here prev c ident ws b :
  match prev with Some p => is_word p = false | None => True end ->
  is_ident_start c = true ->
  Forall (fun x => is_ident_char x = true) ident -> spaces ws ->
  bare_key prev (c :: ident ++ ws ++ ":" :: b)
  = Some (DQ :: c :: ident ++ [DQ; ":"], length ident + length ws + 2).
Proof.
  intros Hp Hc Hi Hws. unfold bare_key.
  replace (match prev with Some p => negb (is_word p) | None => true end) with true
    by (destruct prev as [p|]; [now rewrite Hp | reflexivity]).
  rewrite Hc. cbn [andb].
  assert (Hk : run_length is_ident_char (ident ++ ws ++ ":" :: b) = length ident).
  { apply run_length_exact; [assumption|].
    destruct Hws as [|w ws Hw _]; [reflexivity|]. simpl. now apply space_not_ident. }
  rewrite Hk, skipn_app, Nat.sub_diag, skipn_all. cbn [skipn app].
  rewrite (run_length_app is_space ws ":" b eq_refl), (run_length_all _ _ Hws).
  rewrite nth_error_app2 by lia.
  replace (length ident + length ws - length ident) with (length ws) by lia.
  rewrite nth_error_app2, Nat.sub_diag by lia. cbn [nth_error].
  rewrite firstn_app, Nat.sub_diag, firstn_all. cbn [firstn].
  now rewrite app_nil_r.
Qed.

(** A match that starts before an identifier at a word boundary ends
    before it. *)
Lemma bare_key_before prev ch a c r :
  boundary_after prev (ch :: a) -> is_ident_start c = true ->
  bare_key prev (ch :: a ++ c :: r) = bare_key prev (ch :: a)
  /\ forall repl len, bare_key prev (ch :: a) = Some (repl, len) ->
                      len - 1 <= length a.
Proof.
  intros Hb Hc. destruct (ident_start_props c Hc) as (Hsp & Hcol & _).
  unfold bare_key.
  destruct ((match prev with Some p => negb (is_word p) | None => true end)
            && is_ident_start ch) eqn:Hm; [|split; [reflexivity|discriminate]].
  apply andb_true_iff in Hm. destruct Hm as [_ Hch].
  assert (Hk : run_length is_ident_char a < length a).
  { pose proof (run_length_le is_ident_char a) as Hle.
    destruct (Nat.eq_dec (run_length is_ident_char a) (length a)) as [He|]; [|lia].
    exfalso. apply run_length_full in He.
    destruct (last_some_forall (fun x => is_ident_char x = true) a ch prev)
      as (x & Hx & Px).
    { constructor; [|assumption]. apply (ident_start_props ch Hch). }
    unfold boundary_after in Hb. rewrite Hx in Hb.
    apply ident_char_word in Px. congruence. }
  rewrite (run_length_app_lt _ a (c :: r) Hk).
  set (k := run_length is_ident_char a) in *.
  rewrite skipn_app. replace (k - length a) with 0 by lia. cbn [skipn].
  rewrite (run_length_app is_space (skipn k a) c r Hsp).
  set (w := run_length is_space (skipn k a)).
  assert (Hw : w <= length a - k).
  { unfold w. rewrite <- length_skipn. apply run_length_le. }
  rewrite firstn_app. replace (k - length a) with 0 by lia.
  cbn [firstn]. rewrite app_nil_r.
  destruct (Nat.eq_dec (k + w) (length a)) as [He | Hne].
  - rewrite He, nth_error_app2, Nat.sub_diag by lia. cbn [nth_error].
    rewrite Hcol.
    replace (nth_error a (length a)) with (@None ascii)
      by (symmetry; apply nth_error_None; lia).
    split; [reflexivity|discriminate].
  - rewrite nth_error_app1 by lia. split; [reflexivity|].
    intros repl len.
    destruct (nth_error a (k + w)) as [x|]; [|discriminate].
    destruct (x =? ":"); [|discriminate].
    intros H. inversion H; subst. lia.
Qed.

Lemma re_sub_bare_key_split c ident ws b :
  is_ident_start c = true ->
  Forall (fun x => is_ident_char x = true) ident -> spaces ws ->
  forall a skip prev,
    skip <= length a -> boundary_after prev a ->
    re_sub bare_key prev skip (a ++ c :: ident ++ ws ++ ":" :: b)
    = re_sub bare_key prev skip a
      ++ (DQ :: c :: ident ++ [DQ; ":"]) ++ re_sub bare_key None 0 b.
Proof.
  intros Hc Hi Hws. induction a as [|ch a IH]; intros skip prev Hskip Hb.
  - assert (skip = 0) as -> by (simpl in Hskip; lia).
    cbn [app re_sub]. rewrite (bare_key_here prev c ident ws b Hb Hc Hi Hws).
    replace (length ident + length ws + 2 - 1)
      with (S (length (ident ++ ws)) + 0) by (rewrite length_app; lia).
    replace (ident ++ ws ++ ":" :: b) with ((ident ++ ws) ++ ":" :: b)
      by (now rewrite <- app_assoc).
    rewrite re_sub_skip_snoc, (re_sub_prev bare_key (Some ":") None b); reflexivity.
  - rewrite <- app_comm_cons. cbn [re_sub]. destruct skip as [|k].
    + destruct (bare_key_before prev ch a c (ident ++ ws ++ ":" :: b) Hb Hc)
        as [-> Hlen].
      pose proof (boundary_after_cons _ _ _ Hb) as Hb'.
      destruct (bare_key prev (ch :: a)) as [[repl len]|].
      * rewrite IH by (try (eapply Hlen; reflexivity); assumption).
        now rewrite app_assoc.
      * rewrite IH by (try lia; assumption). reflexivity.
    + apply IH; [simpl in Hskip; lia|]. exact (boundary_after_cons _ _ _ Hb).
Qed.

(** The key-quoting rewrite looks at no string: wherever an identifier
    that starts at a word boundary is followed by whitespace only and a
    colon, it is put between double quotes and the whitespace is dropped,
    whatever stands before and after.  So an array with a bare key and a
    value that holds a URL does not parse: the scheme of the URL is
    quoted as if it were a key. *)
Theorem quote_keys_ignores_strings :
  (forall (a ident ws b : text) (c : ascii),
      boundary_after None a -> is_ident_start c = true ->
      Forall (fun x => is_ident_char x = true) ident -> spaces ws ->
      quote_keys (a ++ c :: ident ++ ws ++ ":" :: b)
      = quote_keys a ++ (DQ :: c :: ident ++ [DQ; ":"]) ++ quote_keys b)
  /\ parse_js_array (txt "[{url: 'http://x'}]")
     = Raise (RuntimeError (JSONDecodeError ExpectingComma)).
Proof.
  split.
  - intros a ident ws b c Hb Hc Hi Hws. unfold quote_keys.
    apply re_sub_bare_key_split; try assumption. lia.
  - vm_compute. reflexivity.
Qed.

Lemma quote_keys_ignores_strings_witness :
  quote_keys ((DQ :: txt "u" ++ DQ :: txt ": " ++ [DQ]) ++ "h" :: txt "ttp" ++ [] ++ ":" :: txt "//x" ++ [DQ])
  = quote_keys (DQ :: txt "u" ++ DQ :: txt ": " ++ [DQ])
    ++ (DQ :: "h" :: txt "ttp" ++ [DQ; ":"]) ++ quote_keys (txt "//x" ++ [DQ]).
Proof.
  apply (proj1 quote_keys_ignores_strings).
  - reflexivity.
  - reflexivity.
  - repeat constructor.
  - constructor.
Defined.

(** ** Parsing: an array gives a list *)

Lemma items_list : forall fuel s acc v r,
  Json.items fuel s acc = Return (v, r) -> exists l, v = JList l.
Proof.
  induction fuel as [|fuel IH]; intros s acc v r; [discriminate|].
  cbn [Json.items]. destruct (Json.scan_once fuel s) as [vr|e]; [|discriminate].
  simpl. destruct (Json.skip_ws (snd vr)) as [|c r']; [discriminate|].
  destruct (c =? "]"); [intros H; inversion H; eauto|].
  destruct (c =? ","); [apply IH | discriminate].
Qed.

Lemma loads_bracket s v :
  Json.loads ("[" :: s) = Return v -> exists l, v = JList l.
Proof.
  unfold Json.loads. cbn [Json.skip_ws].
  change (Json.is_ws "[") with false. cbv iota.
  destruct (Json.scan_once _ _) as [[v' r]|e] eqn:Hs; [|discriminate].
  simpl. destruct (Json.skip_ws r); [|discriminate].
  intros H. inversion H; subst.
  destruct (2 * length ("[" :: s) + 2) as [|fuel]; [discriminate|].
  cbn [Json.scan_once] in Hs.
  change ("[" =? DQ) with false in Hs. change ("[" =? "{") with false in Hs.
  change ("[" =? "[") with true in Hs. cbv iota in Hs.
  destruct (Json.skip_ws s) as [|c r']; [discriminate|].
  destruct (c =? "]"); [inversion Hs; eauto|].
  eapply items_list. exact Hs.
Qed.

(** The stripper keeps an opening square bracket at the head of the
    text. *)
Lemma remove_js_comments_bracket s :
  exists t, remove_js_comments ("[" :: s) = "[" :: t.
Proof.
  unfold remove_js_comments.
  destruct (run_result_grows ("[" :: s) 1 (length s)) as [tail Ht].
  change (length ("[" :: s)) with (1 + length s). rewrite Ht.
  exists tail. reflexivity.
Qed.

Lemma re_sub_bracket (m : matcher) s :
  m None ("[" :: s) = None ->
  re_sub m None 0 ("[" :: s) = "[" :: re_sub m (Some "[") 0 s.
Proof. intros H. cbn [re_sub]. now rewrite H. Qed.

Lemma rewrites_bracket s :
  (exists t, strip_trailing_commas ("[" :: s) = "[" :: t)
  /\ (exists t, requote_values ("[" :: s) = "[" :: t)
  /\ (exists t, quote_keys ("[" :: s) = "[" :: t).
Proof.
  unfold strip_trailing_commas, requote_values, quote_keys.
  repeat split; eexists; apply re_sub_bracket; reflexivity.
Qed.

Lemma parse_bracket_list (s : text) (v : json) :
  parse_js_array ("[" :: s) = Return v -> exists items, v = JList items.
Proof.
  unfold parse_js_array, try_loads, clean_js_array_to_json_array.
  destruct (remove_js_comments_bracket s) as [t0 ->].
  destruct (rewrites_bracket t0) as [[t1 ->] _].
  destruct (rewrites_bracket t1) as (_ & [t2 ->] & _).
  destruct (rewrites_bracket t2) as (_ & _ & [t3 ->]).
  destruct (Json.loads ("[" :: t1)) as [v1|e1] eqn:H1.
  { intros H. inversion H; subst. exact (loads_bracket _ _ H1). }
  destruct (Json.loads ("[" :: t2)) as [v2|e2] eqn:H2.
  { intros H. inversion H; subst. exact (loads_bracket _ _ H2). }
  destruct (Json.loads ("[" :: t3)) as [v3|e3] eqn:H3; [|discriminate].
  intros H. inversion H; subst. exact (loads_bracket _ _ H3).
Qed.

(** Whatever text starts with an opening square bracket, the parser
    returns a list or raises: it never returns a mapping or a scalar. *)
Theorem parse_js_array_list :
  forall (s : text) (v : json),
    parse_js_array ("[" :: s) = Return v -> exists items, v = JList items.
Proof.
  intros s v H. destruct (parse_bracket_list s v H) as [items ->].
  exists items. reflexivity.
Qed.

Lemma parse_js_array_list_witness :
  exists items, JList [JInt 1; JInt 2] = JList items.
Proof.
  apply (parse_js_array_list (txt "1, /* two */ 2,]")). vm_compute. reflexivity.
Defined.

(** ** Locator: the span returned *)

Lemma find_from_sound rest ch : forall i k,
  find_from rest ch i = Some k ->
  i <= k /\ nth_error rest (k - i) = Some ch.
Proof.
  induction rest as [|c rest IH]; intros i k; simpl; [discriminate|].
  destruct (c =? ch) eqn:Hc.
  - intros [= <-]. apply Ascii.eqb_eq in Hc. subst. rewrite Nat.sub_diag. auto.
  - intros H. destruct (IH _ _ H) as [Hle Hn]. split; [lia|].
    replace (k - i) with (S (k - S i)) by lia. exact Hn.
Qed.

Lemma find_char_sound s ch from k :
  find_char s ch from = Some k -> nth_error s k = Some ch.
Proof.
  unfold find_char. intros H. destruct (find_from_sound _ _ _ _ H) as [Hle Hn].
  rewrite nth_error_skipn in Hn. now replace (from + (k - from)) with k in Hn by lia.
Qed.

(** A slice is a part of the text. *)
Lemma slice_part (s : text) a b :
  s = firstn a s ++ slice s a b ++ skipn (b - a) (skipn a s).
Proof.
  unfold slice. now rewrite !firstn_skipn.
Qed.

Lemma skipn_nth {A : Type} (l : list A) : forall k x,
  nth_error l k = Some x -> skipn k l = x :: skipn (S k) l.
Proof.
  induction l as [|a l IH]; intros [|k] x H; simpl in *; try discriminate.
  - now inversion H.
  - now apply IH.
Qed.

Lemma slice_ends (s : text) b e x y :
  b < e -> nth_error s b = Some x -> nth_error s e = Some y ->
  slice s b (e + 1) = x :: slice s (S b) e ++ [y].
Proof.
  intros Hlt Hb He. unfold slice.
  replace (e + 1 - b) with (S (S (e - S b))) by lia.
  rewrite (skipn_nth s b x Hb). cbn [firstn]. f_equal.
  apply firstn_snoc. rewrite nth_error_skipn.
  now replace (S b + (e - S b)) with e by lia.
Qed.

(** The offset at which the loop starts counting has no say in where it
    stops. *)
Lemma body_index d i ch st :
  Match.body (i + d) ch st =
  match Match.body i ch st with
  | Match.Continue st' => Match.Continue st'
  | Match.Done (Return e) => Match.Done (Return (e + d))
  | Match.Done (Raise x) => Match.Done (Raise x)
  end.
Proof.
  unfold Match.body.
  repeat match goal with
         | |- context [if ?b then _ else _] => destruct b
         | |- context [match ?l with [] => _ | _ :: _ => _ end] => destruct l
         end; reflexivity.
Qed.

Lemma loop_index d rest : forall i st,
  Match.loop rest (i + d) st =
  match Match.loop rest i st with
  | Return e => Return (e + d)
  | Raise x => Raise x
  end.
Proof.
  induction rest as [|c rest IH]; intros i st; simpl; [reflexivity|].
  rewrite body_index. destruct (Match.body i c st) as [st'|[e|x]]; try reflexivity.
  apply (IH (S i)).
Qed.

(** Matching from offset [b] is matching the text from [b] on. *)
Lemma fmb_suffix s b e :
  find_matching_bracket s b = Return e ->
  find_matching_bracket (skipn b s) 0 = Return (e - b).
Proof.
  intros H. destruct (fmb_return s b e H) as (o & Hn & Ho & Hr & _).
  revert H. unfold find_matching_bracket.
  rewrite nth_error_skipn, Nat.add_0_r, Hn, Ho. cbn [negb].
  rewrite skipn_skipn. change (1 + b) with (S b).
  replace (S b) with (1 + b) at 2 by reflexivity.
  rewrite (loop_index b (skipn (S b) s) 1).
  destruct (Match.loop (skipn (S b) s) 1 (Match.init o)) as [e'|x]; [|discriminate].
  intros [= <-]. f_equal. lia.
Qed.

Lemma for_patterns_span pats js span :
  for_patterns pats js = Return (Some span) ->
  exists b e,
    nth_error js b = Some "[" /\ find_matching_bracket js b = Return e /\
    span = slice js b (e + 1).
Proof.
  induction pats as [|pat pats IH]; [discriminate|].
  rewrite for_patterns_cons. unfold located.
  destruct (re_search pat js 0) as [[a m]|]; [|exact IH].
  destruct (find_char js "[" (m - 1)) as [b|] eqn:Hf; [|exact IH].
  destruct (find_matching_bracket js b) as [e|x] eqn:He; [|exact IH].
  intros [= <-]. exists b, e. split; [|auto]. eapply find_char_sound; eauto.
Qed.

(** A span the locator returns is a part of the text, starts with an
    opening and ends with a closing square bracket, and is matched from
    end to end by the bracket matcher. *)
Theorem extract_array_by_key_span :
  forall js key span : text,
    extract_array_by_key js key = Return (Some span) ->
    (exists pre post, js = pre ++ span ++ post)
    /\ (exists body, span = "[" :: body ++ ["]"])
    /\ find_matching_bracket span 0 = Return (length span - 1).
Proof.
  intros js key span H. unfold extract_array_by_key in H.
  destruct (for_patterns_span _ _ _ H) as (b & e & Hb & He & ->).
  destruct (fmb_return js b e He) as (o & Hn & _ & Hr & Hc).
  assert (o = "[") by congruence. subst o.
  split; [|split].
  - eexists. eexists. apply slice_part.
  - exists (slice js (S b) e). apply slice_ends; [lia | assumption | assumption].
  - pose proof (fmb_suffix js b e He) as Hs.
    pose proof (fmb_extends (skipn b js) [] 0 (e - b) Hs) as Hx.
    rewrite app_nil_r in Hx. unfold slice.
    replace (e + 1 - b) with (S (e - b)) by lia.
    rewrite Hx. f_equal. rewrite length_firstn, length_skipn. lia.
Qed.

Lemma extract_array_by_key_span_witness :
  (exists pre post, txt "myvideos: [1]" = pre ++ txt "[1]" ++ post)
  /\ (exists body, txt "[1]" = "[" :: body ++ ["]"])
  /\ find_matching_bracket (txt "[1]") 0 = Return (length (txt "[1]") - 1).
Proof.
  apply (extract_array_by_key_span (txt "myvideos: [1]") (txt "videos")).
  vm_compute. reflexivity.
Defined.

(** ** Locator: a key bound to a well-nested array *)

(** When the first match of the bare-key pattern ends at offset [m], and
    the text from there on is a well-nested text followed by a closing
    square bracket, the locator returns that array, brackets included. *)
Theorem extract_array_by_key_nested :
  forall (js key b post : text) (a m : nat),
    re_search (bare_key_array key) js 0 = Some (a, m) ->
    skipn m js = b ++ "]" :: post -> nested b ->
    extract_array_by_key js key = Return (Some ("[" :: b ++ ["]"])).
Proof.
  intros js key b post a m Hs Hrest Hb.
  destruct (re_search_sound _ _ _ _ _ Hs) as (pre & rest & len & -> & Hr & -> & ->).
  destruct (bare_key_array_sound _ _ _ Hr) as (mid & post' & -> & _ & ->).
  assert (Hjs : pre ++ mid ++ "[" :: post' = (pre ++ mid) ++ "[" :: post')
    by (now rewrite <- app_assoc).
  rewrite Hjs in *.
  replace (0 + length pre + (length mid + 1)) with (length (pre ++ mid) + 1) in *
    by (rewrite length_app; lia).
  rewrite (skipn_shift (pre ++ mid) _ 1) in Hrest. cbn [skipn] in Hrest. subst post'.
  unfold extract_array_by_key. rewrite for_patterns_cons. unfold located.
  rewrite Hs. replace (length (pre ++ mid) + 1 - 1) with (length (pre ++ mid)) by lia.
  rewrite find_char_here.
  pose proof (fmb_nested (pre ++ mid) b post "[" eq_refl Hb) as Hm.
  change (closer_of "[") with "]" in Hm. rewrite Hm.
  do 2 f_equal. unfold slice.
  replace (length (pre ++ mid) + S (length b) + 1 - length (pre ++ mid))
    with (S (S (length b))) by lia.
  assert (Hf : firstn (S (length b)) (b ++ "]" :: post) = b ++ ["]"]).
  { replace (b ++ "]" :: post) with ((b ++ ["]"]) ++ post)
      by (now rewrite <- app_assoc).
    replace (S (length b)) with (length (b ++ ["]"]))
      by (rewrite length_app; simpl; lia).
    rewrite firstn_app, Nat.sub_diag, firstn_all. simpl. apply app_nil_r. }
  rewrite skipn_app, Nat.sub_diag, skipn_all. cbn [skipn app].
  now rewrite firstn_cons, Hf.
Qed.

Lemma extract_array_by_key_nested_witness :
  extract_array_by_key (txt "const v = { videos: [{'id': ']'}, [1]] };") (txt "videos")
  = Return (Some ("[" :: txt "{'id': ']'}, [1]" ++ ["]"])).
Proof.
  apply (extract_array_by_key_nested _ (txt "videos") (txt "{'id': ']'}, [1]")
           (txt " };") 12 21).
  - vm_compute. reflexivity.
  - vm_compute. reflexivity.
  - apply (nested_bracket "{" (txt "'id': ']'") (txt ", [1]")); [reflexivity| |].
    + apply (nested_string "'" (txt "id") (txt ": ']'")); [reflexivity| |].
      * repeat constructor.
      * apply nested_plain; [reflexivity|]. apply nested_plain; [reflexivity|].
        apply (nested_string "'" (txt "]") []); [reflexivity| |constructor].
        repeat constructor.
    + apply nested_plain; [reflexivity|]. apply nested_plain; [reflexivity|].
      apply (nested_bracket "[" (txt "1") []); [reflexivity| |constructor].
      apply nested_plain; [reflexivity|]. constructor.
Defined.

(** ** Loaders *)

Example load_youtube_first :
  load_youtube_items (txt "const youtubeMaydayVideos = { videos: [ {id: 'a1'}, ] };")
  = Items (JList [JDict [(txt "id", JStr (txt "a1"))]]).
Proof. vm_compute. reflexivity. Qed.

Example load_dailymotion_fallback :
  load_dailymotion_items (txt "var x = [ {" ++ DQ :: txt "url" ++ DQ :: txt ": 1} ];")
  = Items (JList [JDict [(txt "url", JInt 1)]]).
Proof. vm_compute. reflexivity. Qed.

Lemma for_patterns_head pats js span :
  for_patterns pats js = Return (Some span) -> exists t, span = "[" :: t.
Proof.
  intros H. destruct (for_patterns_span _ _ _ H) as (b & e & Hb & He & ->).
  destruct (fmb_return js b e He) as (o & _ & _ & Hr & Hc).
  rewrite (slice_ends js b e _ _ (proj1 Hr) Hb Hc). eauto.
Qed.

Lemma parse_located_list arr v :
  (forall a, arr = Some a -> exists t, a = "[" :: t) ->
  parse_located arr = Items v -> exists l, v = JList l.
Proof.
  intros Ha. unfold parse_located. destruct (not_arr arr); [discriminate|].
  destruct arr as [a|]; [|discriminate].
  destruct (Ha a eq_refl) as [t ->].
  destruct (parse_js_array ("[" :: t)) as [items|e] eqn:Hp; [|discriminate].
  intros [= <-]. exact (parse_bracket_list _ _ Hp).
Qed.

Lemma key_in_block_head pat file_text key arr a :
  (forall a, arr = Some a -> exists t, a = "[" :: t) ->
  key_in_block pat file_text key arr = Some a -> exists t, a = "[" :: t.
Proof.
  intros Ha. unfold key_in_block.
  destruct (re_search pat file_text 0) as [[s m]|]; [|apply Ha].
  destruct (find_char file_text "{" (m - 1)) as [start|]; [|discriminate].
  destruct (find_matching_bracket file_text start) as [e|x]; [|discriminate].
  destruct (extract_array_by_key _ key) as [arr'|x] eqn:Hx; [|discriminate].
  intros ->. unfold extract_array_by_key in Hx. eapply for_patterns_head; eauto.
Qed.

Lemma array_of_objects_head file_text start m :
  re_search array_of_objects file_text 0 = Some (start, m) ->
  nth_error file_text start = Some "[".
Proof.
  intros H.
  destruct (re_search_sound _ _ _ _ _ H) as (pre & rest & len & -> & Hr & -> & _).
  rewrite nth_error_app2 by lia. replace (0 + length pre - length pre) with 0 by lia.
  unfold array_of_objects in Hr. destruct rest as [|c r]; [discriminate|].
  destruct (c =? "[") eqn:Hc; [|discriminate]. apply Ascii.eqb_eq in Hc. now subst.
Qed.

(** What the loaders return is a list: whichever strategy locates the
    array, the text handed to the parser starts with an opening square
    bracket. *)
Theorem loaders_return_lists :
  forall (file_text : text) (v : json),
    (load_youtube_items file_text = Items v -> exists l, v = JList l)
    /\ (load_dailymotion_items file_text = Items v -> exists l, v = JList l).
Proof.
  intros file_text v. split.
  - unfold load_youtube_items.
    destruct (extract_array_by_key file_text (txt "videos")) as [arr|e] eqn:Hx;
      [|discriminate].
    assert (Ha : forall a, arr = Some a -> exists t, a = "[" :: t).
    { intros a ->. unfold extract_array_by_key in Hx. eapply for_patterns_head; eauto. }
    apply parse_located_list. destruct (not_arr arr); [|exact Ha].
    intros a Hk. eapply key_in_block_head; eauto.
  - unfold load_dailymotion_items.
    destruct (extract_array_by_key file_text (txt "maydayEpisodes")) as [arr|e] eqn:Hx;
      [|discriminate].
    assert (Ha : forall a, arr = Some a -> exists t, a = "[" :: t).
    { intros a ->. unfold extract_array_by_key in Hx. eapply for_patterns_head; eauto. }
    set (arr2 := if not_arr arr then _ else arr).
    assert (Ha2 : forall a, arr2 = Some a -> exists t, a = "[" :: t).
    { unfold arr2. destruct (not_arr arr); [|exact Ha].
      intros a Hk. eapply key_in_block_head; eauto. }
    destruct (not_arr arr2); [|now apply parse_located_list].
    destruct (re_search array_of_objects file_text 0) as [[start m]|] eqn:Hs;
      [|now apply parse_located_list].
    destruct (find_matching_bracket file_text start) as [e|x] eqn:He; [|discriminate].
    apply parse_located_list. intros a [= <-].
    destruct (fmb_return _ _ _ He) as (o & _ & _ & Hr & Hc).
    rewrite (slice_ends _ _ _ _ _ (proj1 Hr) (array_of_objects_head _ _ _ Hs) Hc).
    eauto.
Qed.

Lemma loaders_return_lists_witness :
  exists l, JList [JDict [(txt "id", JStr (txt "a1"))]] = JList l.
Proof.
  apply (proj1 (loaders_return_lists
                  (txt "const youtubeMaydayVideos = { videos: [ {id: 'a1'}, ] };") _)).
  vm_compute. reflexivity.
Defined.

(** ** Loaders: a text without the key *)

Lemma extract_without_occurrence js key :
  (forall pre mid post, js = pre ++ mid ++ "[" :: post -> ~ key_occurrence key mid) ->
  extract_array_by_key js key = Return None.
Proof.
  intros Hno. unfold extract_array_by_key.
  assert (Hnone : forall pat,
             (forall s len, pat s = Some len ->
                exists mid post,
                  s = mid ++ "[" :: post /\ key_occurrence key mid /\
                  len = length mid + 1) ->
             located pat js = None).
  { intros pat Hpat. unfold located. rewrite re_search_none; [reflexivity|].
    intros pre rest ->. destruct (pat rest) as [len|] eqn:Hp; [|reflexivity].
    destruct (Hpat _ _ Hp) as (mid & post & -> & Hk & _).
    exfalso. exact (Hno pre mid post eq_refl Hk). }
  rewrite !for_patterns_cons.
  rewrite (Hnone _ (bare_key_array_sound key)).
  rewrite (Hnone _ (quoted_key_array_sound key)). reflexivity.
Qed.

(** A key that occurs nowhere in the text occurs in no part of it. *)
Lemma key_in_block_without_occurrence pat file_text key :
  (forall pre mid post,
      file_text = pre ++ mid ++ "[" :: post -> ~ key_occurrence key mid) ->
  key_in_block pat file_text key None = None.
Proof.
  intros Hno. unfold key_in_block.
  destruct (re_search pat file_text 0) as [[s m]|]; [|reflexivity].
  destruct (find_char file_text "{" (m - 1)) as [start|]; [|reflexivity].
  destruct (find_matching_bracket file_text start) as [e|x]; [|reflexivity].
  rewrite extract_without_occurrence; [reflexivity|].
  intros pre mid post Hb Hk.
  apply (Hno (firstn start file_text ++ pre) mid
             (post ++ skipn (e + 1 - start) (skipn start file_text))); [|exact Hk].
  pose proof (slice_part file_text start (e + 1)) as Hp. rewrite Hb in Hp.
  etransitivity; [exact Hp|].
  repeat (rewrite <- app_assoc; cbn [app]). reflexivity.
Qed.

(** A text without a colon holds no key. *)
Lemma no_colon_no_occurrence js key :
  ~ In ":" js ->
  forall pre mid post, js = pre ++ mid ++ "[" :: post -> ~ key_occurrence key mid.
Proof.
  intros Hno pre mid post Hjs (ws1 & ws2 & _ & _ & Hmid). apply Hno.
  rewrite Hjs. apply in_or_app. right. apply in_or_app. left.
  destruct Hmid as [-> | (q1 & q2 & _ & _ & ->)].
  - apply in_or_app. right. apply in_or_app. right. now left.
  - right. apply in_or_app. right. right. apply in_or_app. right. now left.
Qed.

(** When the key videos occurs nowhere in the text before a colon and an
    opening square bracket, the YouTube loader raises its own error: the
    block it falls back on is a part of the text and cannot hold the key
    either. *)
Theorem load_youtube_items_without_key :
  forall file_text : text,
    (forall pre mid post,
        file_text = pre ++ mid ++ "[" :: post ->
        ~ key_occurrence (txt "videos") mid) ->
    load_youtube_items file_text = NotLocated.
Proof.
  intros file_text Hno. unfold load_youtube_items.
  rewrite (extract_without_occurrence _ _ Hno). cbn [not_arr].
  rewrite (key_in_block_without_occurrence _ _ _ Hno). reflexivity.
Qed.

Lemma load_youtube_items_without_key_witness :
  load_youtube_items (txt "const youtubeMaydayVideos = { items = [1] };") = NotLocated.
Proof.
  apply load_youtube_items_without_key. apply no_colon_no_occurrence.
  vm_compute. intuition discriminate.
Defined.

(** When the key maydayEpisodes occurs nowhere in the text, the
    Dailymotion loader is left with its last strategy, the first array
    of objects of the text: it parses the array matched from there;
    when the brackets do not match, the error of the bracket matcher is
    raised as it is (here it is not caught); when the text holds no
    array of objects, the loader raises its own error. *)
Theorem load_dailymotion_items_without_key :
  forall file_text : text,
    (forall pre mid post,
        file_text = pre ++ mid ++ "[" :: post ->
        ~ key_occurrence (txt "maydayEpisodes") mid) ->
    load_dailymotion_items file_text =
    match re_search array_of_objects file_text 0 with
    | Some (start, _) =>
        match find_matching_bracket file_text start with
        | Return e => parse_located (Some (slice file_text start (e + 1)))
        | Raise x => Failed x
        end
    | None => NotLocated
    end.
Proof.
  intros file_text Hno. unfold load_dailymotion_items.
  rewrite (extract_without_occurrence _ _ Hno). cbn [not_arr].
  rewrite (key_in_block_without_occurrence _ _ _ Hno). cbn [not_arr].
  destruct (re_search array_of_objects file_text 0) as [[start m]|]; reflexivity.
Qed.

Lemma load_dailymotion_items_without_key_witness :
  load_dailymotion_items (txt "x = [ {" ++ DQ :: txt "a" ++ DQ :: txt " 1 ")
  = Failed NoMatchingBracket.
Proof.
  rewrite load_dailymotion_items_without_key.
  - vm_compute. reflexivity.
  - apply no_colon_no_occurrence. vm_compute. intuition discriminate.
Defined.

(** ** Items of the catalogue *)

Example convert_example :
  convert_youtube_to_dailymotion_format (fun _ => true) (fun _ => [])
    [(txt "id", JStr (txt "abc")); (txt "title", JStr (txt "T"))]
  = [ (txt "url", JStr (txt "https://www.youtube.com/watch?v=abc"));
      (txt "text", JStr (txt "T")); (txt "title", JStr (txt "T"));
      (txt "videoId", JStr (txt "abc")); (txt "imageUrl", JStr []);
      (txt "duration", JStr (txt "N/A")); (txt "views", JStr (txt "N/A"));
      (txt "is_external", JBool false); (txt "season", JNull);
      (txt "episode", JNull); (txt "hasLocalImage", JBool false) ].
Proof. vm_compute. reflexivity. Qed.

Ltac get_simpl :=
  cbn [get];
  repeat match goal with
         | |- context [Json.text_eqb ?a ?b] =>
             let r := eval vm_compute in (Json.text_eqb a b) in
             change (Json.text_eqb a b) with r
         end;
  cbv iota.

Section ItemsFacts.

Variable float_truthy : text -> bool.
Variable str_other : json -> text.

Lemma py_or_true a b :
  truthy float_truthy a = true -> py_or float_truthy a b = a.
Proof. intros H. unfold py_or. now rewrite H. Qed.

Lemma py_or_false a b :
  truthy float_truthy a = false -> py_or float_truthy a b = b.
Proof. intros H. unfold py_or. now rewrite H. Qed.

Lemma or_empty_settled a :
  settled float_truthy (py_or float_truthy a (JStr [])).
Proof.
  unfold settled. destruct (truthy float_truthy a) eqn:Ha.
  - rewrite py_or_true by assumption. now left.
  - rewrite py_or_false by assumption. now right.
Qed.

Lemma settled_or_none v :
  settled float_truthy v ->
  py_or float_truthy (py_or float_truthy v JNull) (JStr []) = v.
Proof.
  intros [H | ->].
  - now rewrite (py_or_true v JNull H), (py_or_true v _ H).
  - reflexivity.
Qed.

Lemma settled_or_none_twice v :
  settled float_truthy v ->
  py_or float_truthy
    (py_or float_truthy (py_or float_truthy v JNull) JNull) (JStr []) = v.
Proof.
  intros [H | ->].
  - now rewrite (py_or_true v JNull H), (py_or_true v JNull H), (py_or_true v _ H).
  - reflexivity.
Qed.

Lemma or_default_again a d :
  truthy float_truthy d = true ->
  py_or float_truthy (py_or float_truthy a d) d = py_or float_truthy a d.
Proof.
  intros Hd. destruct (truthy float_truthy a) eqn:Ha.
  - now rewrite (py_or_true a d Ha), (py_or_true a d Ha).
  - rewrite (py_or_false a d Ha). now apply py_or_true.
Qed.

(** The text and the title, each falling back on the other. *)
Lemma text_title_again a b :
  py_or float_truthy
    (py_or float_truthy
       (py_or float_truthy (py_or float_truthy a b) (JStr []))
       (py_or float_truthy (py_or float_truthy b a) (JStr [])))
    (JStr [])
  = py_or float_truthy (py_or float_truthy a b) (JStr []).
Proof.
  destruct (truthy float_truthy a) eqn:Ha.
  - rewrite (py_or_true a b Ha), (py_or_true a (JStr []) Ha).
    now rewrite (py_or_true a _ Ha), (py_or_true a _ Ha).
  - rewrite (py_or_false a b Ha). destruct (truthy float_truthy b) eqn:Hb.
    + rewrite (py_or_true b (JStr []) Hb).
      now rewrite (py_or_true b _ Hb), (py_or_true b _ Hb).
    + rewrite (py_or_false b _ Hb), (py_or_false b a Hb), (py_or_false a _ Ha).
      reflexivity.
Qed.

(** A settled value, falling back on itself. *)
Lemma settled_or_self v :
  settled float_truthy v ->
  py_or float_truthy (py_or float_truthy v v) (JStr []) = v.
Proof.
  intros [H | ->].
  - now rewrite (py_or_true v v H), (py_or_true v _ H).
  - reflexivity.
Qed.

Lemma normalize_fixed dm_item :
  normalize_dailymotion_item float_truthy
    (normalize_dailymotion_item float_truthy dm_item)
  = normalize_dailymotion_item float_truthy dm_item.
Proof.
  unfold normalize_dailymotion_item at 1.
  unfold normalize_dailymotion_item. get_simpl.
  rewrite (text_title_again (get dm_item (txt "text") JNull)
             (get dm_item (txt "title") JNull)).
  rewrite (text_title_again (get dm_item (txt "title") JNull)
             (get dm_item (txt "text") JNull)).
  rewrite (settled_or_none _ (or_empty_settled _)).
  rewrite (settled_or_none_twice _ (or_empty_settled _)).
  rewrite !or_default_again by reflexivity.
  reflexivity.
Qed.

Lemma normalize_convert yt_item :
  normalize_dailymotion_item float_truthy
    (convert_youtube_to_dailymotion_format float_truthy str_other yt_item)
  = convert_youtube_to_dailymotion_format float_truthy str_other yt_item.
Proof.
  unfold normalize_dailymotion_item, convert_youtube_to_dailymotion_format.
  get_simpl.
  rewrite (settled_or_self _ (or_empty_settled _)).
  rewrite (settled_or_none _ (or_empty_settled _)).
  rewrite (settled_or_none_twice _ (or_empty_settled _)).
  rewrite !or_default_again by reflexivity.
  reflexivity.
Qed.

End ItemsFacts.

(** Normalizing a Dailymotion item twice is normalizing it once. *)
Theorem normalize_dailymotion_item_idempotent :
  forall (float_truthy : text -> bool) (dm_item : list (text * json)),
    normalize_dailymotion_item float_truthy
      (normalize_dailymotion_item float_truthy dm_item)
    = normalize_dailymotion_item float_truthy dm_item.
Proof.
  intros float_truthy dm_item. apply normalize_fixed.
Qed.

(** A converted YouTube item is already in the form of a normalized
    Dailymotion item: normalizing it changes nothing. *)
Theorem normalize_converted_youtube_item :
  forall (float_truthy : text -> bool) (str_other : json -> text)
         (yt_item : list (text * json)),
    normalize_dailymotion_item float_truthy
      (convert_youtube_to_dailymotion_format float_truthy str_other yt_item)
    = convert_youtube_to_dailymotion_format float_truthy str_other yt_item.
Proof.
  intros float_truthy str_other yt_item. apply normalize_convert.
Qed.

Lemma or_default_truthy float_truthy a d :
  truthy float_truthy d = true ->
  truthy float_truthy (py_or float_truthy a d) = true.
Proof.
  intros Hd. unfold py_or. destruct (truthy float_truthy a) eqn:Ha; assumption.
Qed.

Lemma normalized_catalogue_item float_truthy dm_item :
  catalogue_item float_truthy (normalize_dailymotion_item float_truthy dm_item).
Proof.
  split; [reflexivity|]. split; [apply normalize_fixed|]. split.
  - intros k [<- | [<- | [<- | [<- | []]]]];
      unfold normalize_dailymotion_item; get_simpl; apply or_empty_settled.
  - intros k [<- | [<- | []]];
      unfold normalize_dailymotion_item; get_simpl;
      apply or_default_truthy; reflexivity.
Qed.

Lemma converted_catalogue_item float_truthy str_other yt_item :
  catalogue_item float_truthy
    (convert_youtube_to_dailymotion_format float_truthy str_other yt_item).
Proof.
  split; [reflexivity|]. split; [apply normalize_convert|]. split.
  - intros k [<- | [<- | [<- | [<- | []]]]];
      unfold convert_youtube_to_dailymotion_format; get_simpl;
      apply or_empty_settled.
  - intros k [<- | [<- | []]];
      unfold convert_youtube_to_dailymotion_format; get_simpl;
      apply or_default_truthy; reflexivity.
Qed.

(** Every item of the list the catalogue is made of has the eleven keys
    of the catalogue in their order, is left unchanged by the
    normalization, has a text, a title, a video identifier and an image
    that are never [None], and a duration and views that are true
    values; the list has as many items as the two sources together. *)
Theorem generate_catalog_items :
  forall (float_truthy : text -> bool) (str_other : json -> text)
         (dm_items yt_items : list (list (text * json))),
    Forall (catalogue_item float_truthy)
      (combined float_truthy str_other dm_items yt_items)
    /\ length (combined float_truthy str_other dm_items yt_items)
       = length dm_items + length yt_items.
Proof.
  intros float_truthy str_other dm_items yt_items. unfold combined. split.
  - apply Forall_app. split; apply Forall_forall; intros item Hin;
      apply in_map_iff in Hin; destruct Hin as (x & <- & _).
    + apply normalized_catalogue_item.
    + apply converted_catalogue_item.
  - now rewrite length_app, !length_map.
Qed.

(** ** Loaders: the brace of a block is always found *)

Lemma find_char_at s ch k :
  nth_error s k = Some ch -> find_char s ch k = Some k.
Proof.
  intros H. unfold find_char. rewrite (skipn_nth s k ch H). simpl.
  now rewrite Ascii.eqb_refl.
Qed.

Lemma sep_brace_end sep s n :
  sep_brace sep s = Some n -> 2 <= n /\ nth_error s (n - 1) = Some "{".
Proof.
  unfold sep_brace. set (a := run_length is_space s).
  destruct (skipn a s) as [|c r] eqn:Hs; [discriminate|].
  destruct (c =? sep); [|discriminate].
  set (b := run_length is_space r).
  destruct (nth_error r b) as [c'|] eqn:Hb; [|discriminate].
  destruct (c' =? "{") eqn:Hc; [|discriminate]. apply Ascii.eqb_eq in Hc. subst c'.
  intros [= <-]. split; [lia|].
  replace (a + b + 2 - 1) with (a + S b) by lia.
  rewrite <- nth_error_skipn, Hs. exact Hb.
Qed.

Lemma block_pattern_end (pat : text -> option nat) file_text s m :
  (forall t len, pat t = Some len -> 1 <= len /\ nth_error t (len - 1) = Some "{") ->
  re_search pat file_text 0 = Some (s, m) ->
  find_char file_text "{" (m - 1) = Some (m - 1).
Proof.
  intros Hpat H.
  destruct (re_search_sound _ _ _ _ _ H) as (pre & rest & len & -> & Hr & -> & ->).
  destruct (Hpat _ _ Hr) as [Hlen Hn]. apply find_char_at.
  rewrite nth_error_app2 by lia.
  now replace (0 + length pre + len - 1 - length pre) with (len - 1) by lia.
Qed.

Lemma categories_block_end t len :
  categories_block t = Some len -> 1 <= len /\ nth_error t (len - 1) = Some "{".
Proof.
  unfold categories_block.
  destruct (Json.starts_with (txt "categories") t) as [r|] eqn:Hs; [|discriminate].
  apply starts_with_sound in Hs. subst t.
  destruct (sep_brace ":" r) as [n|] eqn:Hb; [|discriminate].
  destruct (sep_brace_end _ _ _ Hb) as [Hn Hc]. intros [= <-]. split; [simpl; lia|].
  match goal with
  | |- nth_error _ ?i = _ =>
      replace i with (length (txt "categories") + (n - 1)) by (simpl; lia)
  end.
  rewrite nth_error_shift. exact Hc.
Qed.

Lemma youtube_block_end t len :
  youtube_block t = Some len -> 1 <= len /\ nth_error t (len - 1) = Some "{".
Proof.
  unfold youtube_block.
  destruct (Json.starts_with (txt "const") t) as [r|] eqn:Hs; [|discriminate].
  apply starts_with_sound in Hs. subst t.
  set (a := run_length is_space r).
  destruct (0 <? a)%nat; [|discriminate].
  destruct (Json.starts_with (txt "youtubeMaydayVideos") (skipn a r)) as [r'|] eqn:Hy;
    [|discriminate].
  apply starts_with_sound in Hy.
  destruct (sep_brace "=" r') as [n|] eqn:Hb; [|discriminate].
  destruct (sep_brace_end _ _ _ Hb) as [Hn Hc]. intros [= <-]. split; [simpl; lia|].
  match goal with
  | |- nth_error _ ?i = _ =>
      replace i
        with (length (txt "const")
              + (a + (length (txt "youtubeMaydayVideos") + (n - 1))))
        by (simpl; lia)
  end.
  rewrite nth_error_shift, <- nth_error_skipn, Hy, nth_error_shift. exact Hc.
Qed.

(** In the second strategy of the loaders the search for the brace of
    the block never fails: the brace is the last character of the
    match. *)
Lemma key_in_block_brace file_text s m :
  (re_search categories_block file_text 0 = Some (s, m) ->
   find_char file_text "{" (m - 1) = Some (m - 1))
  /\ (re_search youtube_block file_text 0 = Some (s, m) ->
      find_char file_text "{" (m - 1) = Some (m - 1)).
Proof.
  split; apply block_pattern_end.
  - apply categories_block_end.
  - apply youtube_block_end.
Qed.

(** ** Comment stripper: the loop ends *)

(** Every pass through the loop of the stripper moves the offset
    forward: so after as many passes as the text has characters the
    offset is at the end of the text or past it, the loop is over, and
    further passes change nothing. *)
Theorem remove_js_comments_terminates :
  forall source : text,
    (forall k ch,
        nth_error source (Strip.pos (Strip.run source k)) = Some ch ->
        Strip.pos (Strip.run source k) < Strip.pos (Strip.run source (S k)))
    /\ length source <= Strip.pos (Strip.run source (length source))
    /\ (forall j,
           Strip.result_chars (Strip.run source (length source + j))
           = remove_js_comments source).
Proof.
  intros source. split; [|split].
  - intros k ch Hn. rewrite run_S. eapply step_pos_lt. exact Hn.
  - exact (proj1 (strip_loop_exits source)).
  - intros j. unfold remove_js_comments.
    now rewrite (proj2 (strip_loop_exits source) j).
Qed.

Lemma remove_js_comments_terminates_witness :
  Strip.pos (Strip.run (txt "a /* b */ c") 2) < Strip.pos (Strip.run (txt "a /* b */ c") 3).
Proof.
  apply (proj1 (remove_js_comments_terminates (txt "a /* b */ c")) 2 "/").
  vm_compute. reflexivity.
Defined.

(** ** Requoting: every run in a value position *)










(** ** Bracket matcher: the grammar of bracketed text *)

Lemma balanced_app plain (a b : text) :
  balanced plain a -> balanced plain b -> balanced plain (a ++ b).
Proof.
  intros Ha Hb. induction Ha as [|ch t Hp _ IH|q body t Hq Hbody _ IH|o x t Ho Hx _ _ IH].
  - exact Hb.
  - simpl. now constructor.
  - simpl. rewrite <- app_assoc. simpl. now constructor.
  - simpl. rewrite <- app_assoc. simpl. now constructor.
Qed.

Lemma leaves_open_balanced plain opens (w b : text) :
  leaves_open plain opens w -> balanced plain b -> leaves_open plain opens (w ++ b).
Proof.
  intros Hw Hb. destruct Hw as [w Hw | opens w o x Hw Ho Hx].
  - constructor. now apply balanced_app.
  - rewrite <- app_assoc. simpl. constructor; [assumption | assumption |].
    now apply balanced_app.
Qed.

Lemma leaves_open_app plain inner outer (w w' : text) :
  leaves_open plain outer w -> leaves_open plain inner w' ->
  leaves_open plain (inner ++ outer) (w ++ w').
Proof.
  intros Hw Hw'. induction Hw' as [w' Hb | inner w' o b _ IH Ho Hb].
  - simpl. now apply leaves_open_balanced.
  - rewrite app_assoc. simpl. now constructor.
Qed.

Lemma leaves_open_after plain opens (b w : text) :
  balanced plain b -> leaves_open plain opens w -> leaves_open plain opens (b ++ w).
Proof.
  intros Hb Hw. rewrite <- (app_nil_r opens).
  apply leaves_open_app; [now constructor | assumption].
Qed.

Lemma leaves_open_inside plain opens (o : ascii) (w : text) :
  is_opener o = true -> leaves_open plain opens w ->
  leaves_open plain (opens ++ [o]) (o :: w).
Proof.
  intros Ho Hw. change (o :: w) with ([o] ++ w).
  apply leaves_open_app; [|assumption].
  apply (leaves_open_more plain [] [] o []); [|assumption|]; repeat constructor.
Qed.

Lemma string_body_snoc q (body : text) c :
  string_body q body -> (c =? q) = false -> (c =? BACKSLASH) = false ->
  string_body q (body ++ [c]).
Proof.
  intros Hb Hq Hbs. induction Hb as [|x t Hx Hy _ IH|x t _ IH]; simpl.
  - apply string_body_char; [assumption | assumption | constructor].
  - now apply string_body_char.
  - now apply string_body_escape.
Qed.

Lemma string_body_snoc_escape q (body : text) c :
  string_body q body -> string_body q (body ++ [BACKSLASH; c]).
Proof.
  intros Hb. induction Hb as [|x t Hx Hy _ IH|x t _ IH]; simpl.
  - apply string_body_escape. constructor.
  - now apply string_body_char.
  - now apply string_body_escape.
Qed.

Lemma is_plain_spec ch : is_plain ch = true -> spec_plain ch = true.
Proof.
  unfold is_plain, spec_plain. rewrite !negb_true_iff, !orb_false_iff. tauto.
Qed.

Lemma spec_plain_cases ch :
  spec_plain ch = true -> ch = BACKSLASH \/ is_plain ch = true.
Proof.
  unfold is_plain, spec_plain. destruct (ch =? BACKSLASH) eqn:E.
  - apply Ascii.eqb_eq in E. now left.
  - rewrite orb_false_r. now right.
Qed.

Lemma balanced_spec (w : text) : balanced is_plain w -> balanced spec_plain w.
Proof.
  induction 1 as [|ch t Hp _ IH|q body t Hq Hbody _ IH|o b t Ho _ IHb _ IHt].
  - constructor.
  - apply balanced_plain; [now apply is_plain_spec | assumption].
  - now apply balanced_string.
  - now apply balanced_bracket.
Qed.

Lemma leaves_open_spec opens (w : text) :
  leaves_open is_plain opens w -> leaves_open spec_plain opens w.
Proof.
  induction 1 as [w Hw | opens w o b _ IH Ho Hb].
  - apply leaves_open_none. now apply balanced_spec.
  - apply leaves_open_more; [assumption | assumption | now apply balanced_spec].
Qed.

(** A text balanced for the specification either holds no backslash
    outside strings or has a first one. *)
Lemma balanced_first_backslash (w : text) :
  balanced spec_plain w ->
  balanced is_plain w
  \/ exists opens w1 w2, leaves_open is_plain opens w1 /\ w = w1 ++ BACKSLASH :: w2.
Proof.
  induction 1 as [|ch t Hp _ IH|q body t Hq Hbody _ IH|o b t Ho _ IHb _ IHt].
  - left. constructor.
  - destruct (spec_plain_cases ch Hp) as [-> | Hp'].
    + right. exists [], [], t. split; [repeat constructor | reflexivity].
    + destruct IH as [IH | (opens & w1 & w2 & Hw & ->)].
      * left. now constructor.
      * right. exists opens, (ch :: w1), w2. split; [|reflexivity].
        change (ch :: w1) with ([ch] ++ w1). apply leaves_open_after; [|assumption].
        repeat constructor. assumption.
  - destruct IH as [IH | (opens & w1 & w2 & Hw & ->)].
    + left. now constructor.
    + right. exists opens, ((q :: body ++ [q]) ++ w1), w2. split.
      * apply leaves_open_after; [|assumption].
        apply (balanced_string is_plain q body []); [assumption|assumption|constructor].
      * simpl. rewrite <- !app_assoc. reflexivity.
  - destruct IHb as [IHb | (opens & w1 & w2 & Hw & ->)].
    + destruct IHt as [IHt | (opens & w1 & w2 & Hw & ->)].
      * left. now constructor.
      * right. exists opens, ((o :: b ++ [closer_of o]) ++ w1), w2. split.
        -- apply leaves_open_after; [|assumption].
           apply (balanced_bracket is_plain o b []); [assumption|assumption|constructor].
        -- simpl. rewrite <- !app_assoc. reflexivity.
    + right. exists (opens ++ [o]), (o :: w1), (w2 ++ closer_of o :: t). split.
      * now apply leaves_open_inside.
      * simpl. rewrite <- !app_assoc. reflexivity.
Qed.

Lemma leaves_open_first_backslash opens (w : text) :
  leaves_open spec_plain opens w ->
  leaves_open is_plain opens w
  \/ exists opens' w1 w2, leaves_open is_plain opens' w1 /\ w = w1 ++ BACKSLASH :: w2.
Proof.
  induction 1 as [w Hw | opens w o b _ IH Ho Hb].
  - destruct (balanced_first_backslash w Hw) as [H | H]; [left; now constructor | now right].
  - destruct IH as [IH | (opens' & w1 & w2 & Hw & ->)].
    + destruct (balanced_first_backslash b Hb) as [H | (opens' & w1 & w2 & Hw & ->)].
      * left. now constructor.
      * right. exists (opens' ++ o :: opens), (w ++ o :: w1), w2. split.
        -- replace (w ++ o :: w1) with ((w ++ o :: []) ++ w1)
             by (rewrite <- app_assoc; reflexivity).
           apply leaves_open_app; [|assumption].
           constructor; [assumption | assumption | constructor].
        -- rewrite <- !app_assoc. reflexivity.
    + right. exists opens', w1, (w2 ++ o :: b). split; [assumption|].
      rewrite <- !app_assoc. reflexivity.
Qed.

(** ** Bracket matcher: the scan follows the grammar *)

Lemma quote_props q :
  is_quote q = true ->
  (q =? BACKSLASH) = false /\ is_opener q = false /\ is_closer q = false.
Proof.
  unfold is_quote. intros H. apply orb_true_iff in H.
  destruct H as [H | H]; apply Ascii.eqb_eq in H; subst; repeat split.
Qed.

Lemma opener_props o :
  is_opener o = true ->
  (o =? BACKSLASH) = false /\ is_quote o = false /\ is_closer o = false.
Proof.
  intros H. apply is_opener_cases in H. destruct H as [-> | ->]; repeat split.
Qed.

Lemma closer_props c :
  is_closer c = true ->
  (c =? BACKSLASH) = false /\ is_quote c = false /\ is_opener c = false.
Proof.
  intros H. apply is_closer_cases in H. destruct H as [-> | ->]; repeat split.
Qed.

Lemma closer_of_closer o : is_opener o = true -> is_closer (closer_of o) = true.
Proof.
  intros H. apply is_opener_cases in H. destruct H as [-> | ->]; reflexivity.
Qed.

(** The scan passes over the inside of a string and is still in the
    string. *)
Lemma loop_string q stk (body : text) :
  string_body q body ->
  forall rest j,
    Match.loop (body ++ rest) j (Match.mk true (Some q) false stk)
    = Match.loop rest (j + length body) (Match.mk true (Some q) false stk).
Proof.
  induction 1 as [|c t Hq Hbs _ IH|c t _ IH]; intros rest j.
  - simpl. now rewrite Nat.add_0_r.
  - cbn [app Match.loop]. unfold Match.body at 1. simpl. rewrite Hbs, Hq.
    rewrite IH. f_equal. simpl. lia.
  - cbn [app Match.loop]. unfold Match.body. simpl.
    rewrite IH. f_equal. lia.
Qed.

(** The scan passes over a balanced text without a backslash outside
    strings and is then in the state it was in before. *)
Lemma loop_balanced (b : text) :
  balanced is_plain b ->
  forall rest j stk,
    stk <> [] ->
    Match.loop (b ++ rest) j (Match.mk false None false stk)
    = Match.loop rest (j + length b) (Match.mk false None false stk).
Proof.
  induction 1 as [|ch t Hp _ IH|q body t Hq Hbody _ IH|o b t Ho _ IHb _ IHt];
    intros rest j stk Hstk.
  - simpl. now rewrite Nat.add_0_r.
  - destruct (is_plain_cases ch Hp) as (H1 & H2 & H3 & H4).
    simpl. unfold Match.body. simpl. rewrite H1, H2, H3, H4.
    rewrite IH by assumption. f_equal. lia.
  - destruct (quote_props q Hq) as (Hqb & _ & _).
    cbn [app Match.loop]. unfold Match.body at 1. simpl. rewrite Hqb, Hq.
    rewrite <- app_assoc. rewrite (loop_string q stk body Hbody).
    cbn [app Match.loop]. unfold Match.body at 1. simpl.
    rewrite Hqb, Ascii.eqb_refl.
    rewrite IH by assumption. f_equal. simpl. rewrite length_app. simpl. lia.
  - destruct (opener_props o Ho) as (Hob & Hoq & _).
    cbn [app Match.loop]. unfold Match.body at 1. simpl. rewrite Hob, Hoq, Ho.
    rewrite <- app_assoc. rewrite IHb by discriminate.
    cbn [app Match.loop].
    rewrite (body_on_closer _ (closer_of o) _ o stk); try reflexivity;
      try assumption; [|now apply closer_of_closer].
    rewrite Ascii.eqb_refl. destruct stk as [|x stk]; [contradiction|].
    simpl. rewrite IHt by assumption. f_equal. rewrite length_app. simpl. lia.
Qed.

(** After a text that leaves brackets open, they are on the stack. *)
Lemma loop_leaves_open opens (w : text) :
  leaves_open is_plain opens w ->
  forall rest j stk,
    stk <> [] ->
    Match.loop (w ++ rest) j (Match.mk false None false stk)
    = Match.loop rest (j + length w) (Match.mk false None false (opens ++ stk)).
Proof.
  induction 1 as [w Hw | opens w o b _ IH Ho Hb]; intros rest j stk Hstk.
  - now apply loop_balanced.
  - destruct (opener_props o Ho) as (Hob & Hoq & _).
    rewrite <- app_assoc. rewrite IH by assumption.
    cbn [app Match.loop]. unfold Match.body at 1. simpl. rewrite Hob, Hoq, Ho.
    rewrite loop_balanced by (try assumption; discriminate).
    f_equal. rewrite length_app. simpl. lia.
Qed.

Lemma opens_are_openers plain opens (w : text) :
  leaves_open plain opens w -> Forall (fun c => is_opener c = true) opens.
Proof. induction 1; constructor; assumption. Qed.

Lemma innermost_opener plain opens (w : text) o :
  is_opener o = true -> leaves_open plain opens w ->
  is_opener (hd o opens) = true.
Proof.
  intros Ho Hw. destruct Hw; simpl; assumption.
Qed.

Lemma loop_closes o (rest : text) j k :
  is_opener o = true -> closes is_plain o rest k ->
  Match.loop rest j (Match.init o) = Return (j + k).
Proof.
  intros Ho (w & tl & Hw & -> & ->). unfold Match.init.
  rewrite (loop_balanced w Hw) by discriminate. cbn [Match.loop].
  rewrite (body_on_closer _ (closer_of o) _ o []); try reflexivity;
    try assumption; [|now apply closer_of_closer].
  now rewrite Ascii.eqb_refl.
Qed.

Lemma loop_mismatches o (rest : text) j :
  is_opener o = true -> mismatches is_plain o rest ->
  Match.loop rest j (Match.init o) = Raise MismatchedBrackets.
Proof.
  intros Ho (opens & w & c & tl & Hw & -> & Hc & Hne). unfold Match.init.
  rewrite (loop_leaves_open opens w Hw) by discriminate. cbn [Match.loop].
  pose proof (innermost_opener _ _ _ o Ho Hw) as Htop.
  destruct opens as [|top opens]; simpl in Hne, Htop |- *.
  - rewrite (body_on_closer _ c _ o []); try reflexivity; try assumption.
    destruct (c =? closer_of o) eqn:E; [|reflexivity].
    apply Ascii.eqb_eq in E. contradiction.
  - rewrite (body_on_closer _ c _ top (opens ++ [o])); try reflexivity; try assumption.
    destruct (c =? closer_of top) eqn:E; [|reflexivity].
    apply Ascii.eqb_eq in E. contradiction.
Qed.

Lemma loop_stays_open o (rest : text) j :
  stays_open is_plain rest ->
  Match.loop rest j (Match.init o) = Raise NoMatchingBracket.
Proof.
  intros (opens & w & u & Hw & Hu & ->). unfold Match.init.
  rewrite (loop_leaves_open opens w Hw) by discriminate.
  destruct Hu as [|q body Hq Hbody|q body Hq Hbody].
  - reflexivity.
  - destruct (quote_props q Hq) as (Hqb & _ & _).
    cbn [Match.loop]. unfold Match.body at 1. simpl. rewrite Hqb, Hq.
    rewrite <- (app_nil_r body). now rewrite (loop_string q _ body Hbody).
  - destruct (quote_props q Hq) as (Hqb & _ & _).
    cbn [Match.loop]. unfold Match.body at 1. simpl. rewrite Hqb, Hq.
    rewrite (loop_string q _ body Hbody). reflexivity.
Qed.

(** ** Bracket matcher: what the scan has seen *)

Lemma seen_start o : seen o [] (Match.init o).
Proof.
  left. exists []. split; [repeat constructor | reflexivity].
Qed.

Lemma not_special_plain c :
  (c =? BACKSLASH) = false -> is_quote c = false -> is_opener c = false ->
  is_closer c = false -> is_plain c = true.
Proof.
  intros H1 H2 H3 H4. unfold is_plain. now rewrite H1, H2, H3, H4.
Qed.

(** One more character: the scan has seen one more character of the
    grammar, unless the character is a backslash outside any string. *)
Lemma seen_step o (w : text) st j c st' :
  is_opener o = true -> seen o w st ->
  Match.body j c st = Match.Continue st' ->
  seen o (w ++ [c]) st'
  \/ (c = BACKSLASH /\ exists opens, leaves_open is_plain opens w).
Proof.
  intros Ho [(opens & Hw & ->) | [(opens & w0 & q & body & Hq & Hw & Hb & -> & ->)
                                 | (opens & w0 & q & body & Hq & Hw & Hb & -> & ->)]].
  - unfold Match.body. cbn [Match.escape Match.in_string Match.string_char Match.stack].
    destruct (c =? BACKSLASH) eqn:Hbs.
    { intros _. right. apply Ascii.eqb_eq in Hbs. eauto. }
    destruct (is_quote c) eqn:Hcq.
    { intros [= <-]. left. right. left. exists opens, w, c, [].
      repeat split; try assumption. constructor. }
    destruct (is_opener c) eqn:Hco.
    { intros [= <-]. left. left. exists (c :: opens). split; [|reflexivity].
      constructor; [assumption | assumption | constructor]. }
    destruct (is_closer c) eqn:Hcc.
    2:{ intros [= <-]. left. left. exists opens. split; [|reflexivity].
        apply leaves_open_balanced; [assumption|].
        constructor; [now apply not_special_plain | constructor]. }
    intros Hbody.
    assert (Hb' : Match.body j c (Match.mk false None false (opens ++ [o]))
                  = Match.Continue st').
    { unfold Match.body.
      cbn [Match.escape Match.in_string Match.string_char Match.stack].
      now rewrite Hbs, Hcq, Hco, Hcc. }
    clear Hbody. destruct opens as [|top opens].
    + rewrite (body_on_closer j c _ o []) in Hb'; try reflexivity; try assumption.
      destruct (c =? closer_of o); discriminate.
    + inversion Hw as [|opens0 w1 top0 b Hw1 Htop Hbal]; subst.
      rewrite (body_on_closer j c _ top (opens ++ [o])) in Hb';
        try reflexivity; try assumption.
      destruct (c =? closer_of top) eqn:E; [|discriminate].
      apply Ascii.eqb_eq in E. subst c.
      destruct (opens ++ [o]) as [|x l] eqn:El.
      { destruct opens; discriminate. }
      inversion Hb'; subst st'. left. left. exists opens. split.
      * rewrite <- app_assoc. simpl. apply leaves_open_balanced; [assumption|].
        apply balanced_bracket; [assumption | assumption | constructor].
      * simpl. now rewrite El.
  - destruct (quote_props q Hq) as (Hqb & _ & _).
    unfold Match.body. cbn [Match.escape Match.in_string Match.string_char Match.stack].
    destruct (c =? BACKSLASH) eqn:Hbs.
    { intros [= <-]. apply Ascii.eqb_eq in Hbs. subst c. left. right. right.
      exists opens, w0, q, body. repeat split; try assumption.
      rewrite <- app_assoc. reflexivity. }
    cbn [Match.same_char]. destruct (c =? q) eqn:Hcq.
    + intros [= <-]. apply Ascii.eqb_eq in Hcq. subst c. left. left.
      exists opens. split; [|reflexivity].
      rewrite <- app_assoc. simpl. apply leaves_open_balanced; [assumption|].
      apply balanced_string; [assumption | assumption | constructor].
    + intros [= <-]. left. right. left. exists opens, w0, q, (body ++ [c]).
      repeat split; try assumption.
      * now apply string_body_snoc.
      * rewrite <- !app_assoc. reflexivity.
  - unfold Match.body. cbn [Match.escape Match.in_string Match.string_char Match.stack].
    intros [= <-]. left. right. left. exists opens, w0, q, (body ++ [BACKSLASH; c]).
    repeat split; try assumption.
    + now apply string_body_snoc_escape.
    + rewrite <- !app_assoc. simpl. rewrite <- !app_assoc. reflexivity.
Qed.

(** The scan is decided: by the bracket that closes the first one, or
    by a closing bracket of the wrong kind. *)
Lemma seen_done o (w : text) st j c r tl :
  is_opener o = true -> seen o w st ->
  Match.body j c st = Match.Done r ->
  (r = Return j /\ closes is_plain o (w ++ c :: tl) (length w))
  \/ (r = Raise MismatchedBrackets /\ mismatches is_plain o (w ++ c :: tl)).
Proof.
  intros Ho [(opens & Hw & ->) | [(opens & w0 & q & body & Hq & Hw & Hb & -> & ->)
                                 | (opens & w0 & q & body & Hq & Hw & Hb & -> & ->)]].
  - intros Hbody.
    assert (Hok : stack_ok (Match.mk false None false (opens ++ [o]))).
    { split; simpl; [destruct opens; discriminate|].
      apply Forall_app. split; [eapply opens_are_openers; eassumption | auto]. }
    destruct (body_done _ _ _ _ Hok Hbody) as (_ & _ & Hcc & _).
    destruct opens as [|top opens].
    + rewrite (body_on_closer j c _ o []) in Hbody; try reflexivity; try assumption.
      destruct (c =? closer_of o) eqn:E.
      * apply Ascii.eqb_eq in E. subst c. inversion Hbody; subst r. left.
        split; [reflexivity|]. exists w, tl. inversion Hw; subst. auto.
      * inversion Hbody; subst r. right. split; [reflexivity|].
        exists [], w, c, tl. repeat split; try assumption.
        simpl. intros ->. now rewrite Ascii.eqb_refl in E.
    + inversion Hw as [|opens0 w1 top0 b Hw1 Htop Hbal]; subst.
      rewrite (body_on_closer j c _ top (opens ++ [o])) in Hbody;
        try reflexivity; try assumption.
      destruct (c =? closer_of top) eqn:E.
      * destruct (opens ++ [o]) as [|x l] eqn:El; [destruct opens|]; discriminate.
      * inversion Hbody; subst r. right. split; [reflexivity|].
        exists (top :: opens), (w1 ++ top :: b), c, tl. repeat split; try assumption.
        simpl. intros ->. now rewrite Ascii.eqb_refl in E.
  - unfold Match.body. cbn [Match.escape Match.in_string Match.string_char Match.stack].
    destruct (c =? BACKSLASH); [discriminate|].
    destruct (Match.same_char c (Some q)); discriminate.
  - unfold Match.body. cbn [Match.escape]. discriminate.
Qed.

(** At the end of the text the first bracket is still open. *)
Lemma seen_end o (w : text) st : seen o w st -> stays_open is_plain w.
Proof.
  intros [(opens & Hw & ->) | [(opens & w0 & q & body & Hq & Hw & Hb & -> & ->)
                              | (opens & w0 & q & body & Hq & Hw & Hb & -> & ->)]].
  - exists opens, w, []. rewrite app_nil_r. repeat split; [assumption | constructor].
  - exists opens, w0, (q :: body). repeat split; [assumption | now constructor].
  - exists opens, w0, (q :: body ++ [BACKSLASH]).
    repeat split; [assumption | now constructor].
Qed.

Lemma loop_verdict o j0 : is_opener o = true ->
  forall (r w : text) st,
    seen o w st ->
    verdict o (w ++ r) j0 (Match.loop r (j0 + length w) st)
    \/ bare_backslash is_plain (w ++ r).
Proof.
  intros Ho. induction r as [|c r IH]; intros w st Hseen.
  - left. rewrite app_nil_r. simpl. eapply seen_end; eassumption.
  - cbn [Match.loop]. destruct (Match.body (j0 + length w) c st) as [st'|res] eqn:Hb.
    + destruct (seen_step o w st _ c st' Ho Hseen Hb) as [Hs | (-> & opens & Hw)].
      * specialize (IH (w ++ [c]) st' Hs).
        rewrite <- app_assoc in IH. simpl in IH.
        replace (j0 + length (w ++ [c])) with (S (j0 + length w)) in IH
          by (rewrite length_app; simpl; lia).
        exact IH.
      * right. exists opens, w, r. split; [assumption | reflexivity].
    + left. destruct (seen_done o w st _ c res r Ho Hseen Hb) as [[-> H] | [-> H]].
      * simpl. exists (length w). split; [reflexivity | assumption].
      * exact H.
Qed.

Lemma bare_backslash_spec (rest : text) :
  bare_backslash is_plain rest -> bare_backslash spec_plain rest.
Proof.
  intros (opens & w & tl & Hw & ->). exists opens, w, tl.
  split; [now apply leaves_open_spec | reflexivity].
Qed.

(** Where no backslash stands outside strings, what is open for the
    specification is open for the scan. *)
Lemma leaves_open_scan opens (w tl : text) :
  ~ bare_backslash spec_plain (w ++ tl) ->
  leaves_open spec_plain opens w -> leaves_open is_plain opens w.
Proof.
  intros Hno Hw.
  destruct (leaves_open_first_backslash opens w Hw) as [H | (opens' & w1 & w2 & H & ->)];
    [assumption|].
  exfalso. apply Hno. exists opens', w1, (w2 ++ tl).
  split; [now apply leaves_open_spec | now rewrite <- app_assoc].
Qed.

Lemma fmb_loop (s : text) start o :
  nth_error s start = Some o -> is_opener o = true ->
  find_matching_bracket s start
  = Match.loop (skipn (S start) s) (S start) (Match.init o).
Proof.
  intros Hn Ho. unfold find_matching_bracket. now rewrite Hn, Ho.
Qed.

Lemma fmb_verdict (s : text) start o :
  nth_error s start = Some o -> is_opener o = true ->
  verdict o (skipn (S start) s) (S start) (find_matching_bracket s start)
  \/ bare_backslash is_plain (skipn (S start) s).
Proof.
  intros Hn Ho. rewrite (fmb_loop s start o Hn Ho).
  pose proof (loop_verdict o (S start) Ho (skipn (S start) s) [] _ (seen_start o)) as H.
  simpl in H. now rewrite Nat.add_0_r in H.
Qed.

Lemma fmb_taxonomy (s : text) start o :
  nth_error s start = Some o -> is_opener o = true ->
  ~ bare_backslash spec_plain (skipn (S start) s) ->
  (find_matching_bracket s start = Raise MismatchedBrackets
   <-> mismatches spec_plain o (skipn (S start) s))
  /\ (find_matching_bracket s start = Raise NoMatchingBracket
      <-> stays_open spec_plain (skipn (S start) s))
  /\ (forall e, find_matching_bracket s start = Return e
                <-> exists k, e = S start + k
                              /\ closes spec_plain o (skipn (S start) s) k).
Proof.
  intros Hn Ho Hno.
  assert (Hv : verdict o (skipn (S start) s) (S start) (find_matching_bracket s start)).
  { destruct (fmb_verdict s start o Hn Ho) as [H | H]; [exact H|].
    exfalso. apply Hno. now apply bare_backslash_spec. }
  split; [|split].
  - split.
    + intros H. rewrite H in Hv. simpl in Hv.
      destruct Hv as (opens & w & c & tl & Hw & E & Hc & Hne).
      exists opens, w, c, tl. repeat split; try assumption. now apply leaves_open_spec.
    + intros (opens & w & c & tl & Hw & E & Hc & Hne).
      rewrite (fmb_loop s start o Hn Ho). apply loop_mismatches; [assumption|].
      exists opens, w, c, tl. repeat split; try assumption.
      apply (leaves_open_scan opens w (c :: tl)); [now rewrite <- E | assumption].
  - split.
    + intros H. rewrite H in Hv. simpl in Hv.
      destruct Hv as (opens & w & u & Hw & Hu & E).
      exists opens, w, u. repeat split; try assumption. now apply leaves_open_spec.
    + intros (opens & w & u & Hw & Hu & E).
      rewrite (fmb_loop s start o Hn Ho). apply loop_stays_open.
      exists opens, w, u. repeat split; try assumption.
      apply (leaves_open_scan opens w u); [now rewrite <- E | assumption].
  - intros e. split.
    + intros H. rewrite H in Hv. simpl in Hv.
      destruct Hv as (k & -> & w & tl & Hw & E & ->).
      exists (length w). split; [reflexivity|]. exists w, tl.
      repeat split; try assumption. now apply balanced_spec.
    + intros (k & -> & w & tl & Hw & E & ->).
      rewrite (fmb_loop s start o Hn Ho). apply loop_closes; [assumption|].
      exists w, tl. repeat split; try assumption.
      assert (Hl : leaves_open is_plain [] w).
      { apply (leaves_open_scan [] w (closer_of o :: tl)); [now rewrite <- E|].
        now constructor. }
      now inversion Hl.
Qed.

(** ** Bracket matcher: the cursor and the grammar *)

Lemma cursor_string q (body : text) :
  string_body q body ->
  fold_left cursor_step body (mk_cursor true (Some q) false)
  = mk_cursor true (Some q) false.
Proof.
  induction 1 as [|c t Hq Hbs _ IH|c t _ IH]; [reflexivity| |].
  - cbn [fold_left]. unfold cursor_step at 2. simpl. now rewrite Hbs, Hq.
  - cbn [fold_left]. unfold cursor_step at 2 3. simpl. exact IH.
Qed.

Lemma cursor_balanced (w : text) :
  balanced spec_plain w -> fold_left cursor_step w cursor_init = cursor_init.
Proof.
  induction 1 as [|ch t Hp _ IH|q body t Hq Hbody _ IH|o b t Ho _ IHb _ IHt].
  - reflexivity.
  - cbn [fold_left]. unfold cursor_step at 2. simpl.
    unfold spec_plain in Hp. rewrite negb_true_iff, !orb_false_iff in Hp.
    destruct Hp as [[Hq _] _]. now rewrite Hq.
  - cbn [fold_left]. unfold cursor_step at 2. simpl. rewrite Hq.
    rewrite fold_left_app, (cursor_string q body Hbody).
    cbn [fold_left]. unfold cursor_step at 2. simpl.
    destruct (quote_props q Hq) as (Hqb & _ & _). rewrite Hqb, Ascii.eqb_refl.
    exact IH.
  - cbn [fold_left]. unfold cursor_step at 2. simpl.
    destruct (opener_props o Ho) as (_ & Hoq & _). rewrite Hoq.
    rewrite fold_left_app. fold cursor_init. rewrite IHb.
    cbn [fold_left]. unfold cursor_step at 2. simpl.
    destruct (closer_props _ (closer_of_closer o Ho)) as (_ & Hcq & _). rewrite Hcq.
    exact IHt.
Qed.

Lemma cursor_leaves_open opens (w : text) :
  leaves_open spec_plain opens w -> fold_left cursor_step w cursor_init = cursor_init.
Proof.
  induction 1 as [w Hw | opens w o b _ IH Ho Hb].
  - now apply cursor_balanced.
  - rewrite fold_left_app, IH. cbn [fold_left]. unfold cursor_step at 2. simpl.
    destruct (opener_props o Ho) as (_ & Hoq & _). rewrite Hoq.
    now apply cursor_balanced.
Qed.

Lemma backslash_in_code_app (w r : text) : forall cu,
  backslash_in_code cu (w ++ r)
  = backslash_in_code cu w || backslash_in_code (fold_left cursor_step w cu) r.
Proof.
  induction w as [|c w IH]; intros cu; [reflexivity|].
  simpl. rewrite IH. now rewrite orb_assoc.
Qed.

(** The cursor finds every backslash that stands outside strings with
    brackets open. *)
Lemma no_backslash_in_code (rest : text) :
  backslash_in_code cursor_init rest = false -> ~ bare_backslash spec_plain rest.
Proof.
  intros H (opens & w & tl & Hw & ->).
  rewrite backslash_in_code_app, (cursor_leaves_open opens w Hw) in H.
  apply orb_false_iff in H. destruct H as [_ H]. simpl in H. discriminate.
Qed.

(** ** Bracket matcher: the errors raised *)

Lemma fmb_invalid_start (s : text) start :
  find_matching_bracket s start = Raise StartNotBracket <->
  exists ch, nth_error s start = Some ch /\ ch <> "[" /\ ch <> "{".
Proof.
  unfold find_matching_bracket.
  destruct (nth_error s start) as [opening|] eqn:Hn.
  2:{ split; [discriminate|]. intros (ch & H & _). discriminate. }
  destruct (is_opener opening) eqn:Ho; cbn [negb].
  - pose proof (init_stack_ok opening Ho) as Hok. split.
    + intros H. exfalso.
      destruct (loop_result (skipn (S start) s) (S start) _ Hok)
        as [[i Hi] | [Hi | Hi]]; rewrite Hi in H; discriminate.
    + intros (ch & [= <-] & H1 & H2). apply is_opener_cases in Ho. tauto.
  - split; [intros _|reflexivity].
    exists opening. split; [reflexivity|]. split; intros ->; discriminate.
Qed.

Lemma fmb_never_unbalanced (s : text) start :
  find_matching_bracket s start <> Raise UnbalancedBrackets.
Proof.
  unfold find_matching_bracket.
  destruct (nth_error s start) as [opening|]; [|discriminate].
  destruct (is_opener opening) eqn:Ho; cbn [negb]; [|discriminate].
  pose proof (init_stack_ok opening Ho) as Hok. intros H.
  destruct (loop_result (skipn (S start) s) (S start) _ Hok)
    as [[i Hi] | [Hi | Hi]]; rewrite Hi in H; discriminate.
Qed.

(** C6, where the code departs from the claim.  The invalid-start error
    is raised exactly when the character at the start offset is neither
    of the opening brackets, and the error the source names Unbalanced
    brackets is never raised.  As long as no backslash stands outside
    strings with brackets open, the rest is as the claim says, for the
    bracket structure the specification describes: the mismatch error is
    raised exactly when a closing bracket stands where the innermost open
    bracket is of the other kind; the end-of-text error (No matching
    bracket found) exactly when the text ends with the first bracket
    still open, inside a string or not; and an offset is returned exactly
    when it holds the bracket that closes the first one.  On [1, 2} the
    matcher raises the mismatch error and on [1, 2, { the end-of-text
    error.  But a backslash outside strings makes the scan pass over the
    next character: after the opening bracket of [\}] a brace stands
    where the innermost open bracket is a square one, and the matcher
    raises nothing and returns offset 3. *)
Theorem find_matching_bracket_taxonomy :
  (forall (s : text) (start_index : nat),
      find_matching_bracket s start_index = Raise StartNotBracket <->
      exists ch, nth_error s start_index = Some ch /\ ch <> "[" /\ ch <> "{")
  /\ (forall (s : text) (start_index : nat) (o : ascii),
         nth_error s start_index = Some o -> is_opener o = true ->
         ~ bare_backslash spec_plain (skipn (S start_index) s) ->
         (find_matching_bracket s start_index = Raise MismatchedBrackets
          <-> mismatches spec_plain o (skipn (S start_index) s))
         /\ (find_matching_bracket s start_index = Raise NoMatchingBracket
             <-> stays_open spec_plain (skipn (S start_index) s))
         /\ (forall e, find_matching_bracket s start_index = Return e
                       <-> exists k, e = S start_index + k
                                     /\ closes spec_plain o (skipn (S start_index) s) k))
  /\ (forall (s : text) (start_index : nat),
         find_matching_bracket s start_index <> Raise UnbalancedBrackets)
  /\ find_matching_bracket (txt "[1, 2}") 0 = Raise MismatchedBrackets
  /\ find_matching_bracket (txt "[1, 2, {") 0 = Raise NoMatchingBracket
  /\ mismatches spec_plain "[" (skipn 1 (txt "[\}]"))
  /\ find_matching_bracket (txt "[\}]") 0 = Return 3.
Proof.
  split; [exact fmb_invalid_start|].
  split; [exact fmb_taxonomy|].
  split; [exact fmb_never_unbalanced|].
  split; [reflexivity|]. split; [reflexivity|]. split; [|reflexivity].
  exists [], [BACKSLASH], "}", (txt "]").
  split; [|split; [reflexivity|split; [reflexivity|discriminate]]].
  apply leaves_open_none. apply balanced_plain; [reflexivity | constructor].
Qed.

Lemma find_matching_bracket_taxonomy_witness :
  mismatches spec_plain "[" (skipn 1 escaped_quote_text).
Proof.
  apply (proj1 (proj2 find_matching_bracket_taxonomy) escaped_quote_text 0 "[").
  - reflexivity.
  - reflexivity.
  - apply no_backslash_in_code. reflexivity.
  - reflexivity.
Defined.
